(** * Chat relay: connection registry, message admission and fan-out

    A shallow embedding of the WebSocket relay of this repository and the
    properties its specification states about it.

    The repository holds several drafts of the same server.  Three of them
    are embedded here, selected by a [Variant]:

    - [ESM]      : src/server.js, first program (ES modules, no duplicate check);
    - [Windowed] : src/server.js, second program (duplicate check on a
                   5000 ms look-back window);
    - [Keyed]    : src/models/User.js, second program (the [activeConnections]
                   registry and a duplicate check keyed by [messageId]).

    The three write to the one [Message] model of the repository, whose
    schema (src/unnamed/part_000) declares the paths [gigId], [userId],
    [recipientId], [text] and [timestamp].

    The oldest draft (src/models/User.js, third program), which matches the
    audience by substrings of the request URL and validates nothing, is not
    embedded.

    What the model fixes:
    - a socket is an object with an identity: the server keeps a heap of
      sockets ([heap]), and [wss.clients], the per-user [Set]s and the
      handlers' closures refer to sockets and sets by their index;
    - a handler runs from its event to its end in one step: the interleaving
      of two [async] handlers at their [await]s is not modelled;
    - query parameters, identifiers and [text] are absent or strings, and a
      [timestamp] is absent or an integer number of milliseconds;
    - the libraries the server calls (bson's ObjectId, mongoose's casts and
      [populate], the rendering of a number in a template literal) are the
      fields of the class [Runtime]; nothing is assumed about them except
      where a statement says so. *)

From stdpp Require Import gmap strings list fin_maps pretty.
From Stdlib Require Import ZArith.

Open Scope string_scope.
Open Scope list_scope.
Open Scope Z_scope.

(** ** JavaScript values of the wire protocol *)

(** [!v] is false for a non-empty string, true for [undefined] and [""]. *)
Definition truthy (v : option string) : bool :=
  match v with
  | Some s => negb (bool_decide (s = ""))
  | None => false
  end.

(** Truthiness of an optional number: [undefined] and [0] are falsy. *)
Definition truthyN (v : option Z) : bool :=
  match v with
  | Some n => negb (bool_decide (n = 0))
  | None => false
  end.

(** The string a destructured or read field holds once it passed [truthy]. *)
Definition val (v : option string) : string := default "" v.

(** An ObjectId, identified with its canonical rendering. *)
Definition ObjectId : Type := string.

(** [new Date(t)] for a number [t]: a time value, or [None] for an Invalid
    Date (beyond 8.64e15 ms from the epoch). *)
Definition maxTime : Z := 8640000000000000.

Definition new_Date (t : Z) : option Z :=
  if bool_decide (Z.abs t ≤ maxTime) then Some t else None.

(** ** Data model *)

Inductive Variant := ESM | Windowed | Keyed.

Global Instance Variant_eq_dec : EqDecision Variant.
Proof. solve_decision. Defined.

Inductive ReadyState := CONNECTING | OPEN | CLOSING | CLOSED.

Global Instance ReadyState_eq_dec : EqDecision ReadyState.
Proof. solve_decision. Defined.

(** [ws.query = { gigId, sellerId, userId }] *)
Module Query.
Record t := mk { gigId : string; sellerId : string; userId : string }.
End Query.

(** The object [JSON.parse(data)] yields, as far as the handler reads it. *)
Module Inbound.
Record t := mk {
  gigId : option string;
  senderId : option string;
  text : option string;
  recipientId : option string;
  timestamp : option Z;
  messageId : option string
}.
End Inbound.

(** A document of the [Message] collection.  The schema
    (src/unnamed/part_000) declares [gigId], [userId], [recipientId], [text]
    and [timestamp] and nothing else; it is a strict schema (the default),
    so [Message.create] drops every other property it is given: no
    document has a [read] flag or a [messageId]. *)
Module Stored.
Record t := mk {
  _id : nat;
  gigId : ObjectId;
  userId : ObjectId;
  recipientId : option ObjectId;
  text : string;
  timestamp : Z
}.
End Stored.

(** The [name] and [avatar] that [populate("userId", "name avatar")] joins in. *)
Record Profile := { name : string; avatar : string }.

Record Populated := { doc : Stored.t; sender : option Profile }.

(** What [ws.send] is given: [JSON.stringify({ error })] or
    [JSON.stringify(populatedMessage)]. *)
Inductive Frame :=
| ErrorFrame (error : string)
| MessageFrame (populatedMessage : Populated).

(** A socket of the ws library with what the server attaches to it:
    [query], and the [userConnections] set its handlers close over. *)
Record WebSocket := {
  readyState : ReadyState;
  query : option Query.t;
  userConnections : option nat;
  sent : list Frame;
  closeCall : option (Z * string)
}.

Record Server := {
  heap : list WebSocket;
  clients : list nat;
  sets : list (list nat);
  activeConnections : gmap string nat;
  Message : list Stored.t
}.

(** The libraries around the server. *)
Class Runtime := {
  (** [mongoose.Types.ObjectId.isValid] *)
  isValid : string → bool;
  (** [mongoose.Types.ObjectId.createFromHexString]; [None] when it throws *)
  createFromHexString : string → option ObjectId;
  (** mongoose's cast of a filter value at an ObjectId path; [None] for a CastError *)
  castObjectId : string → option ObjectId;
  (** the rendering of a number inside a template literal *)
  numberToString : Z → string;
  (** the [User] document [populate] finds for an id *)
  findUser : ObjectId → option Profile
}.

(** A runtime to evaluate the model with: identifiers are 24 hexadecimal
    digits, compared as written. *)
Definition is_hex (c : Ascii.ascii) : bool :=
  let n := Ascii.nat_of_ascii c in
  ((48 <=? n) && (n <=? 57) || (65 <=? n) && (n <=? 70) || (97 <=? n) && (n <=? 102))%nat.

Definition hex24 (s : string) : bool :=
  (String.length s =? 24)%nat && forallb is_hex (String.list_ascii_of_string s).

Definition sample_runtime : Runtime := {|
  isValid := hex24;
  createFromHexString := λ s, if hex24 s then Some s else None;
  castObjectId := λ s, if hex24 s then Some s else None;
  numberToString := pretty;
  findUser := λ _, Some {| name := "user"; avatar := "/default-avatar.png" |}
|}.

(** Identifiers, messages and a document to evaluate the model on. *)
Definition gigA : string := "aaaaaaaaaaaaaaaaaaaaaaaa".
Definition gigB : string := "bbbbbbbbbbbbbbbbbbbbbbbb".
Definition seller : string := "cccccccccccccccccccccccc".
Definition buyer : string := "dddddddddddddddddddddddd".

(** A message of [buyer] about gig [gig]. *)
Definition chat (gig : string) (text : option string) (timestamp : option Z)
    : Inbound.t :=
  Inbound.mk (Some gig) (Some buyer) text None timestamp None.

(** The document [Message.create] makes of such a message. *)
Definition note (id : nat) (gig text : string) (timestamp : Z) : Stored.t :=
  Stored.mk id gig buyer None text timestamp.

(** ** The ws library *)

Definition set_readyState (s : ReadyState) (ws : WebSocket) : WebSocket :=
  {| readyState := s; query := query ws; userConnections := userConnections ws;
     sent := sent ws; closeCall := closeCall ws |}.

Definition set_query (q : Query.t) (ws : WebSocket) : WebSocket :=
  {| readyState := readyState ws; query := Some q;
     userConnections := userConnections ws;
     sent := sent ws; closeCall := closeCall ws |}.

Definition set_userConnections (r : nat) (ws : WebSocket) : WebSocket :=
  {| readyState := readyState ws; query := query ws; userConnections := Some r;
     sent := sent ws; closeCall := closeCall ws |}.

(** [ws.send(frame)]: written when the socket is open, dropped otherwise. *)
Definition ws_send (frame : Frame) (ws : WebSocket) : WebSocket :=
  match readyState ws with
  | OPEN =>
      {| readyState := OPEN; query := query ws;
         userConnections := userConnections ws;
         sent := sent ws ++ [frame]; closeCall := closeCall ws |}
  | _ => ws
  end.

(** [ws.close(code, reason)]: an open socket starts the closing handshake;
    a socket already closing or closed is left as it is. *)
Definition ws_close (code : Z) (reason : string) (ws : WebSocket) : WebSocket :=
  match readyState ws with
  | OPEN =>
      {| readyState := CLOSING; query := query ws;
         userConnections := userConnections ws;
         sent := sent ws; closeCall := Some (code, reason) |}
  | _ => ws
  end.

Definition with_heap (h : list WebSocket) (st : Server) : Server :=
  {| heap := h; clients := clients st; sets := sets st;
     activeConnections := activeConnections st; Message := Message st |}.

Definition with_clients (c : list nat) (st : Server) : Server :=
  {| heap := heap st; clients := c; sets := sets st;
     activeConnections := activeConnections st; Message := Message st |}.

Definition with_sets (s : list (list nat)) (st : Server) : Server :=
  {| heap := heap st; clients := clients st; sets := s;
     activeConnections := activeConnections st; Message := Message st |}.

Definition with_activeConnections (m : gmap string nat) (st : Server) : Server :=
  {| heap := heap st; clients := clients st; sets := sets st;
     activeConnections := m; Message := Message st |}.

Definition with_Message (m : list Stored.t) (st : Server) : Server :=
  {| heap := heap st; clients := clients st; sets := sets st;
     activeConnections := activeConnections st; Message := m |}.

Definition on_socket (f : WebSocket → WebSocket) (ws : nat) (st : Server) : Server :=
  with_heap (alter f ws (heap st)) st.

Definition send (ws : nat) (frame : Frame) : Server → Server :=
  on_socket (ws_send frame) ws.

Definition close (ws : nat) (code : Z) (reason : string) : Server → Server :=
  on_socket (ws_close code reason) ws.

(** A [Set] in insertion order. *)
Definition Set_add (x : nat) (s : list nat) : list nat :=
  if bool_decide (x ∈ s) then s else s ++ [x].

Definition Set_delete (x : nat) (s : list nat) : list nat :=
  filter (λ y, y ≠ x) s.

(** The members of the set object [r]. *)
Definition members (r : nat) (st : Server) : list nat :=
  default [] (sets st !! r).

(** What the handlers read of the socket object [ws]. *)
Definition queryOf (st : Server) (ws : nat) : option Query.t :=
  heap st !! ws ≫= query.

Definition closureOf (st : Server) (ws : nat) : option nat :=
  heap st !! ws ≫= userConnections.

Definition stateOf (st : Server) (ws : nat) : option ReadyState :=
  readyState <$> heap st !! ws.

Definition initial : Server :=
  {| heap := []; clients := []; sets := []; activeConnections := ∅; Message := [] |}.

(** ** The handlers of [startWebSocketServer] *)

Section Handlers.
Context {R : Runtime}.

(** The ws server hands a new socket to the ["connection"] listener: the
    socket is open and already in [wss.clients]. *)
Definition accept (st : Server) : Server :=
  let ws := length (heap st) in
  let fresh := {| readyState := OPEN; query := None; userConnections := None;
                  sent := []; closeCall := None |} in
  with_clients (clients st ++ [ws]) (with_heap (heap st ++ [fresh]) st).

(** The body of [userConnections.forEach]: an older socket of the same gig
    is closed and deleted from the set.  Every socket of a set has a
    [query] ([reg_member] below), so the read of [client.query.gigId] never
    fails; the model leaves the state as it is in that case. *)
Definition evict (ws : nat) (gigId : string) (r : nat)
    (st : Server) (client : nat) : Server :=
  if bool_decide (client ≠ ws) then
    match queryOf st client with
    | Some cq =>
        if bool_decide (Query.gigId cq = gigId) then
          let st := close client 1008 "Duplicate connection" st in
          with_sets (alter (Set_delete client) r (sets st)) st
        else st
    | None => st
    end
  else st.

(** [if (!activeConnections.has(userId)) activeConnections.set(userId, new Set())] *)
Definition ensure_set (userId : string) (st : Server) : Server :=
  if bool_decide (is_Some (activeConnections st !! userId)) then st
  else
    with_activeConnections
      (<[userId := length (sets st)]> (activeConnections st))
      (with_sets (sets st ++ [[]]) st).

(** [userConnections.add(ws)] and "Close older connections for the same
    userId and gigId", with [userConnections] the set object [r]. *)
Definition join (ws : nat) (gigId : string) (r : nat) (st : Server) : Server :=
  let st := on_socket (set_userConnections r) ws st in
  let st := with_sets (alter (Set_add ws) r (sets st)) st in
  if (1 <? length (members r st))%nat then
    fold_left (evict ws gigId r) (members r st) st
  else st.

(** "Manage active connections" of the keyed draft. *)
Definition register (ws : nat) (q : Query.t) (st : Server) : Server :=
  let st := ensure_set (Query.userId q) st in
  match activeConnections st !! Query.userId q with
  | Some r => join ws (Query.gigId q) r st
  | None => st
  end.

(** [wss.on("connection", ...)] with the parsed query of the request. *)
Definition on_connection (v : Variant) (gigId sellerId userId : option string)
    (st : Server) : Server :=
  let ws := length (heap st) in
  let st := accept st in
  if negb (truthy gigId) || negb (truthy sellerId) || negb (truthy userId) then
    close ws 1008 "Missing gigId, sellerId, or userId"
      (send ws (ErrorFrame "Missing required query parameters") st)
  else if negb (isValid (val gigId)) || negb (isValid (val sellerId))
          || negb (isValid (val userId)) then
    close ws 1008 "Invalid gigId, sellerId, or userId"
      (send ws (ErrorFrame "Invalid gigId, sellerId, or userId") st)
  else
    let q := Query.mk (val gigId) (val sellerId) (val userId) in
    let st := on_socket (set_query q) ws st in
    match v with
    | Keyed => register ws q st
    | _ => st
    end.

(** The test of the broadcast loop for one client, with the closure
    variables [gigId], [sellerId], [userId] of the sending connection,
    which are the fields of its [ws.query].  [WebSocket.OPEN] is the
    constant of the runtime's global [WebSocket], the ready state [OPEN]. *)
Definition relevant (q : Query.t) (client : WebSocket) : bool :=
  bool_decide (readyState client = OPEN)
  && match query client with
     | Some cq =>
         bool_decide (Query.gigId cq = Query.gigId q)
         && (bool_decide (Query.userId cq = Query.sellerId q)
             || bool_decide (Query.userId cq = Query.userId q))
     | None => false
     end.

(** The body of [wss.clients.forEach(...)]. *)
Definition offer (q : Query.t) (payload : Frame) (st : Server)
    (client : nat) : Server :=
  match heap st !! client with
  | Some c => if relevant q c then send client payload st else st
  | None => st
  end.

(** "Broadcast to relevant clients" *)
Definition broadcast (q : Query.t) (payload : Frame) (st : Server) : Server :=
  fold_left (offer q payload) (clients st) st.

(** [Message.findOne(filter)] *)
Definition findOne (filter : Stored.t → bool) (st : Server) : option Stored.t :=
  List.find filter (Message st).

(** [message.timestamp || Date.now()] *)
Definition timestamp_or_now (m : Inbound.t) (now : Z) : Z :=
  if truthyN (Inbound.timestamp m) then default 0 (Inbound.timestamp m) else now.

(** The argument of [new Date(...)] in [Message.create]; [None] is
    [undefined], which makes an Invalid Date. *)
Definition timestamp_arg (v : Variant) (m : Inbound.t) (now : Z) : option Z :=
  match v with
  | Windowed => Inbound.timestamp m
  | _ => Some (timestamp_or_now m now)
  end.

(** [Message.create({...})]; [None] when an argument or the validation of
    the document throws.  Of the properties it is given, [read: false] and
    the [messageId] of the keyed draft are no paths of the schema and are
    not saved. *)
Definition create (v : Variant) (m : Inbound.t) (now : Z)
    (messageId : option string) (st : Server) : option (Stored.t * Server) :=
  gigId ← createFromHexString (val (Inbound.gigId m));
  userId ← createFromHexString (val (Inbound.senderId m));
  recipientId ←
    (if truthy (Inbound.recipientId m)
     then Some <$> createFromHexString (val (Inbound.recipientId m))
     else Some None);
  timestamp ← timestamp_arg v m now ≫= new_Date;
  let saved :=
    Stored.mk (length (Message st)) gigId userId recipientId
      (val (Inbound.text m)) timestamp in
  Some (saved, with_Message (Message st ++ [saved]) st).

(** [Message.findById(savedMessage._id).populate("userId", "name avatar")],
    then the broadcast. *)
Definition deliver (ws : nat) (q : Query.t) (saved : Stored.t)
    (st : Server) : Server :=
  match List.find (λ d, bool_decide (Stored._id d = Stored._id saved)) (Message st) with
  | Some d =>
      broadcast q (MessageFrame {| doc := d; sender := findUser (Stored.userId d) |}) st
  | None => send ws (ErrorFrame "Failed to retrieve message details") st
  end.

(** The filter of the windowed draft; [None] when a value cannot be cast. *)
Definition windowed_filter (m : Inbound.t) : option (Stored.t → bool) :=
  gigId ← castObjectId (val (Inbound.gigId m));
  userId ← castObjectId (val (Inbound.senderId m));
  since ← Inbound.timestamp m ≫= (λ t, new_Date (t - 5000));
  Some (λ d,
    bool_decide (Stored.gigId d = gigId)
    && bool_decide (Stored.userId d = userId)
    && bool_decide (Stored.text d = val (Inbound.text m))
    && bool_decide (since ≤ Stored.timestamp d)).

(** The filter [{ messageId }] of the keyed draft.  [messageId] is no path
    of the schema, and the server sets no [strictQuery]: mongoose (7 and
    later, where that option is off by default) hands the condition to the
    database as it is, and since no document has the field, it holds of
    none. *)
Definition messageId_filter (messageId : string) : Stored.t → bool :=
  λ _, false.

(** [message.messageId || `${message.senderId}:${message.timestamp || Date.now()}`] *)
Definition make_messageId (m : Inbound.t) (now : Z) : string :=
  if truthy (Inbound.messageId m) then val (Inbound.messageId m)
  else val (Inbound.senderId m) +:+ ":" +:+ numberToString (timestamp_or_now m now).

Definition format_error (v : Variant) : string :=
  match v with
  | Keyed => "Invalid message format: Missing gigId, senderId, or text"
  | _ => "Invalid message format"
  end.

(** The duplicate check, [Message.create] and the delivery: what the
    [try] block does with a message that passed the two validations. *)
Definition store_and_route (v : Variant) (ws : nat) (q : Query.t)
    (m : Inbound.t) (now : Z) (st : Server) : option Server :=
  match v with
  | ESM =>
      '(saved, st) ← create ESM m now None st;
      Some (deliver ws q saved st)
  | Windowed =>
      filter ← windowed_filter m;
      match findOne filter st with
      | Some _ => Some (send ws (ErrorFrame "Duplicate message detected") st)
      | None =>
          '(saved, st) ← create Windowed m now None st;
          Some (deliver ws q saved st)
      end
  | Keyed =>
      let messageId := make_messageId m now in
      match findOne (messageId_filter messageId) st with
      | Some _ => Some st
      | None =>
          '(saved, st) ← create Keyed m now (Some messageId) st;
          Some (deliver ws q saved st)
      end
  end.

(** The [try] block of the ["message"] listener after [JSON.parse];
    [None] when it throws. *)
Definition handle (v : Variant) (ws : nat) (q : Query.t) (m : Inbound.t)
    (now : Z) (st : Server) : option Server :=
  if negb (truthy (Inbound.gigId m)) || negb (truthy (Inbound.senderId m))
     || negb (truthy (Inbound.text m)) then
    Some (send ws (ErrorFrame (format_error v)) st)
  else if negb (isValid (val (Inbound.gigId m)))
          || negb (isValid (val (Inbound.senderId m)))
          || (truthy (Inbound.recipientId m)
              && negb (isValid (val (Inbound.recipientId m)))) then
    Some (send ws (ErrorFrame "Invalid message IDs") st)
  else store_and_route v ws q m now st.

(** [ws.on("message", ...)]: [data] is [None] when [JSON.parse] (or the
    first read of a field) throws; [now] is what [Date.now()] returns.
    Nothing is stored or sent before a throw, so the [catch] block starts
    from the state the listener started from.  The duplicate-key error
    (code 11000) that the keyed draft tests for needs a unique index, and
    the schema declares none: [Message.create] does not raise it. *)
Definition on_message (v : Variant) (ws : nat) (data : option Inbound.t)
    (now : Z) (st : Server) : Server :=
  match queryOf st ws with
  | Some q =>
      match data ≫= (λ m, handle v ws q m now st) with
      | Some st' => st'
      | None => send ws (ErrorFrame "Server error") st
      end
  | None => st
  end.

(** [ws.on("close", ...)] *)
Definition on_close (v : Variant) (ws : nat) (st : Server) : Server :=
  match v, closureOf st ws, queryOf st ws with
  | Keyed, Some r, Some q =>
      let st := with_sets (alter (Set_delete ws) r (sets st)) st in
      if (length (members r st) =? 0)%nat then
        with_activeConnections (delete (Query.userId q) (activeConnections st)) st
      else st
  | _, _, _ => st
  end.

(** What the ws library does when the transport of [ws] is gone, before it
    emits ["close"]. *)
Definition transport_closed (ws : nat) (st : Server) : Server :=
  with_clients (Set_delete ws (clients st))
    (on_socket (set_readyState CLOSED) ws st).

(** The peer starts the closing handshake. *)
Definition peer_closing (ws : WebSocket) : WebSocket :=
  match readyState ws with
  | OPEN => set_readyState CLOSING ws
  | _ => ws
  end.

Inductive Event :=
| Connection (gigId sellerId userId : option string)
| Incoming (ws : nat) (data : option Inbound.t) (now : Z)
| PeerClosing (ws : nat)
| Closed (ws : nat).

(** No event is emitted on a closed socket, or on one that does not exist. *)
Definition is_closed (ws : nat) (st : Server) : bool :=
  match stateOf st ws with
  | Some s => bool_decide (s = CLOSED)
  | None => true
  end.

Definition step (v : Variant) (st : Server) (ev : Event) : Server :=
  match ev with
  | Connection gigId sellerId userId => on_connection v gigId sellerId userId st
  | Incoming ws data now =>
      if is_closed ws st then st else on_message v ws data now st
  | PeerClosing ws => on_socket peer_closing ws st
  | Closed ws =>
      if is_closed ws st then st else on_close v ws (transport_closed ws st)
  end.

Definition run (v : Variant) (events : list Event) : Server :=
  fold_left (step v) events initial.

End Handlers.

(** ** Vocabulary of the specification *)

(** The frames written to socket [ws] so far, oldest first. *)
Definition outbox (st : Server) (ws : nat) : list Frame :=
  from_option sent [] (heap st !! ws).

(** The close code and reason the server gave socket [ws], if it closed it. *)
Definition closeCallOf (st : Server) (ws : nat) : option (Z * string) :=
  heap st !! ws ≫= closeCall.

(** Socket [c] passes the test of the broadcast loop in state [st]. *)
Definition passes (q : Query.t) (st : Server) (c : nat) : Prop :=
  from_option (relevant q) false (heap st !! c) = true.

Global Instance passes_dec q st c : Decision (passes q st c).
Proof. unfold passes. apply _. Defined.

(** [matching(key)]: the audience the broadcast loop selects. *)
Definition matching (q : Query.t) (st : Server) : list nat :=
  filter (passes q st) (clients st).

(** Two states that differ at most in what was written to the sockets and in
    the collection. *)
Record same_skeleton (st st' : Server) : Prop := {
  sk_clients : clients st' = clients st;
  sk_sets : sets st' = sets st;
  sk_active : activeConnections st' = activeConnections st;
  sk_length : length (heap st') = length (heap st);
  sk_query : ∀ c, queryOf st' c = queryOf st c;
  sk_closure : ∀ c, closureOf st' c = closureOf st c;
  sk_state : ∀ c, stateOf st' c = stateOf st c;
  sk_closeCall : ∀ c, closeCallOf st' c = closeCallOf st c
}.

(** The message has the required fields and its identifiers pass the
    validation. *)
Definition well_formed {R : Runtime} (m : Inbound.t) : bool :=
  truthy (Inbound.gigId m) && truthy (Inbound.senderId m)
  && truthy (Inbound.text m)
  && isValid (val (Inbound.gigId m)) && isValid (val (Inbound.senderId m))
  && (negb (truthy (Inbound.recipientId m))
      || isValid (val (Inbound.recipientId m))).

(** The cast of a filter value and [createFromHexString] yield the same
    ObjectId for a string the latter accepts. *)
Definition cast_agrees {R : Runtime} : Prop :=
  ∀ s o, createFromHexString s = Some o → castObjectId s = Some o.

(** The [messageId] a draft hands to [Message.create]. *)
Definition dedup_key {R : Runtime} (v : Variant) (m : Inbound.t) (now : Z)
    : option string :=
  match v with
  | Keyed => Some (make_messageId m now)
  | _ => None
  end.

(** The duplicate check of the draft finds no stored document. *)
Definition novel {R : Runtime} (v : Variant) (m : Inbound.t) (now : Z)
    (st : Server) : Prop :=
  match v with
  | ESM => True
  | Windowed =>
      ∃ filter, windowed_filter m = Some filter ∧ findOne filter st = None
  | Keyed =>
      findOne (messageId_filter (make_messageId m now)) st = None
  end.

(** What one run of the ["message"] listener can do to the state. *)
Inductive Outcome {R : Runtime} (v : Variant) (ws : nat)
    (data : option Inbound.t) (now : Z) (st : Server) : Server → Prop :=
| Ignored : Outcome v ws data now st st
| Rejected error : Outcome v ws data now st (send ws (ErrorFrame error) st)
| Accepted q m saved st1 :
    queryOf st ws = Some q → data = Some m →
    well_formed m = true → novel v m now st →
    create v m now (dedup_key v m now) st = Some (saved, st1) →
    Outcome v ws data now st (deliver ws q saved st1).

(** Two states that agree on everything the registry and [wss.clients]
    depend on. *)
Record same_view (st st' : Server) : Prop := {
  vw_clients : clients st' = clients st;
  vw_sets : sets st' = sets st;
  vw_active : activeConnections st' = activeConnections st;
  vw_length : length (heap st') = length (heap st);
  vw_query : ∀ c, queryOf st' c = queryOf st c;
  vw_closure : ∀ c, closureOf st' c = closureOf st c;
  vw_closed : ∀ c, is_closed c st' = is_closed c st
}.

(** Socket [x] is one the eviction loop of a connection [ws] for gig
    [gigId] closes: another socket, admitted for the same gig. *)
Definition victim (ws : nat) (gigId : string) (st : Server) (x : nat) : Prop :=
  x ≠ ws ∧ ∃ cq, queryOf st x = Some cq ∧ Query.gigId cq = gigId.

(** Two states that differ at most in the members of the sets and in the
    progress of the closing handshakes. *)
Record same_sockets (st st' : Server) : Prop := {
  ss_clients : clients st' = clients st;
  ss_active : activeConnections st' = activeConnections st;
  ss_Message : Message st' = Message st;
  ss_length : length (heap st') = length (heap st);
  ss_sets : length (sets st') = length (sets st);
  ss_query : ∀ c, queryOf st' c = queryOf st c;
  ss_closure : ∀ c, closureOf st' c = closureOf st c;
  ss_closed : ∀ c, is_closed c st' = is_closed c st;
  ss_outbox : ∀ c, outbox st' c = outbox st c
}.

(** The establishment parameters are all present and all pass the
    identifier validation. *)
Definition acceptable {R : Runtime} (gigId sellerId userId : option string) : bool :=
  truthy gigId && truthy sellerId && truthy userId
  && isValid (val gigId) && isValid (val sellerId) && isValid (val userId).

(** Socket [c] is in the audience of the conversation [q]: a client of the
    server that is open, admitted for the gig of [q], whose user is the
    seller or the user of [q]. *)
Definition in_audience (q : Query.t) (st : Server) (c : nat) : Prop :=
  c ∈ clients st
  ∧ stateOf st c = Some OPEN
  ∧ ∃ cq, queryOf st c = Some cq
      ∧ Query.gigId cq = Query.gigId q
      ∧ (Query.userId cq = Query.sellerId q ∨ Query.userId cq = Query.userId q).

(** Between [st] and [st'] the payload was written once to each socket of
    the audience of [q], and nothing to any other socket. *)
Definition broadcast_to (q : Query.t) (payload : Frame) (st st' : Server) : Prop :=
  ∀ c, (in_audience q st c → outbox st' c = outbox st c ++ [payload])
       ∧ (¬ in_audience q st c → outbox st' c = outbox st c).

(** The frame that carries the stored message [saved]. *)
Definition frame_of {R : Runtime} (saved : Stored.t) : Frame :=
  MessageFrame {| doc := saved; sender := findUser (Stored.userId saved) |}.

(** Socket [ws] is closed and in no set. *)
Definition gone (ws : nat) (st : Server) : Prop :=
  (ws < length (heap st))%nat ∧ is_closed ws st = true
  ∧ ∀ r, ws ∉ members r st.

(** Socket [c] is held by the registry: it is in the set of some user. *)
Definition registered (st : Server) (c : nat) : Prop :=
  ∃ u r, activeConnections st !! u = Some r ∧ c ∈ members r st.

(** [wss.clients] holds each socket that is not closed, once. *)
Definition clients_ok (st : Server) : Prop :=
  NoDup (clients st) ∧ ∀ c, c ∈ clients st ↔ is_closed c st = false.

(** The [_id] of a document is its position in the collection. *)
Definition store_ok (st : Server) : Prop :=
  ∀ i d, Message st !! i = Some d → Stored._id d = i.

(** The shape of the sets and of the map that refers to them. *)
Record registry_ok (st : Server) : Prop := {
  reg_member : ∀ r c, c ∈ members r st →
    is_Some (queryOf st c) ∧ closureOf st c = Some r;
  reg_closure : ∀ c r, closureOf st c = Some r → (r < length (sets st))%nat;
  reg_owner : ∀ c r q u, closureOf st c = Some r → queryOf st c = Some q →
    activeConnections st !! u = Some r → Query.userId q = u;
  reg_bucket : ∀ u r, activeConnections st !! u = Some r →
    (r < length (sets st))%nat ∧ members r st ≠ [];
  reg_gig : ∀ r c1 c2 q1 q2, c1 ∈ members r st → c2 ∈ members r st →
    queryOf st c1 = Some q1 → queryOf st c2 = Some q2 →
    Query.gigId q1 = Query.gigId q2 → c1 = c2
}.

Definition invariant (st : Server) : Prop :=
  clients_ok st ∧ store_ok st ∧ registry_ok st.

(** Connection [b] is a party of the conversation of connection [a]: it
    shares the gig of [a], and its user is the user of [a] or the seller
    that [a] named when it was admitted. *)
Definition parties (a b : Query.t) : Prop :=
  Query.gigId b = Query.gigId a
  ∧ (Query.userId b = Query.userId a ∨ Query.userId b = Query.sellerId a).

(** The reasons the ["connection"] listener gives in an error payload. *)
Definition connection_errors : list string :=
  ["Missing required query parameters"; "Invalid gigId, sellerId, or userId"].

(** The reasons the ["message"] listener of a draft gives in an error
    payload, the one of the unreachable [!populatedMessage] branch left out. *)
Definition message_errors (v : Variant) : list string :=
  format_error v :: "Invalid message IDs" :: "Server error"
  :: match v with
     | Windowed => ["Duplicate message detected"]
     | _ => []
     end.

(** A frame the draft [v] can have written by the time of state [st]: an
    error with one of its reasons, or a document of the collection with the
    profile of its sender. *)
Definition sendable {R : Runtime} (v : Variant) (st : Server) (f : Frame) : Prop :=
  match f with
  | ErrorFrame error => error ∈ connection_errors ++ message_errors v
  | MessageFrame p =>
      doc p ∈ Message st ∧ sender p = findUser (Stored.userId (doc p))
  end.

(** Between [st] and [st'] the server called [close(1008, "Duplicate
    connection")] on the open socket [c]. *)
Definition superseded (st st' : Server) (c : nat) : Prop :=
  stateOf st c = Some OPEN
  ∧ stateOf st' c = Some CLOSING
  ∧ closeCallOf st' c = Some (1008, "Duplicate connection").

(** Between [st] and [st'] neither the ready state of socket [c] nor the
    close the server gave it changed. *)
Definition untouched (st st' : Server) (c : nat) : Prop :=
  stateOf st' c = stateOf st c ∧ closeCallOf st' c = closeCallOf st c.

(** Two documents that the filter of the windowed draft takes for the same
    message, timestamps apart. *)
Definition same_content (d1 d2 : Stored.t) : Prop :=
  Stored.gigId d1 = Stored.gigId d2
  ∧ Stored.userId d1 = Stored.userId d2
  ∧ Stored.text d1 = Stored.text d2.

(** The closes the server has given: each is a policy violation (1008),
    for a connection it turned away or, in the keyed draft, for one it
    superseded. *)
Definition close_calls_ok (v : Variant) (st : Server) : Prop :=
  ∀ c code reason, closeCallOf st c = Some (code, reason) →
    code = 1008 ∧ stateOf st c ≠ Some OPEN
    ∧ (queryOf st c = None
       ∧ (reason = "Missing gigId, sellerId, or userId"
          ∨ reason = "Invalid gigId, sellerId, or userId")
       ∨ v = Keyed ∧ is_Some (queryOf st c) ∧ reason = "Duplicate connection").

(** The registry is not in use: there is no set, and no socket has one. *)
Definition registry_unused (st : Server) : Prop :=
  sets st = [] ∧ activeConnections st = ∅ ∧ ∀ c, closureOf st c = None.

(** Every socket the registry holds is live: not closed, in [wss.clients],
    and never given a close by the server. *)
Definition registry_live (st : Server) : Prop :=
  ∀ c, registered st c → is_closed c st = false ∧ closeCallOf st c = None.

(** Copies of a message in the collection are more than the window of the
    windowed draft apart. *)
Definition spaced (st : Server) : Prop :=
  ∀ i j d1 d2, Message st !! i = Some d1 → Message st !! j = Some d2 →
    (i < j)%nat → same_content d1 d2 →
    Stored.timestamp d1 + 5000 < Stored.timestamp d2.

(** Every admitted socket closes over a set, and is in it while it is
    open. *)
Definition in_own_set (st : Server) : Prop :=
  ∀ c q, queryOf st c = Some q →
    ∃ r, closureOf st c = Some r ∧ (stateOf st c = Some OPEN → c ∈ members r st).

(** ** Effects of the primitives *)

Section Primitives.
Context {R : Runtime}.

Lemma lookup_on_socket f ws st c :
  heap (on_socket f ws st) !! c
  = if decide (ws = c) then f <$> heap st !! ws else heap st !! c.
Proof. apply list_lookup_alter. Qed.

Lemma queryOf_on_socket f ws st c :
  (∀ w, query (f w) = query w) →
  queryOf (on_socket f ws st) c = queryOf st c.
Proof.
  intros Hf. unfold queryOf. rewrite lookup_on_socket.
  case_decide; subst; [|done]. destruct (heap st !! c); simpl; auto.
Qed.

Lemma closureOf_on_socket f ws st c :
  (∀ w, userConnections (f w) = userConnections w) →
  closureOf (on_socket f ws st) c = closureOf st c.
Proof.
  intros Hf. unfold closureOf. rewrite lookup_on_socket.
  case_decide; subst; [|done]. destruct (heap st !! c); simpl; auto.
Qed.

Lemma stateOf_on_socket f ws st c :
  (∀ w, readyState (f w) = readyState w) →
  stateOf (on_socket f ws st) c = stateOf st c.
Proof.
  intros Hf. unfold stateOf. rewrite lookup_on_socket.
  case_decide; subst; [|done]. destruct (heap st !! c); simpl; f_equal; auto.
Qed.

Lemma stateOf_on_socket_ne f ws st c :
  ws ≠ c → stateOf (on_socket f ws st) c = stateOf st c.
Proof.
  intros. unfold stateOf. rewrite lookup_on_socket. by case_decide.
Qed.

Lemma outbox_on_socket_ne f ws st c :
  ws ≠ c → outbox (on_socket f ws st) c = outbox st c.
Proof.
  intros. unfold outbox. rewrite lookup_on_socket. by case_decide.
Qed.

Lemma query_ws_send f w : query (ws_send f w) = query w.
Proof. unfold ws_send. by destruct (readyState w). Qed.

Lemma userConnections_ws_send f w :
  userConnections (ws_send f w) = userConnections w.
Proof. unfold ws_send. by destruct (readyState w). Qed.

Lemma readyState_ws_send f w : readyState (ws_send f w) = readyState w.
Proof. unfold ws_send. by destruct (readyState w) eqn:E. Qed.

Lemma closeCall_ws_send f w : closeCall (ws_send f w) = closeCall w.
Proof. unfold ws_send. by destruct (readyState w). Qed.

Lemma query_ws_close k s w : query (ws_close k s w) = query w.
Proof. unfold ws_close. by destruct (readyState w). Qed.

Lemma userConnections_ws_close k s w :
  userConnections (ws_close k s w) = userConnections w.
Proof. unfold ws_close. by destruct (readyState w). Qed.

Lemma sent_ws_close k s w : sent (ws_close k s w) = sent w.
Proof. unfold ws_close. by destruct (readyState w). Qed.

Lemma relevant_ws_send q f w : relevant q (ws_send f w) = relevant q w.
Proof.
  unfold relevant. by rewrite readyState_ws_send, query_ws_send.
Qed.

Lemma queryOf_send ws f st c : queryOf (send ws f st) c = queryOf st c.
Proof. apply queryOf_on_socket, query_ws_send. Qed.

Lemma closureOf_send ws f st c : closureOf (send ws f st) c = closureOf st c.
Proof. apply closureOf_on_socket, userConnections_ws_send. Qed.

Lemma stateOf_send ws f st c : stateOf (send ws f st) c = stateOf st c.
Proof. apply stateOf_on_socket, readyState_ws_send. Qed.

Lemma queryOf_close ws k s st c : queryOf (close ws k s st) c = queryOf st c.
Proof. apply queryOf_on_socket, query_ws_close. Qed.

Lemma closureOf_close ws k s st c :
  closureOf (close ws k s st) c = closureOf st c.
Proof. apply closureOf_on_socket, userConnections_ws_close. Qed.

Lemma is_closed_send ws f st c : is_closed c (send ws f st) = is_closed c st.
Proof. unfold is_closed. by rewrite stateOf_send. Qed.

(** An open socket receives the frame; any other outbox is unchanged. *)
Lemma outbox_send ws f st c :
  outbox (send ws f st) c
  = if decide (ws = c ∧ stateOf st c = Some OPEN)
    then outbox st c ++ [f] else outbox st c.
Proof.
  unfold outbox, send, stateOf. rewrite lookup_on_socket.
  destruct (decide (ws = c)) as [->|]; [|by rewrite decide_False by tauto].
  destruct (heap st !! c) as [w|]; simpl; [|by rewrite decide_False by naive_solver].
  unfold ws_send. destruct (readyState w) eqn:E; simpl;
    case_decide; naive_solver.
Qed.

End Primitives.

(** ** The broadcast loop *)

Section Broadcast.
Context {R : Runtime}.

Lemma passes_iff q st c :
  passes q st c ↔
  stateOf st c = Some OPEN
  ∧ ∃ cq, queryOf st c = Some cq
      ∧ Query.gigId cq = Query.gigId q
      ∧ (Query.userId cq = Query.sellerId q ∨ Query.userId cq = Query.userId q).
Proof.
  unfold passes, stateOf, queryOf, relevant.
  destruct (heap st !! c) as [w|]; simpl; [|naive_solver].
  destruct (query w) as [cq|]; simpl.
  - rewrite !andb_true_iff, orb_true_iff, !bool_decide_eq_true. split.
    + intros (-> & ? & ?). eauto.
    + intros (? & cq' & ? & ? & ?). simplify_eq. auto.
  - rewrite andb_false_r. split; [done|]. by intros (_ & ? & ? & _).
Qed.

Lemma passes_ext q st st' c :
  stateOf st' c = stateOf st c → queryOf st' c = queryOf st c →
  passes q st' c ↔ passes q st c.
Proof. intros Hs Hq. by rewrite !passes_iff, Hs, Hq. Qed.

Lemma offer_cases q f st x :
  offer q f st x = st ∧ ¬ passes q st x
  ∨ offer q f st x = send x f st ∧ passes q st x.
Proof.
  unfold offer, passes. destruct (heap st !! x) as [w|]; simpl.
  - destruct (relevant q w); naive_solver.
  - naive_solver.
Qed.

Lemma same_skeleton_refl st : same_skeleton st st.
Proof. by split. Qed.

Lemma same_skeleton_trans st1 st2 st3 :
  same_skeleton st1 st2 → same_skeleton st2 st3 → same_skeleton st1 st3.
Proof.
  intros [] []. split; intros; etrans; eauto.
Qed.

Lemma same_skeleton_send ws f st : same_skeleton st (send ws f st).
Proof.
  split; try done.
  - apply length_alter.
  - intros. apply queryOf_send.
  - intros. apply closureOf_send.
  - intros. apply stateOf_send.
  - intros c. unfold closeCallOf, send. rewrite lookup_on_socket.
    case_decide; subst; [|done].
    destruct (heap st !! c); simpl; [apply closeCall_ws_send|done].
Qed.

Lemma same_skeleton_with_Message m st : same_skeleton st (with_Message m st).
Proof. by split. Qed.

Lemma fold_offer_frame q f l st :
  let st' := fold_left (offer q f) l st in
  same_skeleton st st' ∧ Message st' = Message st.
Proof.
  revert st. induction l as [|x l IH]; intros st; simpl.
  { split; [apply same_skeleton_refl|done]. }
  destruct (IH (offer q f st x)) as [Hsk Hm]. rewrite Hm.
  destruct (offer_cases q f st x) as [[E _]|[E _]]; rewrite E in *.
  - done.
  - split; [|done].
    eapply same_skeleton_trans; [apply same_skeleton_send|done].
Qed.

Lemma fold_offer_outbox q f l st c :
  NoDup l →
  outbox (fold_left (offer q f) l st) c
  = if decide (c ∈ l ∧ passes q st c) then outbox st c ++ [f] else outbox st c.
Proof.
  revert st. induction l as [|x l IH]; intros st Hnd; cbn [fold_left].
  { rewrite decide_False; [done|]. intros [H%elem_of_nil _]. done. }
  apply NoDup_cons in Hnd as [Hx Hnd]. rewrite IH by done.
  assert (passes q (offer q f st x) c ↔ passes q st c) as Hp.
  { destruct (offer_cases q f st x) as [[E _]|[E _]]; rewrite E; [done|].
    apply passes_ext; [apply stateOf_send|apply queryOf_send]. }
  assert (outbox (offer q f st x) c
          = if decide (x = c ∧ passes q st c)
            then outbox st c ++ [f] else outbox st c) as ->.
  { destruct (offer_cases q f st x) as [[E Hn]|[E Hy]]; rewrite E.
    - rewrite decide_False; [done|]. by intros [-> ?].
    - rewrite outbox_send. destruct (decide (x = c)) as [->|Hne].
      + pose proof Hy as [Hopen _]%passes_iff. by rewrite !decide_True.
      + rewrite !decide_False; [done| |]; by intros [? _]. }
  destruct (decide (x = c)) as [->|Hne].
  - destruct (decide (passes q st c)) as [Hy|Hn].
    + rewrite decide_False by (by intros [? _]).
      by rewrite !decide_True by (split; [set_solver|done]).
    + rewrite !decide_False; [done|by intros [_ ?]..|by intros [_ ?%Hp]].
  - rewrite (decide_False (P := x = c ∧ _)) by (by intros [? _]).
    destruct (decide (c ∈ l ∧ passes q st c)) as [[Hin Hy]|Hn].
    + rewrite decide_True by (by rewrite Hp).
      by rewrite decide_True by (split; [set_solver|done]).
    + rewrite decide_False by (rewrite Hp; done).
      rewrite decide_False; [done|].
      intros [[?|?]%elem_of_cons ?]; [by subst|]. by apply Hn.
Qed.

Lemma broadcast_frame q f st :
  same_skeleton st (broadcast q f st)
  ∧ Message (broadcast q f st) = Message st.
Proof. apply fold_offer_frame. Qed.

(** The loop writes the payload once to each socket of [matching], and to
    no other socket. *)
Lemma broadcast_outbox q f st c :
  NoDup (clients st) →
  outbox (broadcast q f st) c
  = if decide (c ∈ matching q st) then outbox st c ++ [f] else outbox st c.
Proof.
  intros Hnd. unfold broadcast. rewrite fold_offer_outbox by done.
  unfold matching. repeat case_decide; try done.
  - exfalso. rewrite list_elem_of_filter in *. naive_solver.
  - exfalso. rewrite list_elem_of_filter in *. naive_solver.
Qed.

End Broadcast.

(** ** The message listener *)

Section Listener.
Context {R : Runtime}.

Lemma find_snoc {A} (P : A → bool) (l : list A) (x : A) :
  (∀ d, d ∈ l → P d = false) → P x = true →
  List.find P (l ++ [x]) = Some x.
Proof.
  intros Hl Hx. induction l as [|d l IH]; simpl.
  - by rewrite Hx.
  - rewrite Hl by set_solver. apply IH. intros. apply Hl. set_solver.
Qed.

Lemma create_Some v m now mid st saved st1 :
  create v m now mid st = Some (saved, st1) →
  ∃ gigId userId recipientId timestamp,
    createFromHexString (val (Inbound.gigId m)) = Some gigId
    ∧ createFromHexString (val (Inbound.senderId m)) = Some userId
    ∧ (if truthy (Inbound.recipientId m)
       then Some <$> createFromHexString (val (Inbound.recipientId m))
       else Some None) = Some recipientId
    ∧ timestamp_arg v m now ≫= new_Date = Some timestamp
    ∧ saved = Stored.mk (length (Message st)) gigId userId recipientId
                (val (Inbound.text m)) timestamp
    ∧ st1 = with_Message (Message st ++ [saved]) st.
Proof.
  unfold create. intros H.
  destruct (createFromHexString (val (Inbound.gigId m))) as [g|]; [|done].
  destruct (createFromHexString (val (Inbound.senderId m))) as [u|]; [|done].
  simpl in H.
  destruct (if truthy (Inbound.recipientId m)
            then Some <$> createFromHexString (val (Inbound.recipientId m))
            else Some None) as [r|]; [|done].
  simpl in H.
  destruct (timestamp_arg v m now ≫= new_Date) as [t|]; [|done].
  simpl in H. simplify_eq. by exists g, u, r, t.
Qed.

Lemma store_ok_create v m now mid st saved st1 :
  store_ok st → create v m now mid st = Some (saved, st1) → store_ok st1.
Proof.
  intros Hok (g & u & r & t & _ & _ & _ & _ & -> & ->)%create_Some i d.
  simpl. intros [[_ ?]|[-> <-]]%lookup_snoc_Some; [by apply Hok|done].
Qed.

(** The document just created is the one [findById] returns, so the
    listener goes on to the broadcast. *)
Lemma deliver_created v m now mid ws q st saved st1 :
  store_ok st → create v m now mid st = Some (saved, st1) →
  deliver ws q saved st1
  = broadcast q
      (MessageFrame {| doc := saved; sender := findUser (Stored.userId saved) |})
      st1.
Proof.
  intros Hok Hc. pose proof Hc as (g & u & r & t & _ & _ & _ & _ & Hs & ->)%create_Some.
  unfold deliver. simpl. rewrite find_snoc; [done| |by rewrite bool_decide_eq_true].
  intros d [i Hi]%list_elem_of_lookup. apply bool_decide_eq_false.
  rewrite (Hok _ _ Hi). apply lookup_lt_Some in Hi. rewrite Hs. simpl. lia.
Qed.

Lemma handle_well_formed v ws q m now st :
  well_formed m = true →
  handle v ws q m now st = store_and_route v ws q m now st.
Proof.
  unfold well_formed, handle. intros H.
  repeat (apply andb_true_iff in H as [H ?]).
  repeat match goal with H : _ = true |- _ => rewrite H; clear H end. simpl.
  destruct (truthy (Inbound.recipientId m)); simpl in *; [|done].
  by match goal with H : _ = true |- _ => rewrite H end.
Qed.

Lemma handle_ill_formed v ws q m now st :
  well_formed m = false →
  ∃ error, handle v ws q m now st = Some (send ws (ErrorFrame error) st).
Proof.
  unfold well_formed, handle. intros H.
  destruct (truthy (Inbound.gigId m)), (truthy (Inbound.senderId m)),
    (truthy (Inbound.text m)); simpl in *; eauto.
  destruct (isValid (val (Inbound.gigId m))),
    (isValid (val (Inbound.senderId m))); simpl in *; eauto.
  destruct (truthy (Inbound.recipientId m)); simpl in *; [|done].
  rewrite H. simpl. eauto.
Qed.

Lemma on_message_outcome v ws data now st :
  Outcome v ws data now st (on_message v ws data now st).
Proof.
  unfold on_message. destruct (queryOf st ws) as [q|] eqn:Hq; [|constructor].
  destruct data as [m|]; simpl; [|constructor].
  destruct (well_formed m) eqn:Hwf.
  2: { destruct (handle_ill_formed v ws q m now st Hwf) as [e ->]. constructor. }
  rewrite handle_well_formed by done. unfold store_and_route.
  destruct v.
  - destruct (create ESM m now None st) as [[saved st1]|] eqn:Hc; simpl;
      [by econstructor|constructor].
  - destruct (windowed_filter m) as [filter|] eqn:Hf; simpl; [|constructor].
    destruct (findOne filter st) eqn:Hfind; [constructor|].
    destruct (create Windowed m now None st) as [[saved st1]|] eqn:Hc; simpl;
      [|constructor].
    econstructor; eauto. simpl. eauto.
  - destruct (findOne _ st) eqn:Hfind; [constructor|].
    destruct (create Keyed m now _ st) as [[saved st1]|] eqn:Hc; simpl;
      [by econstructor|constructor].
Qed.

Lemma on_message_skeleton v ws data now st :
  store_ok st →
  same_skeleton st (on_message v ws data now st)
  ∧ store_ok (on_message v ws data now st).
Proof.
  intros Hok. destruct (on_message_outcome v ws data now st)
    as [|e|q m saved st1 Hq Hd _ _ Hc].
  - split; [apply same_skeleton_refl|done].
  - split; [apply same_skeleton_send|done].
  - rewrite (deliver_created _ _ _ _ _ _ _ _ _ Hok Hc).
    destruct (broadcast_frame q
      (MessageFrame {| doc := saved; sender := findUser (Stored.userId saved) |})
      st1) as [Hsk Hm].
    pose proof (store_ok_create _ _ _ _ _ _ _ Hok Hc) as Hok1.
    apply create_Some in Hc as (g & u & r & t & _ & _ & _ & _ & _ & ->).
    split.
    + eapply same_skeleton_trans; [apply same_skeleton_with_Message|done].
    + unfold store_ok. by rewrite Hm.
Qed.

End Listener.

(** ** States with the same view *)

Section View.
Context {R : Runtime}.

Lemma same_skeleton_view st st' : same_skeleton st st' → same_view st st'.
Proof.
  intros []. split; try done. intros c. unfold is_closed. by rewrite sk_state0.
Qed.

Lemma same_view_refl st : same_view st st.
Proof. by split. Qed.

Lemma same_view_trans st1 st2 st3 :
  same_view st1 st2 → same_view st2 st3 → same_view st1 st3.
Proof. intros [] []. split; intros; etrans; eauto. Qed.

Lemma members_view st st' r : sets st' = sets st → members r st' = members r st.
Proof. unfold members. by intros ->. Qed.

Lemma clients_ok_view st st' : same_view st st' → clients_ok st → clients_ok st'.
Proof.
  intros [] [Hnd Hiff]. split; rewrite vw_clients0; [done|].
  intros c. by rewrite vw_closed0.
Qed.

Lemma registry_ok_view st st' :
  same_view st st' → registry_ok st → registry_ok st'.
Proof.
  intros [Hc Hs Ha Hl Hq Hk Hz] [].
  split; intros *; rewrite ?(members_view st st') by done;
    rewrite ?Hq, ?Hk, ?Ha, ?Hs; eauto.
Qed.

Lemma is_closed_on_socket f ws st c :
  (∀ w, readyState (f w) = CLOSED ↔ readyState w = CLOSED) →
  is_closed c (on_socket f ws st) = is_closed c st.
Proof.
  intros Hf. unfold is_closed, stateOf. rewrite lookup_on_socket.
  case_decide; subst; [|done].
  destruct (heap st !! c) as [w|]; simpl; [|done].
  apply bool_decide_ext, Hf.
Qed.

Lemma same_view_on_socket f ws st :
  (∀ w, query (f w) = query w) →
  (∀ w, userConnections (f w) = userConnections w) →
  (∀ w, readyState (f w) = CLOSED ↔ readyState w = CLOSED) →
  same_view st (on_socket f ws st).
Proof.
  intros Hq Hk Hs. split; try done.
  - apply length_alter.
  - intros. by apply queryOf_on_socket.
  - intros. by apply closureOf_on_socket.
  - intros. by apply is_closed_on_socket.
Qed.

Lemma same_view_close ws k s st : same_view st (close ws k s st).
Proof.
  apply same_view_on_socket.
  - apply query_ws_close.
  - apply userConnections_ws_close.
  - intros w. unfold ws_close. destruct (readyState w) eqn:E; simpl; by rewrite ?E.
Qed.

Lemma same_view_peer_closing ws st : same_view st (on_socket peer_closing ws st).
Proof.
  apply same_view_on_socket; intros w; unfold peer_closing;
    destruct (readyState w) eqn:E; simpl; by rewrite ?E.
Qed.

Lemma outbox_close ws k s st c : outbox (close ws k s st) c = outbox st c.
Proof.
  unfold outbox, close. rewrite lookup_on_socket. case_decide; subst; [|done].
  destruct (heap st !! c); simpl; [apply sent_ws_close|done].
Qed.

End View.

(** ** The eviction loop *)

Section Eviction.
Context {R : Runtime}.

Lemma elem_of_Set_delete x s c : c ∈ Set_delete x s ↔ c ∈ s ∧ c ≠ x.
Proof. unfold Set_delete. rewrite list_elem_of_filter. tauto. Qed.

Lemma members_alter f r r' (ss : list (list nat)) st :
  f [] = [] →
  members r' (with_sets (alter f r ss) st)
  = if decide (r = r') then f (default [] (ss !! r')) else default [] (ss !! r').
Proof.
  intros Hf. unfold members. simpl. rewrite list_lookup_alter.
  case_decide; subst; [|done]. by destruct (ss !! r').
Qed.

Lemma same_sockets_refl st : same_sockets st st.
Proof. by split. Qed.

Lemma same_sockets_trans st1 st2 st3 :
  same_sockets st1 st2 → same_sockets st2 st3 → same_sockets st1 st3.
Proof. intros [] []. split; intros; etrans; eauto. Qed.

Lemma same_sockets_evicted x r st :
  same_sockets st
    (with_sets (alter (Set_delete x) r (sets st))
       (close x 1008 "Duplicate connection" st)).
Proof.
  destruct (same_view_close x 1008 "Duplicate connection" st).
  split; try done.
  - simpl. apply length_alter.
  - intros c. apply outbox_close.
Qed.

Lemma evict_cases ws g r st x :
  evict ws g r st x = st ∧ ¬ victim ws g st x
  ∨ evict ws g r st x
    = with_sets (alter (Set_delete x) r (sets st))
        (close x 1008 "Duplicate connection" st)
    ∧ victim ws g st x.
Proof.
  unfold evict, victim. case_bool_decide as Hx.
  - destruct (queryOf st x) as [cq|].
    + case_bool_decide.
      * right. eauto.
      * left. split; [done|]. intros (_ & ? & ? & ?). congruence.
    + left. split; [done|]. by intros (_ & ? & ? & _).
  - left. split; [done|]. tauto.
Qed.

Lemma victim_ext ws g st st' c :
  queryOf st' c = queryOf st c → victim ws g st' c ↔ victim ws g st c.
Proof. unfold victim. by intros ->. Qed.

Lemma fold_evict_sockets ws g r l st :
  same_sockets st (fold_left (evict ws g r) l st).
Proof.
  revert st. induction l as [|x l IH]; intros st; simpl.
  { apply same_sockets_refl. }
  eapply same_sockets_trans; [|apply IH].
  destruct (evict_cases ws g r st x) as [[-> _]|[-> _]].
  - apply same_sockets_refl.
  - apply same_sockets_evicted.
Qed.

Lemma fold_evict_others ws g r l st r' :
  r' ≠ r → members r' (fold_left (evict ws g r) l st) = members r' st.
Proof.
  intros Hne. revert st. induction l as [|x l IH]; intros st; simpl; [done|].
  rewrite IH. destruct (evict_cases ws g r st x) as [[-> _]|[-> _]]; [done|].
  rewrite members_alter by done. by rewrite decide_False.
Qed.

(** The loop over [l] deletes from the set exactly the victims in [l]. *)
Lemma fold_evict_members ws g r l st c :
  c ∈ members r (fold_left (evict ws g r) l st)
  ↔ c ∈ members r st ∧ ¬ (c ∈ l ∧ victim ws g st c).
Proof.
  revert st. induction l as [|x l IH]; intros st; simpl.
  { split; [|tauto]. intros ?. split; [done|]. by intros [?%elem_of_nil _]. }
  rewrite IH. destruct (evict_cases ws g r st x) as [[-> Hn]|[-> Hy]].
  - rewrite elem_of_cons. split.
    + intros [? ?]. split; [done|]. intros [[->|?] ?]; tauto.
    + intros [? ?]. split; [done|]. tauto.
  - rewrite members_alter by done. rewrite decide_True by done.
    fold (members r st). rewrite elem_of_Set_delete, elem_of_cons.
    assert (∀ ss, victim ws g
              (with_sets ss (close x 1008 "Duplicate connection" st)) c
            ↔ victim ws g st c) as ->.
    { intros ss. apply victim_ext.
      apply (queryOf_close x 1008 "Duplicate connection" st c). }
    split.
    + intros [[? ?] ?]. split; [done|]. intros [[->|?] ?]; tauto.
    + intros [? ?]. split_and!; [done| |tauto]. intros ->. tauto.
Qed.

Lemma lookup_evict_ne ws g r st x c :
  x ≠ c → heap (evict ws g r st x) !! c = heap st !! c.
Proof.
  intros Hne. destruct (evict_cases ws g r st x) as [[-> _]|[-> _]]; [done|].
  simpl. rewrite list_lookup_alter. by rewrite decide_False.
Qed.

Lemma lookup_evict_not_open ws g r st x c :
  stateOf st c ≠ Some OPEN → heap (evict ws g r st x) !! c = heap st !! c.
Proof.
  intros Hs. destruct (evict_cases ws g r st x) as [[-> _]|[-> _]]; [done|].
  simpl. rewrite list_lookup_alter. case_decide; subst; [|done].
  unfold stateOf in Hs. destruct (heap st !! c) as [w|]; simpl in *; [|done].
  f_equal. unfold ws_close. destruct (readyState w); congruence.
Qed.

Lemma fold_evict_not_open ws g r l st c :
  stateOf st c ≠ Some OPEN →
  heap (fold_left (evict ws g r) l st) !! c = heap st !! c.
Proof.
  revert st. induction l as [|x l IH]; intros st Hs; simpl; [done|].
  rewrite IH.
  - by apply lookup_evict_not_open.
  - unfold stateOf. by rewrite lookup_evict_not_open.
Qed.

(** Each victim in [l] is closing afterwards; one that was open was
    closed with code 1008 and the reason "Duplicate connection". *)
Lemma fold_evict_closes ws g r l st c :
  c ∈ l → victim ws g st c →
  let st' := fold_left (evict ws g r) l st in
  stateOf st' c ≠ Some OPEN
  ∧ (stateOf st c = Some OPEN →
     stateOf st' c = Some CLOSING
     ∧ closeCallOf st' c = Some (1008, "Duplicate connection")).
Proof.
  revert st. induction l as [|x l IH]; intros st Hin Hv; simpl.
  { by apply elem_of_nil in Hin. }
  destruct (decide (x = c)) as [->|Hne].
  - destruct (evict_cases ws g r st c) as [[_ Hn]|[E _]]; [done|].
    assert (stateOf (evict ws g r st c) c ≠ Some OPEN
            ∧ (stateOf st c = Some OPEN →
               stateOf (evict ws g r st c) c = Some CLOSING
               ∧ closeCallOf (evict ws g r st c) c
                 = Some (1008, "Duplicate connection"))) as [H1 H2].
    { rewrite E. unfold stateOf, closeCallOf. simpl.
      rewrite list_lookup_alter_eq. destruct (heap st !! c) as [w|]; simpl; [|done].
      unfold ws_close. destruct (readyState w) eqn:Ew; simpl; rewrite ?Ew;
        split; try done; congruence. }
    unfold stateOf, closeCallOf in *.
    rewrite fold_evict_not_open by done. done.
  - apply elem_of_cons in Hin as [->|Hin]; [done|].
    unfold stateOf at 2. rewrite <- (lookup_evict_ne ws g r st x c) by done.
    apply IH; [done|].
    apply victim_ext with (st := st); [|done].
    unfold queryOf. by rewrite lookup_evict_ne.
Qed.

End Eviction.

(** ** Admission into the registry *)

Section Admission.
Context {R : Runtime}.

Lemma elem_of_Set_add x s c : c ∈ Set_add x s ↔ c ∈ s ∨ c = x.
Proof.
  unfold Set_add. case_bool_decide; [|set_solver].
  split; [tauto|]. by intros [?| ->].
Qed.

Lemma members_Set_add ws r st st0 c :
  (r < length (sets st))%nat →
  c ∈ members r (with_sets (alter (Set_add ws) r (sets st)) st0)
  ↔ c ∈ members r st ∨ c = ws.
Proof.
  intros Hr. unfold members. simpl. rewrite list_lookup_alter_eq.
  apply lookup_lt_is_Some in Hr as [s ->]. simpl. apply elem_of_Set_add.
Qed.

Lemma members_Set_add_ne ws r r' st st0 :
  r' ≠ r →
  members r' (with_sets (alter (Set_add ws) r (sets st)) st0) = members r' st.
Proof.
  intros Hne. unfold members. simpl. by rewrite list_lookup_alter_ne.
Qed.

(** What joining the set [r] does: the new socket is added, the victims
    in the set are closed and deleted, nothing else moves. *)
Lemma join_spec ws g r st :
  (r < length (sets st))%nat → ws ∉ members r st →
  let st' := join ws g r st in
  (clients st' = clients st
   ∧ activeConnections st' = activeConnections st
   ∧ Message st' = Message st
   ∧ length (heap st') = length (heap st)
   ∧ length (sets st') = length (sets st))
  ∧ (∀ c, queryOf st' c = queryOf st c)
  ∧ (∀ c, is_closed c st' = is_closed c st)
  ∧ (∀ c, outbox st' c = outbox st c)
  ∧ (∀ c, c ≠ ws → closureOf st' c = closureOf st c)
  ∧ ((ws < length (heap st))%nat → closureOf st' ws = Some r)
  ∧ (∀ r', r' ≠ r → members r' st' = members r' st)
  ∧ (∀ c, c ∈ members r st' ↔ c = ws ∨ c ∈ members r st ∧ ¬ victim ws g st c)
  ∧ (∀ c, c ∈ members r st → victim ws g st c →
       stateOf st' c ≠ Some OPEN
       ∧ (stateOf st c = Some OPEN →
          stateOf st' c = Some CLOSING
          ∧ closeCallOf st' c = Some (1008, "Duplicate connection"))).
Proof.
  intros Hr Hfresh. unfold join.
  set (sC := on_socket (set_userConnections r) ws st).
  set (sD := with_sets (alter (Set_add ws) r (sets sC)) sC).
  assert (∀ c, queryOf sD c = queryOf st c) as HqD.
  { intros c. apply (queryOf_on_socket (set_userConnections r) ws st c). done. }
  assert (∀ c, stateOf sD c = stateOf st c) as HsD.
  { intros c. apply (stateOf_on_socket (set_userConnections r) ws st c). done. }
  assert (∀ c, closeCallOf sD c = closeCallOf st c) as HkD.
  { intros c. unfold closeCallOf, sD, sC. simpl. rewrite list_lookup_alter.
    case_decide; subst; [|done]. by destruct (heap st !! c). }
  assert (∀ c, outbox sD c = outbox st c) as HoD.
  { intros c. unfold outbox, sD, sC. simpl. rewrite list_lookup_alter.
    case_decide; subst; [|done]. by destruct (heap st !! c). }
  assert (∀ c, c ≠ ws → closureOf sD c = closureOf st c) as HcD.
  { intros c Hne. unfold closureOf, sD, sC. simpl.
    by rewrite list_lookup_alter_ne. }
  assert ((ws < length (heap st))%nat → closureOf sD ws = Some r) as HcD'.
  { intros [w Hw]%lookup_lt_is_Some. unfold closureOf, sD, sC. simpl.
    rewrite list_lookup_alter_eq, Hw. done. }
  assert (∀ c, is_closed c sD = is_closed c st) as HzD.
  { intros c. unfold is_closed. by rewrite HsD. }
  assert (∀ c, c ∈ members r sD ↔ c ∈ members r st ∨ c = ws) as HmD.
  { intros c. apply (members_Set_add ws r st sC c). done. }
  assert (∀ r', r' ≠ r → members r' sD = members r' st) as HmD'.
  { intros r' Hne. apply (members_Set_add_ne ws r r' st sC). done. }
  assert (length (sets sD) = length (sets st)) as HlD.
  { unfold sD, sC. simpl. apply length_alter. }
  assert (length (heap sD) = length (heap st)) as HhD.
  { unfold sD, sC. simpl. apply length_alter. }
  assert (∀ c, victim ws g sD c ↔ victim ws g st c) as HvD.
  { intros c. apply victim_ext, HqD. }
  destruct (1 <? length (members r sD))%nat eqn:Hsize.
  - pose proof (fold_evict_sockets ws g r (members r sD) sD) as [].
    split_and!; try (etrans; [eassumption|done]).
    + intros c. by rewrite ss_query0.
    + intros c. by rewrite ss_closed0.
    + intros c. by rewrite ss_outbox0.
    + intros c Hne. rewrite ss_closure0. auto.
    + intros Hlt. rewrite ss_closure0. auto.
    + intros r' Hne. rewrite fold_evict_others by done. auto.
    + intros c. rewrite fold_evict_members, HvD, HmD. unfold victim. tauto.
    + intros c Hin Hv. rewrite <- (HsD c).
      apply fold_evict_closes; [|by apply HvD]. apply HmD. by left.
  - apply Nat.ltb_ge in Hsize.
    assert (members r st = []) as Hnil.
    { destruct (members r st) as [|x l] eqn:E; [done|]. exfalso.
      assert (x ∈ members r sD) as Hx by (apply HmD; left; set_solver).
      assert (ws ∈ members r sD) as Hw by (apply HmD; by right).
      assert (x ≠ ws) as Hne by (intros ->; set_solver).
      destruct (members r sD) as [|y [|z k]]; simpl in *; [set_solver| |lia].
      apply list_elem_of_singleton in Hx, Hw. congruence. }
    split_and!; try done.
    + intros c. rewrite HmD, Hnil. set_solver.
    + intros c Hin. rewrite Hnil in Hin. set_solver.
Qed.
(** The state in which the listener has stored [ws.query]. *)
Lemma admitted_spec q st :
  let n := length (heap st) in
  let st' := on_socket (set_query q) n (accept st) in
  (clients st' = clients st ++ [n]
   ∧ sets st' = sets st
   ∧ activeConnections st' = activeConnections st
   ∧ Message st' = Message st
   ∧ length (heap st') = S n)
  ∧ (∀ c, queryOf st' c = if decide (c = n) then Some q else queryOf st c)
  ∧ (∀ c, closureOf st' c = closureOf st c)
  ∧ (∀ c, stateOf st' c = if decide (c = n) then Some OPEN else stateOf st c)
  ∧ (∀ c, outbox st' c = outbox st c)
  ∧ (∀ c, closeCallOf st' c = closeCallOf st c).
Proof.
  intros n st'. split_and!; try done.
  - unfold st', accept. simpl. rewrite length_alter, length_app. simpl. lia.
  - intros c. unfold queryOf, st', accept. simpl. rewrite list_lookup_alter.
    destruct (decide (n = c)) as [<-|Hne].
    + rewrite decide_True by done. by rewrite list_lookup_middle.
    + rewrite decide_False by done. rewrite lookup_app.
      destruct (heap st !! c) eqn:E; [done|].
      apply lookup_ge_None in E. by destruct (c - length (heap st))%nat eqn:E'; [lia|].
  - intros c. unfold closureOf, st', accept. simpl. rewrite list_lookup_alter.
    destruct (decide (n = c)) as [<-|Hne].
    + rewrite list_lookup_middle by done. simpl.
      by rewrite (lookup_ge_None_2 (heap st) n).
    + rewrite lookup_app. destruct (heap st !! c) eqn:E; [done|].
      apply lookup_ge_None in E. by destruct (c - length (heap st))%nat eqn:E'; [lia|].
  - intros c. unfold stateOf, st', accept. simpl. rewrite list_lookup_alter.
    destruct (decide (n = c)) as [<-|Hne].
    + rewrite decide_True by done. by rewrite list_lookup_middle.
    + rewrite decide_False by done. rewrite lookup_app.
      destruct (heap st !! c) eqn:E; [done|].
      apply lookup_ge_None in E. by destruct (c - length (heap st))%nat eqn:E'; [lia|].
  - intros c. unfold outbox, st', accept. simpl. rewrite list_lookup_alter.
    destruct (decide (n = c)) as [<-|Hne].
    + rewrite list_lookup_middle by done. simpl.
      by rewrite (lookup_ge_None_2 (heap st) n).
    + rewrite lookup_app. destruct (heap st !! c) eqn:E; [done|].
      apply lookup_ge_None in E. by destruct (c - length (heap st))%nat eqn:E'; [lia|].
  - intros c. unfold closeCallOf, st', accept. simpl. rewrite list_lookup_alter.
    destruct (decide (n = c)) as [<-|Hne].
    + rewrite list_lookup_middle by done. simpl.
      by rewrite (lookup_ge_None_2 (heap st) n).
    + rewrite lookup_app. destruct (heap st !! c) eqn:E; [done|].
      apply lookup_ge_None in E. by destruct (c - length (heap st))%nat eqn:E'; [lia|].
Qed.

Lemma queryOf_lt st c : is_Some (queryOf st c) → (c < length (heap st))%nat.
Proof.
  unfold queryOf. intros [q Hq]. apply lookup_lt_is_Some.
  destruct (heap st !! c); [eauto|done].
Qed.

Lemma closureOf_lt st c r : closureOf st c = Some r → (c < length (heap st))%nat.
Proof.
  unfold closureOf. intros Hq. apply lookup_lt_is_Some.
  destruct (heap st !! c); [eauto|done].
Qed.

Lemma ensure_set_spec u st :
  registry_ok st →
  let st' := ensure_set u st in
  ∃ r, activeConnections st' !! u = Some r
    ∧ (r < length (sets st'))%nat
    ∧ (activeConnections st !! u = Some r
       ∨ activeConnections st !! u = None ∧ r = length (sets st))
    ∧ activeConnections st' = <[u := r]> (activeConnections st)
    ∧ (length (sets st) ≤ length (sets st'))%nat
    ∧ (∀ r', members r' st' = members r' st)
    ∧ heap st' = heap st ∧ clients st' = clients st ∧ Message st' = Message st.
Proof.
  intros Hok. unfold ensure_set. case_bool_decide as Hhas.
  - destruct Hhas as [r Hr]. exists r. split_and!; try done.
    + by apply (reg_bucket _ Hok u).
    + by left.
    + by rewrite insert_id.
  - apply eq_None_not_Some in Hhas. exists (length (sets st)). simpl.
    split_and!; try done.
    + by rewrite lookup_insert_eq.
    + rewrite length_app. simpl. lia.
    + by right.
    + rewrite length_app. lia.
    + intros r'. unfold members. simpl. rewrite lookup_app.
      destruct (sets st !! r') eqn:E; [done|].
      apply lookup_ge_None in E.
      by destruct (r' - length (sets st))%nat as [|[|k]].
Qed.

Lemma on_connection_rejected v g s u st :
  acceptable g s u = false →
  ∃ error reason,
    on_connection v g s u st
    = close (length (heap st)) 1008 reason
        (send (length (heap st)) (ErrorFrame error) (accept st)).
Proof.
  unfold acceptable, on_connection. intros H.
  destruct (truthy g), (truthy s), (truthy u); simpl in *; eauto.
  destruct (isValid (val g)), (isValid (val s)), (isValid (val u));
    simpl in *; eauto; done.
Qed.

Lemma on_connection_admitted v g s u st :
  acceptable g s u = true →
  let n := length (heap st) in
  let q := Query.mk (val g) (val s) (val u) in
  let st0 := on_socket (set_query q) n (accept st) in
  on_connection v g s u st
  = match v with Keyed => register n q st0 | _ => st0 end.
Proof.
  unfold acceptable, on_connection. intros H.
  repeat (apply andb_true_iff in H as [H ?]).
  by repeat match goal with H : _ = true |- _ => rewrite H; clear H end.
Qed.

(** Admission by the keyed draft, in terms of the state before it. *)
Lemma admit_keyed_spec g s u st :
  registry_ok st → acceptable g s u = true →
  let n := length (heap st) in
  let q := Query.mk (val g) (val s) (val u) in
  let st' := on_connection Keyed g s u st in
  ∃ r,
    (activeConnections st !! val u = Some r
     ∨ activeConnections st !! val u = None ∧ r = length (sets st))
    ∧ activeConnections st' = <[val u := r]> (activeConnections st)
    ∧ (length (sets st) ≤ length (sets st'))%nat
    ∧ (r < length (sets st'))%nat
    ∧ clients st' = clients st ++ [n]
    ∧ Message st' = Message st
    ∧ length (heap st') = S n
    ∧ (∀ c, queryOf st' c = if decide (c = n) then Some q else queryOf st c)
    ∧ (∀ c, closureOf st' c = if decide (c = n) then Some r else closureOf st c)
    ∧ (∀ c, is_closed c st' = if decide (c = n) then false else is_closed c st)
    ∧ (∀ c, outbox st' c = outbox st c)
    ∧ (∀ r', r' ≠ r → members r' st' = members r' st)
    ∧ (∀ c, c ∈ members r st' ↔
            c = n ∨ c ∈ members r st
                    ∧ ¬ ∃ cq, queryOf st c = Some cq ∧ Query.gigId cq = val g)
    ∧ (∀ c cq, c ∈ members r st → queryOf st c = Some cq →
         Query.gigId cq = val g →
         stateOf st' c ≠ Some OPEN
         ∧ (stateOf st c = Some OPEN →
            stateOf st' c = Some CLOSING
            ∧ closeCallOf st' c = Some (1008, "Duplicate connection"))).
Proof.
  intros Hok Hacc n q st'. unfold st'.
  rewrite on_connection_admitted by done. fold n q.
  set (st0 := on_socket (set_query q) n (accept st)).
  destruct (admitted_spec q st)
    as ((Hc0 & Hs0 & Ha0 & HM0 & Hl0) & Hq0 & Hk0 & Hz0 & Ho0 & Hcc0).
  fold n st0 in Hc0, Hs0, Ha0, HM0, Hl0, Hq0, Hk0, Hz0, Ho0, Hcc0.
  assert (registry_ok st0) as Hok0.
  { assert (∀ c r, closureOf st c = Some r → queryOf st0 c = queryOf st c) as Hsame.
    { intros c r Hc%closureOf_lt. rewrite Hq0. rewrite decide_False; [done|]. unfold n. lia. }
    assert (∀ r c, c ∈ members r st → queryOf st0 c = queryOf st c) as Hsame'.
    { intros r c Hin. apply (Hsame c r). by apply (reg_member _ Hok). }
    destruct Hok. split; intros *; rewrite ?(members_view st st0) by done;
      rewrite ?Hk0, ?Ha0, ?Hs0.
    - intros Hin. rewrite (Hsame' r c) by done. eauto.
    - eauto.
    - intros Hc. rewrite (Hsame c r) by done. eauto.
    - eauto.
    - intros Hin1 Hin2. rewrite (Hsame' r c1), (Hsame' r c2) by done. eauto. }
  unfold register. simpl.
  destruct (ensure_set_spec (val u) st0 Hok0)
    as (r & Hr & Hlt & Hcase & Ha1 & Hlen1 & Hm1 & Hh1 & Hc1 & HM1).
  rewrite Hr. set (st1 := ensure_set (val u) st0) in *.
  assert (∀ c, queryOf st1 c = queryOf st0 c) as Hq1
    by (intros c; unfold queryOf; by rewrite Hh1).
  assert (∀ c, closureOf st1 c = closureOf st0 c) as Hk1
    by (intros c; unfold closureOf; by rewrite Hh1).
  assert (∀ c, stateOf st1 c = stateOf st0 c) as Hz1
    by (intros c; unfold stateOf; by rewrite Hh1).
  assert (∀ c, outbox st1 c = outbox st0 c) as Ho1
    by (intros c; unfold outbox; by rewrite Hh1).
  assert (n ∉ members r st1) as Hfresh.
  { rewrite Hm1, (members_view st st0) by done.
    intros [Hin%queryOf_lt _]%(reg_member _ Hok). unfold n in Hin. lia. }
  destruct (join_spec n (val g) r st1 Hlt Hfresh)
    as ((Hc2 & Ha2 & HM2 & Hl2 & Hs2) & Hq2 & Hz2 & Ho2 & Hk2 & Hk2' & Hm2 & Hm2' & Hv2).
  set (st2 := join n (val g) r st1) in *.
  assert (∀ c, c ≠ n → (victim n (val g) st1 c ↔
            ∃ cq, queryOf st c = Some cq ∧ Query.gigId cq = val g)) as Hvic.
  { intros c Hne. unfold victim. rewrite Hq1, Hq0, decide_False by done. tauto. }
  assert (∀ c, c ∈ members r st → c ≠ n) as Hold.
  { intros c [Hin%queryOf_lt _]%(reg_member _ Hok). unfold n. lia. }
  exists r. split_and!.
  - by rewrite Ha0 in Hcase.
  - by rewrite Ha2, Ha1, Ha0.
  - rewrite Hs2. by rewrite Hs0 in Hlen1.
  - by rewrite Hs2.
  - by rewrite Hc2, Hc1, Hc0.
  - by rewrite HM2, HM1, HM0.
  - by rewrite Hl2, Hh1.
  - intros c. by rewrite Hq2, Hq1, Hq0.
  - intros c. destruct (decide (c = n)) as [->|Hne].
    + apply Hk2'. rewrite Hh1. lia.
    + by rewrite Hk2, Hk1, Hk0.
  - intros c. rewrite Hz2. unfold is_closed. rewrite Hz1, Hz0.
    by destruct (decide (c = n)).
  - intros c. by rewrite Ho2, Ho1, Ho0.
  - intros r' Hne. by rewrite Hm2, Hm1, (members_view st st0).
  - intros c. rewrite Hm2', Hm1, (members_view st st0) by done.
    split; (intros [?|[Hin ?]]; [by left|right; split; [done|]]);
      [rewrite <- Hvic by eauto|rewrite Hvic by eauto]; done.
  - intros c cq Hin Hc Hg.
    assert (c ≠ n) as Hne by eauto.
    assert (stateOf st1 c = stateOf st c) as <-
      by (by rewrite Hz1, Hz0, decide_False).
    apply Hv2.
    + by rewrite Hm1, (members_view st st0).
    + apply Hvic; eauto.
Qed.

End Admission.

(** ** The invariant of the reachable states *)

Section Invariant.
Context {R : Runtime}.

Lemma registry_ok_ext st st' :
  sets st' = sets st → activeConnections st' = activeConnections st →
  (∀ c, queryOf st' c = queryOf st c) →
  (∀ c, closureOf st' c = closureOf st c) →
  registry_ok st → registry_ok st'.
Proof.
  intros Hs Ha Hq Hk [].
  split; intros *; rewrite ?(members_view st st') by done;
    rewrite ?Hq, ?Hk, ?Ha, ?Hs; eauto.
Qed.

Lemma is_closed_false_lt st c :
  is_closed c st = false → (c < length (heap st))%nat.
Proof.
  unfold is_closed, stateOf. intros H. apply lookup_lt_is_Some.
  destruct (heap st !! c); [eauto|done].
Qed.

Lemma accept_spec st :
  let n := length (heap st) in
  (∀ c, queryOf (accept st) c = queryOf st c)
  ∧ (∀ c, closureOf (accept st) c = closureOf st c)
  ∧ (∀ c, stateOf (accept st) c
          = if decide (c = n) then Some OPEN else stateOf st c)
  ∧ (∀ c, outbox (accept st) c = outbox st c).
Proof.
  intros n.
  assert (∀ c, heap (accept st) !! c
            = if decide (c = n)
              then Some {| readyState := OPEN; query := None;
                           userConnections := None; sent := [];
                           closeCall := None |}
              else heap st !! c) as Hl.
  { intros c. unfold accept. simpl. destruct (decide (c = n)) as [->|Hne].
    - by rewrite list_lookup_middle.
    - rewrite lookup_app. destruct (heap st !! c) eqn:E; [done|].
      apply lookup_ge_None in E. fold n in E.
      by destruct (c - length (heap st))%nat eqn:E'; [lia|]. }
  assert (heap st !! n = None) as Hn by (by apply lookup_ge_None_2).
  split_and!; intros c; unfold queryOf, closureOf, stateOf, outbox;
    rewrite Hl; destruct (decide (c = n)) as [->|]; by rewrite ?Hn.
Qed.

Lemma clients_ok_extend st st' :
  clients_ok st →
  clients st' = clients st ++ [length (heap st)] →
  (∀ c, is_closed c st'
        = if decide (c = length (heap st)) then false else is_closed c st) →
  clients_ok st'.
Proof.
  intros [Hnd Hiff] Hc Hz. split; rewrite Hc.
  - apply NoDup_app. split_and!; [done| |apply NoDup_singleton].
    intros x Hx%Hiff%is_closed_false_lt ->%list_elem_of_singleton. lia.
  - intros c. rewrite elem_of_app, list_elem_of_singleton, Hz, Hiff.
    destruct (decide (c = length (heap st))) as [->|]; [tauto|].
    split; [by intros [?|?]|tauto].
Qed.

Lemma registry_ok_admitted q st :
  registry_ok st →
  registry_ok (on_socket (set_query q) (length (heap st)) (accept st)).
Proof.
  intros Hok.
  destruct (admitted_spec q st)
    as ((Hc0 & Hs0 & Ha0 & HM0 & Hl0) & Hq0 & Hk0 & Hz0 & Ho0 & Hcc0).
  set (st0 := on_socket (set_query q) (length (heap st)) (accept st)) in *.
  assert (∀ c r, closureOf st c = Some r → queryOf st0 c = queryOf st c) as Hsame.
  { intros c r Hc%closureOf_lt. rewrite Hq0. rewrite decide_False; [done|]. lia. }
  assert (∀ r c, c ∈ members r st → queryOf st0 c = queryOf st c) as Hsame'.
  { intros r c Hin. apply (Hsame c r). by apply (reg_member _ Hok). }
  destruct Hok. split; intros *; rewrite ?(members_view st st0) by done;
    rewrite ?Hk0, ?Ha0, ?Hs0.
  - intros Hin. rewrite (Hsame' r c) by done. eauto.
  - eauto.
  - intros Hc. rewrite (Hsame c r) by done. eauto.
  - eauto.
  - intros Hin1 Hin2. rewrite (Hsame' r c1), (Hsame' r c2) by done. eauto.
Qed.

Lemma registry_ok_admit_keyed g s u st :
  registry_ok st → acceptable g s u = true →
  registry_ok (on_connection Keyed g s u st).
Proof.
  intros Hok Hacc.
  destruct (admit_keyed_spec g s u st Hok Hacc)
    as (r & Hcase & Ha & Hlen & Hlt & Hc & HM & Hl & Hq & Hk & Hz & Ho
        & Hm & Hm' & Hv).
  set (n := length (heap st)) in *.
  set (st' := on_connection Keyed g s u st) in *.
  assert (∀ r' c, c ∈ members r' st → c ≠ n) as Hold.
  { intros r' c [Hin%queryOf_lt _]%(reg_member _ Hok). unfold n. lia. }
  assert (∀ r' c, c ∈ members r' st' → c = n ∧ r' = r ∨ c ∈ members r' st) as Hsub.
  { intros r' c Hin. destruct (decide (r' = r)) as [->|Hne].
    - apply Hm' in Hin as [->|[? _]]; auto.
    - rewrite Hm in Hin by done. auto. }
  assert (∀ u' r', activeConnections st !! u' = Some r' → r' = r → u' = val u)
    as Hown.
  { intros u' r' Hu' ->. destruct Hcase as [Hu|[_ ->]].
    - destruct (reg_bucket _ Hok _ _ Hu) as [_ Hne].
      destruct (members r st) as [|c0 l] eqn:E; [done|].
      assert (c0 ∈ members r st) as Hin by (rewrite E; set_solver).
      destruct (reg_member _ Hok _ _ Hin) as [[q0 Hq0] Hk0].
      rewrite <- (reg_owner _ Hok c0 r q0 u' Hk0 Hq0 Hu').
      by rewrite <- (reg_owner _ Hok c0 r q0 (val u) Hk0 Hq0 Hu).
    - apply (reg_bucket _ Hok) in Hu' as [? _]. lia. }
  split.
  - intros r' c [[-> ->]|Hin]%Hsub.
    + rewrite Hq, Hk, !decide_True by done. eauto.
    + rewrite Hq, Hk, !decide_False by eauto. by apply (reg_member _ Hok).
  - intros c r'. rewrite Hk. case_decide; [by intros [= <-]|].
    intros Hk'. apply (reg_closure _ Hok) in Hk'. lia.
  - intros c r' q' u'. rewrite Hk, Hq, Ha. case_decide as Hc'.
    + intros [= <-] [= <-]. simpl.
      destruct (decide (u' = val u)) as [->|Hne]; [done|].
      rewrite lookup_insert_ne by done. intros Hu'. symmetry. by eapply Hown.
    + intros Hk' Hq'. destruct (decide (u' = val u)) as [->|Hne].
      * rewrite lookup_insert_eq. intros [= <-].
        destruct Hcase as [Hu|[_ ->]]; [by eapply (reg_owner _ Hok)|].
        apply (reg_closure _ Hok) in Hk'. lia.
      * rewrite lookup_insert_ne by done. by eapply (reg_owner _ Hok).
  - intros u' r'. rewrite Ha. destruct (decide (u' = val u)) as [->|Hne].
    + rewrite lookup_insert_eq. intros [= <-]. split; [done|].
      assert (n ∈ members r st') as Hin by (apply Hm'; by left).
      intros E. rewrite E in Hin. set_solver.
    + rewrite lookup_insert_ne by done. intros Hu'.
      destruct (reg_bucket _ Hok _ _ Hu') as [? ?]. split; [lia|].
      rewrite Hm; [done|]. intros ->. apply Hne. by eapply Hown.
  - intros r' c1 c2 q1 q2 Hin1 Hin2. rewrite !Hq.
    destruct (decide (r' = r)) as [->|Hne].
    + apply Hm' in Hin1 as [->|[Hin1 Hn1]], Hin2 as [->|[Hin2 Hn2]]; [done|..].
      * rewrite decide_True, decide_False by eauto. intros [= <-] Hq2 Hg.
        exfalso. apply Hn2. exists q2. simpl in Hg. eauto.
      * rewrite decide_False, decide_True by eauto. intros Hq1 [= <-] Hg.
        exfalso. apply Hn1. exists q1. simpl in Hg. eauto.
      * rewrite !decide_False by eauto. by apply (reg_gig _ Hok r).
    + rewrite Hm in Hin1, Hin2 by done.
      rewrite !decide_False by eauto. by apply (reg_gig _ Hok r').
Qed.

Lemma is_closed_stateOf st st' c :
  stateOf st' c = stateOf st c → is_closed c st' = is_closed c st.
Proof. unfold is_closed. by intros ->. Qed.

Lemma invariant_on_connection v g s u st :
  invariant st → invariant (on_connection v g s u st).
Proof.
  intros (Hcl & Hst & Hreg).
  destruct (acceptable g s u) eqn:Hacc.
  - destruct (admitted_spec (Query.mk (val g) (val s) (val u)) st)
      as ((Hc0 & Hs0 & Ha0 & HM0 & Hl0) & Hq0 & Hk0 & Hz0 & Ho0 & Hcc0).
    destruct (decide (v = Keyed)) as [->|Hv].
    + destruct (admit_keyed_spec g s u st Hreg Hacc)
        as (r & _ & _ & _ & _ & Hc & HM & _ & _ & _ & Hz & _).
      split_and!.
      * by apply (clients_ok_extend st).
      * unfold store_ok. by rewrite HM.
      * by apply registry_ok_admit_keyed.
    + assert (on_connection v g s u st
              = on_socket (set_query (Query.mk (val g) (val s) (val u)))
                  (length (heap st)) (accept st)) as ->.
      { rewrite on_connection_admitted by done. by destruct v. }
      split_and!.
      * apply (clients_ok_extend st); [done..|].
        intros c. unfold is_closed. rewrite Hz0. by case_decide.
      * unfold store_ok. by rewrite HM0.
      * by apply registry_ok_admitted.
  - destruct (on_connection_rejected v g s u st Hacc) as (e & reason & ->).
    destruct (accept_spec st) as (Hq & Hk & Hz & Ho).
    set (n := length (heap st)) in *.
    pose proof (same_view_trans _ _ _
      (same_skeleton_view _ _ (same_skeleton_send n (ErrorFrame e) (accept st)))
      (same_view_close n 1008 reason _)) as [].
    split_and!.
    + apply (clients_ok_extend st); [done..|].
      intros c. rewrite vw_closed0. unfold is_closed. rewrite Hz.
      subst n. by case_decide.
    + done.
    + apply (registry_ok_ext st); [done|done|..].
      * intros c. by rewrite vw_query0.
      * intros c. by rewrite vw_closure0.
      * done.
Qed.

Lemma invariant_on_message v ws data now st :
  invariant st → invariant (on_message v ws data now st).
Proof.
  intros (Hcl & Hst & Hreg).
  destruct (on_message_skeleton v ws data now st Hst) as [Hsk%same_skeleton_view ?].
  split_and!; [by eapply clients_ok_view|done|by eapply registry_ok_view].
Qed.

Lemma transport_closed_spec ws st :
  (ws < length (heap st))%nat →
  let st' := transport_closed ws st in
  clients st' = Set_delete ws (clients st)
  ∧ (∀ c, queryOf st' c = queryOf st c)
  ∧ (∀ c, closureOf st' c = closureOf st c)
  ∧ (∀ c, stateOf st' c = if decide (c = ws) then Some CLOSED else stateOf st c)
  ∧ (∀ c, outbox st' c = outbox st c).
Proof.
  intros [w Hw]%lookup_lt_is_Some. split_and!; [done|..]; intros c.
  - apply (queryOf_on_socket (set_readyState CLOSED) ws st c). done.
  - apply (closureOf_on_socket (set_readyState CLOSED) ws st c). done.
  - unfold stateOf, transport_closed. simpl. rewrite list_lookup_alter.
    destruct (decide (ws = c)) as [->|];
      [rewrite decide_True by done|rewrite decide_False by done]; [|done].
    by rewrite Hw.
  - unfold outbox, transport_closed. simpl. rewrite list_lookup_alter.
    case_decide; subst; [|done]. by rewrite Hw.
Qed.

(** The ["close"] listener of the keyed draft, on the set it closed over. *)
Lemma on_close_keyed ws r q st :
  closureOf st ws = Some r → queryOf st ws = Some q →
  let st1 := with_sets (alter (Set_delete ws) r (sets st)) st in
  on_close Keyed ws st
  = if bool_decide (members r st1 = [])
    then with_activeConnections
           (delete (Query.userId q) (activeConnections st)) st1
    else st1.
Proof.
  intros Hk Hq. unfold on_close. rewrite Hk, Hq. simpl.
  destruct (members r _) eqn:E; cbn [length Nat.eqb].
  - by rewrite bool_decide_true.
  - by rewrite bool_decide_false.
Qed.

Lemma registry_ok_on_close v ws st :
  registry_ok st → registry_ok (on_close v ws st).
Proof.
  intros Hok.
  destruct (decide (v = Keyed)) as [->|Hv]; [|by destruct v].
  destruct (closureOf st ws) as [r|] eqn:Hk;
    [|by unfold on_close; rewrite Hk].
  destruct (queryOf st ws) as [q|] eqn:Hq;
    [|by unfold on_close; rewrite Hk, Hq].
  rewrite (on_close_keyed ws r q) by done.
  set (st1 := with_sets (alter (Set_delete ws) r (sets st)) st).
  assert (∀ r' c, c ∈ members r' st1 → c ∈ members r' st) as Hsub.
  { intros r' c. unfold st1. rewrite members_alter by done.
    fold (members r' st). case_decide; [|done].
    by intros [? _]%elem_of_Set_delete. }
  assert (∀ r', r' ≠ r → members r' st1 = members r' st) as Hne.
  { intros r' ?. unfold st1. rewrite members_alter by done.
    by rewrite decide_False. }
  assert (length (sets st1) = length (sets st)) as Hlen
    by apply length_alter.
  assert (∀ u', activeConnections st !! u' = Some r → u' = Query.userId q)
    as Hown.
  { intros u' Hu'. symmetry. by eapply (reg_owner _ Hok). }
  assert (∀ c, queryOf st1 c = queryOf st c) as Hq1 by done.
  assert (∀ c, closureOf st1 c = closureOf st c) as Hk1 by done.
  assert (activeConnections st1 = activeConnections st) as Ha1 by done.
  case_bool_decide as Hnil.
  - set (st2 := with_activeConnections _ st1).
    assert (∀ r', members r' st2 = members r' st1) as Hm2 by done.
    assert (∀ c, queryOf st2 c = queryOf st c) as Hq2 by done.
    assert (∀ c, closureOf st2 c = closureOf st c) as Hk2 by done.
    assert (activeConnections st2
            = delete (Query.userId q) (activeConnections st)) as Ha2 by done.
    assert (length (sets st2) = length (sets st)) as Hl2 by exact Hlen.
    clearbody st2 st1.
    split; intros *; rewrite ?Hm2, ?Hq2, ?Hk2, ?Ha2, ?Hl2.
    + intros Hin%Hsub. by apply (reg_member _ Hok).
    + apply (reg_closure _ Hok).
    + intros Hk' Hq' [_ Hu']%lookup_delete_Some.
      by eapply (reg_owner _ Hok).
    + intros [Hu Hu']%lookup_delete_Some.
      destruct (reg_bucket _ Hok _ _ Hu') as [? ?].
      split; [done|]. rewrite Hne; [done|].
      intros ->. apply Hu. symmetry. by apply Hown.
    + intros Hin1%Hsub Hin2%Hsub. by apply (reg_gig _ Hok r0).
  - clearbody st1.
    split; intros *; rewrite ?Hq1, ?Hk1, ?Ha1, ?Hlen.
    + intros Hin%Hsub. by apply (reg_member _ Hok).
    + apply (reg_closure _ Hok).
    + apply (reg_owner _ Hok).
    + intros Hu'.
      destruct (reg_bucket _ Hok _ _ Hu') as [? ?].
      split; [done|].
      destruct (decide (r0 = r)) as [->|]; [done|]. by rewrite Hne.
    + intros Hin1%Hsub Hin2%Hsub. by apply (reg_gig _ Hok r0).
Qed.

Lemma on_close_frame v ws st :
  let st' := on_close v ws st in
  heap st' = heap st ∧ clients st' = clients st ∧ Message st' = Message st.
Proof.
  unfold on_close.
  destruct v, (closureOf st ws), (queryOf st ws); simpl; try done.
  by destruct (_ =? _)%nat.
Qed.

Lemma invariant_closed v ws st :
  invariant st → is_closed ws st = false →
  invariant (on_close v ws (transport_closed ws st)).
Proof.
  intros (Hcl & Hst & Hreg) Hopen.
  pose proof (is_closed_false_lt _ _ Hopen) as Hlt.
  destruct (transport_closed_spec ws st Hlt) as (Hc & Hq & Hk & Hz & Ho).
  destruct (on_close_frame v ws (transport_closed ws st)) as (Hh' & Hc' & HM').
  split_and!.
  - destruct Hcl as [Hnd Hiff]. split; rewrite Hc', Hc.
    + by apply NoDup_filter.
    + intros c. rewrite elem_of_Set_delete, Hiff.
      unfold is_closed at 2. unfold stateOf. rewrite Hh'.
      fold (stateOf (transport_closed ws st) c). rewrite Hz.
      destruct (decide (c = ws)) as [->|]; [|by unfold is_closed; tauto].
      rewrite bool_decide_true by done. split; [tauto|done].
  - unfold store_ok. by rewrite HM'.
  - apply registry_ok_on_close. by apply (registry_ok_ext st).
Qed.

Lemma invariant_step v st ev : invariant st → invariant (step v st ev).
Proof.
  intros Hinv. destruct ev as [g s u|ws data now|ws|ws]; simpl.
  - by apply invariant_on_connection.
  - destruct (is_closed ws st); [done|]. by apply invariant_on_message.
  - destruct Hinv as (Hcl & Hst & Hreg).
    pose proof (same_view_peer_closing ws st) as Hv.
    split_and!; [by eapply clients_ok_view|done|by eapply registry_ok_view].
  - destruct (is_closed ws st) eqn:E; [done|]. by apply invariant_closed.
Qed.

Lemma invariant_initial : invariant initial.
Proof.
  split_and!.
  - split; [apply NoDup_nil_2|]. intros c. split; [by intros ?%elem_of_nil|done].
  - by intros i d.
  - split; unfold members; simpl; intros *; rewrite ?lookup_nil; simpl;
      try done; by intros ?%elem_of_nil.
Qed.

Lemma invariant_fold v events st :
  invariant st → invariant (fold_left (step v) events st).
Proof.
  revert st. induction events as [|ev events IH]; intros st Hinv; simpl; [done|].
  by apply IH, invariant_step.
Qed.

(** Every state the server reaches satisfies the invariant. *)
Lemma invariant_run v events : invariant (run v events).
Proof. apply invariant_fold, invariant_initial. Qed.

End Invariant.

(** ** What a message does to the outboxes *)

Section Effect.
Context {R : Runtime}.

Lemma run_snoc v events ev :
  run v (events ++ [ev]) = step v (run v events) ev.
Proof. unfold run. by rewrite fold_left_app. Qed.

Lemma run_app v events later :
  run v (events ++ later) = fold_left (step v) later (run v events).
Proof. unfold run. by rewrite fold_left_app. Qed.

Lemma matching_audience q st c : c ∈ matching q st ↔ in_audience q st c.
Proof.
  unfold matching, in_audience. rewrite list_elem_of_filter, passes_iff. tauto.
Qed.

(** An accepted message is appended to the collection and written once to
    each socket of the audience of the sending connection. *)
Lemma accepted_effect v ws q m now mid saved st1 st :
  invariant st → create v m now mid st = Some (saved, st1) →
  let st' := deliver ws q saved st1 in
  Message st' = Message st ++ [saved]
  ∧ same_skeleton st st'
  ∧ broadcast_to q (frame_of saved) st st'.
Proof.
  intros (Hcl & Hst & Hreg) Hc. simpl.
  rewrite (deliver_created _ _ _ _ _ _ _ _ _ Hst Hc).
  fold (frame_of saved).
  destruct (broadcast_frame q (frame_of saved) st1) as [Hsk HM].
  apply create_Some in Hc as (g & u & r & t & _ & _ & _ & _ & _ & ->).
  split_and!.
  - by rewrite HM.
  - eapply same_skeleton_trans; [apply same_skeleton_with_Message|done].
  - intros c. rewrite broadcast_outbox by apply Hcl. split; intros Hin.
    + rewrite decide_True; [done|]. by apply matching_audience.
    + rewrite decide_False; [done|]. by intros ?%matching_audience.
Qed.

(** A run of the listener either stores nothing and writes at most an
    error to the sender, or stores one document and broadcasts it. *)
Lemma on_message_effect v ws data now st :
  invariant st →
  let st' := on_message v ws data now st in
  same_skeleton st st'
  ∧ (Message st' = Message st
     ∧ (∀ c, c ≠ ws → outbox st' c = outbox st c)
     ∧ (outbox st' ws = outbox st ws
        ∨ ∃ error, outbox st' ws = outbox st ws ++ [ErrorFrame error])
     ∨ ∃ q m saved st1,
         queryOf st ws = Some q ∧ data = Some m
         ∧ well_formed m = true ∧ novel v m now st
         ∧ create v m now (dedup_key v m now) st = Some (saved, st1)
         ∧ Message st' = Message st ++ [saved]
         ∧ broadcast_to q (frame_of saved) st st').
Proof.
  intros Hinv. simpl.
  destruct (on_message_outcome v ws data now st)
    as [|e|q m saved st1 Hq Hd Hwf Hnov Hc].
  - split; [apply same_skeleton_refl|]. left. auto.
  - split; [apply same_skeleton_send|]. left. split_and!; [done| |].
    + intros c Hne. rewrite outbox_send. rewrite decide_False; [done|].
      by intros [-> _].
    + rewrite outbox_send. case_decide; eauto.
  - destruct (accepted_effect v ws q m now _ saved st1 st Hinv Hc)
      as (HM & Hsk & Ho).
    split; [done|]. right. by exists q, m, saved, st1.
Qed.

Lemma stateOf_open_not_closed st c :
  stateOf st c = Some OPEN → is_closed c st = false.
Proof. unfold is_closed. by intros ->. Qed.

Lemma snoc_neq {A} (l : list A) (x : A) : l ≠ l ++ [x].
Proof.
  intros H%(f_equal length). rewrite length_app in H. simpl in H. lia.
Qed.

End Effect.

(** ** The properties of the specification *)

Section Claims.
Context {R : Runtime}.

Lemma open_is_client st c :
  clients_ok st → stateOf st c = Some OPEN → c ∈ clients st.
Proof. intros [_ Hiff] Hopen. by apply Hiff, stateOf_open_not_closed. Qed.

(** The state after one more message on a socket that is not closed. *)
Lemma run_incoming v events ws data now :
  is_closed ws (run v events) = false →
  run v (events ++ [Incoming ws data now])
  = on_message v ws data now (run v events).
Proof. intros H. rewrite run_snoc. simpl. by rewrite H. Qed.

(** A message that was stored came in on an admitted connection, passed
    [Message.create], and was broadcast to the audience of that connection. *)
Lemma stored_inversion v events ws data now saved :
  let st := run v events in
  let st' := run v (events ++ [Incoming ws data now]) in
  Message st' = Message st ++ [saved] →
  ∃ q m st1,
    queryOf st ws = Some q ∧ data = Some m
    ∧ well_formed m = true ∧ novel v m now st
    ∧ create v m now (dedup_key v m now) st = Some (saved, st1)
    ∧ broadcast_to q (frame_of saved) st st'
    ∧ same_skeleton st st'
    ∧ is_closed ws st = false.
Proof.
  intros st st' HM. unfold st' in *. rewrite run_snoc in *. simpl in *.
  destruct (is_closed ws (run v events)) eqn:Hcl.
  { by apply snoc_neq in HM. }
  destruct (on_message_effect v ws data now st (invariant_run v events))
    as [Hsk [(HM' & _)|(q & m & saved' & st1 & Hq & Hd & Hwf & Hnov & Hc & HM' & Hb)]].
  - fold st in HM. rewrite HM' in HM. by apply snoc_neq in HM.
  - fold st in HM. rewrite HM' in HM. apply app_inj_tail in HM as [_ ->].
    by exists q, m, st1.
Qed.

(** C1, as amended. After any history, when the open connection [a]
    sends a message that is accepted (a document is stored), the
    serialized enriched document is written to [a] and to every open
    connection [b] that is a party of the conversation as [a] was admitted
    to it (same gig, and the user of [b] is the user of [a] or the seller
    that [a] named), and nothing is written to a connection admitted with
    another gigId.  The parameters of [b] other than its gig and its user
    play no part. *)
Theorem message_reaches_both_parties v events a b qa qb m now saved :
  let st := run v events in
  let st' := run v (events ++ [Incoming a (Some m) now]) in
  queryOf st a = Some qa → queryOf st b = Some qb →
  stateOf st a = Some OPEN → stateOf st b = Some OPEN →
  parties qa qb →
  Message st' = Message st ++ [saved] →
  outbox st' a = outbox st a ++ [frame_of saved]
  ∧ outbox st' b = outbox st b ++ [frame_of saved]
  ∧ ∀ c qc, queryOf st c = Some qc → Query.gigId qc ≠ Query.gigId qa →
      outbox st' c = outbox st c.
Proof.
  intros st st' Ha Hb Hoa Hob (Hg & Hu) HM.
  destruct (stored_inversion v events a (Some m) now saved HM)
    as (q & _ & _ & Hq & _ & _ & _ & _ & Hbc & _).
  fold st in Hq. assert (q = qa) as -> by congruence.
  destruct (invariant_run v events) as (Hcl & _ & _). fold st in Hcl.
  split_and!.
  - apply Hbc. split_and!; [by apply open_is_client|done|].
    exists qa. auto.
  - apply Hbc. split_and!; [by apply open_is_client|done|].
    exists qb. split_and!; [done..|]. destruct Hu; auto.
  - intros c qc Hc Hne. apply Hbc. intros (_ & _ & cq & Hc' & Hg' & _).
    fold st in Hc'. congruence.
Qed.

(** C9. The audience of an accepted message is decided by the query
    parameters stored at admission alone: whatever [gigId] and
    [recipientId] the message carries, the document is stored under the
    gigId of the message and written to exactly the open clients admitted
    for the gig of the sending connection whose user is its seller or
    its user. *)
Theorem audience_from_admission_only v events ws q m now saved :
  let st := run v events in
  let st' := run v (events ++ [Incoming ws (Some m) now]) in
  queryOf st ws = Some q →
  Message st' = Message st ++ [saved] →
  createFromHexString (val (Inbound.gigId m)) = Some (Stored.gigId saved)
  ∧ ∀ c,
      (c ∈ clients st ∧ stateOf st c = Some OPEN
       ∧ (∃ cq, queryOf st c = Some cq
            ∧ Query.gigId cq = Query.gigId q
            ∧ (Query.userId cq = Query.sellerId q
               ∨ Query.userId cq = Query.userId q)) →
       outbox st' c = outbox st c ++ [frame_of saved])
      ∧ (¬ (c ∈ clients st ∧ stateOf st c = Some OPEN
            ∧ (∃ cq, queryOf st c = Some cq
                 ∧ Query.gigId cq = Query.gigId q
                 ∧ (Query.userId cq = Query.sellerId q
                    ∨ Query.userId cq = Query.userId q))) →
         outbox st' c = outbox st c).
Proof.
  intros st st' Hq HM.
  destruct (stored_inversion v events ws (Some m) now saved HM)
    as (q' & m' & st1 & Hq' & [= <-] & _ & _ & Hc & Hbc & _).
  fold st in Hq'. assert (q' = q) as -> by congruence.
  split; [|exact Hbc].
  apply create_Some in Hc as (g & u & r & t & Hg & _ & _ & _ & -> & _).
  done.
Qed.

Lemma heap_rejected reason error st :
  heap (close (length (heap st)) 1008 reason
          (send (length (heap st)) (ErrorFrame error) (accept st)))
    !! length (heap st)
  = Some {| readyState := CLOSING; query := None; userConnections := None;
            sent := [ErrorFrame error]; closeCall := Some (1008, reason) |}.
Proof.
  unfold close, send, on_socket, accept. simpl.
  by rewrite !list_lookup_alter_eq, list_lookup_middle.
Qed.

(** C4. A connection whose [gigId], [sellerId] or [userId] is missing or
    fails the identifier validation is sent one JSON error payload, is
    closed with code 1008, and leaves the registry as it was: no set and
    no entry of the map changes, and the connection is in no set. *)
Theorem invalid_connection_is_turned_away v events gigId sellerId userId :
  let st := run v events in
  let st' := run v (events ++ [Connection gigId sellerId userId]) in
  let ws := length (heap st) in
  acceptable gigId sellerId userId = false →
  (∃ error, outbox st' ws = [ErrorFrame error])
  ∧ (∃ reason, closeCallOf st' ws = Some (1008, reason))
  ∧ stateOf st' ws = Some CLOSING
  ∧ queryOf st' ws = None
  ∧ sets st' = sets st
  ∧ activeConnections st' = activeConnections st
  ∧ ¬ registered st' ws.
Proof.
  intros st st' ws Hacc. unfold st'. rewrite run_snoc. simpl. fold st.
  destruct (on_connection_rejected v gigId sellerId userId st Hacc)
    as (error & reason & ->).
  pose proof (heap_rejected reason error st) as Hh. subst ws.
  unfold outbox, closeCallOf, stateOf, queryOf. rewrite Hh. simpl.
  split_and!; eauto.
  intros (u & r & _ & Hin).
  destruct (invariant_run v events) as (_ & _ & Hreg). fold st in Hreg.
  assert (length (heap st) ∈ members r st) as Hin' by done.
  apply (reg_member _ Hreg) in Hin' as [Hq%queryOf_lt _]. lia.
Qed.

Lemma rejected_effect ws error st :
  stateOf st ws = Some OPEN →
  let st' := send ws (ErrorFrame error) st in
  outbox st' ws = outbox st ws ++ [ErrorFrame error]
  ∧ (∀ c, c ≠ ws → outbox st' c = outbox st c)
  ∧ Message st' = Message st
  ∧ same_skeleton st st'.
Proof.
  intros Hopen. split_and!.
  - rewrite outbox_send. by rewrite decide_True.
  - intros c Hne. rewrite outbox_send. rewrite decide_False; [done|].
    by intros [-> _].
  - done.
  - apply same_skeleton_send.
Qed.

(** C6. A message without a [text] on an admitted, open connection is
    answered with the "Invalid message format" error on that connection;
    no document is stored, nothing is written to any other connection,
    and no connection changes state: the sender stays open and the
    registry and [wss.clients] are as before. *)
Theorem missing_text_is_rejected v events ws q m now :
  let st := run v events in
  let st' := run v (events ++ [Incoming ws (Some m) now]) in
  queryOf st ws = Some q → stateOf st ws = Some OPEN →
  Inbound.text m = None →
  outbox st' ws = outbox st ws ++ [ErrorFrame (format_error v)]
  ∧ Message st' = Message st
  ∧ (∀ c, c ≠ ws → outbox st' c = outbox st c)
  ∧ (∀ c, stateOf st' c = stateOf st c)
  ∧ clients st' = clients st
  ∧ sets st' = sets st
  ∧ activeConnections st' = activeConnections st.
Proof.
  intros st st' Hq Hopen Htext. unfold st'.
  rewrite run_incoming by (by apply stateOf_open_not_closed). fold st.
  unfold on_message. rewrite Hq. simpl. unfold handle. rewrite Htext. simpl.
  rewrite orb_true_r.
  destruct (rejected_effect ws (format_error v) st Hopen)
    as (Ho & Hothers & HM & []).
  by split_and!.
Qed.

(** C7. A message whose [gigId] fails the identifier validation, on an
    admitted, open connection, is answered with an error payload on that
    connection and no document is stored, whatever its [text] and
    [senderId] are. *)
Theorem invalid_gigId_is_rejected v events ws q m now :
  let st := run v events in
  let st' := run v (events ++ [Incoming ws (Some m) now]) in
  queryOf st ws = Some q → stateOf st ws = Some OPEN →
  isValid (val (Inbound.gigId m)) = false →
  (∃ error, outbox st' ws = outbox st ws ++ [ErrorFrame error])
  ∧ Message st' = Message st
  ∧ (∀ c, c ≠ ws → outbox st' c = outbox st c).
Proof.
  intros st st' Hq Hopen Hinvalid. unfold st'.
  rewrite run_incoming by (by apply stateOf_open_not_closed). fold st.
  unfold on_message. rewrite Hq. simpl. unfold handle. rewrite Hinvalid. simpl.
  destruct (_ || _ || _).
  - destruct (rejected_effect ws (format_error v) st Hopen)
      as (Ho & Hothers & HM & _). eauto.
  - destruct (rejected_effect ws "Invalid message IDs" st Hopen)
      as (Ho & Hothers & HM & _). eauto.
Qed.

(** C8, as amended. The timestamp of the stored document is the
    timestamp of the message when that is present and not 0.  In the ESM
    and keyed drafts it is the server's [Date.now()] when the timestamp is
    absent or 0; the windowed draft stores a document only for a message
    that has a timestamp, and stores that timestamp (0 included). *)
Theorem stored_timestamp v events ws m now saved :
  let st := run v events in
  let st' := run v (events ++ [Incoming ws (Some m) now]) in
  Message st' = Message st ++ [saved] →
  (∀ t, Inbound.timestamp m = Some t → t ≠ 0 → Stored.timestamp saved = t)
  ∧ (v ≠ Windowed →
     Inbound.timestamp m = None ∨ Inbound.timestamp m = Some 0 →
     Stored.timestamp saved = now)
  ∧ (v = Windowed → Inbound.timestamp m = Some (Stored.timestamp saved)).
Proof.
  intros st st' HM.
  destruct (stored_inversion v events ws (Some m) now saved HM)
    as (q & m' & st1 & _ & [= <-] & _ & _ & Hc & _).
  apply create_Some in Hc as (g & u & r & t & _ & _ & _ & Ht & -> & _).
  simpl.
  assert (∀ x y, new_Date x = Some y → y = x) as Hdate.
  { intros x y. unfold new_Date. case_bool_decide; congruence. }
  unfold timestamp_arg, timestamp_or_now in Ht.
  split_and!.
  - intros t' Ht' Hne. rewrite Ht' in Ht. simpl in Ht.
    rewrite bool_decide_false in Ht by done.
    destruct v; simpl in Ht; by apply Hdate in Ht.
  - intros Hv [Ht'| Ht']; rewrite Ht' in Ht; destruct v; simpl in Ht;
      try done; by apply Hdate in Ht.
  - intros ->. destruct (Inbound.timestamp m) as [t'|]; simpl in Ht; [|done].
    by apply Hdate in Ht as ->.
Qed.

Lemma find_is_Some {A} (P : A → bool) (l : list A) (x : A) :
  x ∈ l → P x = true → is_Some (List.find P l).
Proof.
  intros Hin Hx. induction l as [|d l IH]; [by apply elem_of_nil in Hin|].
  simpl. destruct (P d) eqn:E; [eauto|].
  apply elem_of_cons in Hin as [->|Hin]; [congruence|auto].
Qed.

Lemma find_None {A} (P : A → bool) (l : list A) :
  List.find P l = None ↔ ∀ x, x ∈ l → P x = false.
Proof.
  induction l as [|d l IH]; simpl.
  - split; [|done]. by intros _ x ?%elem_of_nil.
  - destruct (P d) eqn:E.
    + split; [done|]. intros H. rewrite H in E; [done|set_solver].
    + rewrite IH. split.
      * intros H x [->|?]%elem_of_cons; auto.
      * intros H x ?. apply H. set_solver.
Qed.

(** A message that was not stored wrote at most an error to its sender. *)
Lemma unanswered_or_error ws st st' :
  (st' = st ∨ ∃ error, st' = send ws (ErrorFrame error) st) →
  Message st' = Message st
  ∧ (∀ c, c ≠ ws → outbox st' c = outbox st c)
  ∧ (outbox st' ws = outbox st ws
     ∨ ∃ error, outbox st' ws = outbox st ws ++ [ErrorFrame error]).
Proof.
  intros [->|[e ->]]; [auto|]. split_and!; [done| |].
  - intros c Hne. rewrite outbox_send. rewrite decide_False; [done|].
    by intros [-> _].
  - rewrite outbox_send. case_decide; eauto.
Qed.

Lemma new_Date_Some t t' : new_Date t = Some t' ↔ t' = t ∧ Z.abs t ≤ maxTime.
Proof. unfold new_Date. case_bool_decide; naive_solver. Qed.

(** The filter of the windowed draft, in terms of what it compares. *)
Lemma windowed_filter_Some m filter :
  windowed_filter m = Some filter →
  ∃ gigId userId t,
    castObjectId (val (Inbound.gigId m)) = Some gigId
    ∧ castObjectId (val (Inbound.senderId m)) = Some userId
    ∧ Inbound.timestamp m = Some t ∧ Z.abs (t - 5000) ≤ maxTime
    ∧ filter = λ d,
        bool_decide (Stored.gigId d = gigId)
        && bool_decide (Stored.userId d = userId)
        && bool_decide (Stored.text d = val (Inbound.text m))
        && bool_decide (t - 5000 ≤ Stored.timestamp d).
Proof.
  unfold windowed_filter. intros H.
  destruct (castObjectId (val (Inbound.gigId m))) as [g|]; [|done].
  destruct (castObjectId (val (Inbound.senderId m))) as [u|]; [|done].
  destruct (Inbound.timestamp m) as [t|]; [|done]. simpl in H.
  destruct (new_Date (t - 5000)) as [since|] eqn:E; [|done].
  apply new_Date_Some in E as [-> ?]. simpl in H. simplify_eq.
  by exists g, u, t.
Qed.

(** C3, as amended. In the windowed draft, let a message of an admitted,
    open connection be stored, and let a second message with the same
    gigId, senderId, text and recipientId be the next thing the server
    handles, on the same connection; the cast of the filter is taken to
    agree with [createFromHexString].  When the
    second timestamp is at most 5000 ms later than the first (in
    particular when the two are within 5000 ms of each other) the second
    message is refused: no document is stored, nothing is written to any
    other connection and the sender gets one error, "Duplicate message
    detected" unless the look-back date itself is invalid.  When the
    second timestamp is more than 5000 ms later than the first (and a
    valid date) the second message is stored with its timestamp and
    broadcast like the first. *)
Theorem windowed_duplicates
    events ws q m1 m2 now1 now2 t1 t2 saved :
  let st := run Windowed events in
  let first := events ++ [Incoming ws (Some m1) now1] in
  let st1 := run Windowed first in
  let st2 := run Windowed (first ++ [Incoming ws (Some m2) now2]) in
  cast_agrees →
  queryOf st ws = Some q → stateOf st ws = Some OPEN →
  Inbound.gigId m2 = Inbound.gigId m1 →
  Inbound.senderId m2 = Inbound.senderId m1 →
  Inbound.text m2 = Inbound.text m1 →
  Inbound.recipientId m2 = Inbound.recipientId m1 →
  Inbound.timestamp m1 = Some t1 → Inbound.timestamp m2 = Some t2 →
  Message st1 = Message st ++ [saved] →
  broadcast_to q (frame_of saved) st st1
  ∧ (t2 ≤ t1 + 5000 →
     Message st2 = Message st1
     ∧ (∀ c, c ≠ ws → outbox st2 c = outbox st1 c)
     ∧ ∃ error, outbox st2 ws = outbox st1 ws ++ [ErrorFrame error]
         ∧ (- maxTime ≤ t2 - 5000 → error = "Duplicate message detected"))
  ∧ (t1 + 5000 < t2 → t2 ≤ maxTime →
     ∃ saved2, Message st2 = Message st1 ++ [saved2]
       ∧ Stored.timestamp saved2 = t2
       ∧ broadcast_to q (frame_of saved2) st1 st2).
Proof.
  intros st first st1 st2 Hcast Hq Hopen Hg Hs Htx Hr Ht1 Ht2 HM.
  destruct (stored_inversion Windowed events ws (Some m1) now1 saved HM)
    as (q' & m & st1' & Hq' & [= <-] & Hwf & Hnov & Hc & Hbc & Hsk & _).
  fold st st1 in Hq', Hsk, Hc, Hnov, Hbc.
  assert (q' = q) as -> by congruence.
  assert (stateOf st1 ws = Some OPEN) as Hopen1
    by (by rewrite (sk_state _ _ Hsk)).
  assert (queryOf st1 ws = Some q) as Hq1 by (by rewrite (sk_query _ _ Hsk)).
  assert (well_formed m2 = true) as Hwf2.
  { unfold well_formed in *. by rewrite Hg, Hs, Htx, Hr. }
  destruct Hnov as (f1 & Hf1 & Hnone1).
  destruct (windowed_filter_Some m1 f1 Hf1)
    as (g & u & t & Hcg & Hcu & Htm1 & Hsince1 & ->).
  assert (t = t1) as -> by congruence.
  pose proof Hc as (g' & u' & r & ts & Hg' & Hu' & Hr' & Hts & Hsaved & _)%create_Some.
  apply Hcast in Hg', Hu'.
  assert (g' = g) as -> by congruence. assert (u' = u) as -> by congruence.
  simpl in Hts. rewrite Ht1 in Hts. simpl in Hts.
  apply new_Date_Some in Hts as [-> Hvalid1].
  assert (st2 = on_message Windowed ws (Some m2) now2 st1) as Est2.
  { unfold st2. apply run_incoming. by apply stateOf_open_not_closed. }
  assert (invariant st1) as Hinv1 by apply invariant_run.
  split; [done|]. split.
  - (* refused *)
    intros Hle.
    assert (∃ error, st2 = send ws (ErrorFrame error) st1
              ∧ (- maxTime ≤ t2 - 5000 → error = "Duplicate message detected"))
      as (error & -> & Herror).
    { rewrite Est2. unfold on_message. rewrite Hq1. simpl.
      rewrite handle_well_formed by done. unfold store_and_route.
      destruct (windowed_filter m2) as [f2|] eqn:Hf2; simpl.
      - destruct (windowed_filter_Some m2 f2 Hf2)
          as (g2 & u2 & t & Hcg2 & Hcu2 & Htm2 & Hsince2 & ->).
        assert (t = t2) as -> by congruence.
        rewrite Hg in Hcg2. rewrite Hs in Hcu2.
        assert (g2 = g) as -> by congruence. assert (u2 = u) as -> by congruence.
        destruct (find_is_Some
          (λ d, bool_decide (Stored.gigId d = g)
                && bool_decide (Stored.userId d = u)
                && bool_decide (Stored.text d = val (Inbound.text m2))
                && bool_decide (t2 - 5000 ≤ Stored.timestamp d))
          (Message st1) saved) as [d Hd].
        + rewrite HM. set_solver.
        + rewrite Hsaved. simpl. rewrite Htx.
          rewrite !bool_decide_true by (done || lia). done.
        + unfold findOne. rewrite Hd. eauto.
      - exists "Server error". split; [done|]. intros Hlow. exfalso.
        unfold windowed_filter in Hf2. rewrite Hg, Hs, Hcg, Hcu, Ht2 in Hf2.
        simpl in Hf2. unfold new_Date in Hf2.
        rewrite bool_decide_true in Hf2; [done|]. unfold maxTime in *. lia. }
    destruct (rejected_effect ws error st1 Hopen1) as (Ho & Hothers & HM1 & _).
    split_and!; eauto.
  - (* stored *)
    intros Hlt Hmax.
    assert (Z.abs t2 ≤ maxTime ∧ Z.abs (t2 - 5000) ≤ maxTime) as [Hv2 Hv2'].
    { unfold maxTime in *. lia. }
    set (f2 := λ d : Stored.t,
           bool_decide (Stored.gigId d = g)
           && bool_decide (Stored.userId d = u)
           && bool_decide (Stored.text d = val (Inbound.text m2))
           && bool_decide (t2 - 5000 ≤ Stored.timestamp d)).
    assert (windowed_filter m2 = Some f2) as Hf2.
    { unfold windowed_filter. rewrite Hg, Hs, Hcg, Hcu, Ht2. simpl.
      unfold new_Date. by rewrite bool_decide_true. }
    assert (findOne f2 st1 = None) as Hnone2.
    { apply find_None. intros d. rewrite HM.
      intros [Hd| ->%list_elem_of_singleton]%elem_of_app.
      - pose proof (proj1 (find_None _ _) Hnone1 d Hd) as Hf. simpl in Hf.
        unfold f2. rewrite Htx.
        destruct (bool_decide (Stored.gigId d = g)),
          (bool_decide (Stored.userId d = u)),
          (bool_decide (Stored.text d = val (Inbound.text m1)));
          simpl in *; try done.
        apply bool_decide_eq_false in Hf. apply bool_decide_eq_false. lia.
      - unfold f2. rewrite Hsaved. simpl.
        rewrite (bool_decide_false (t2 - 5000 ≤ t1)) by lia.
        by rewrite andb_false_r. }
    destruct (create Windowed m2 now2 None st1) as [[saved2 st2']|] eqn:Hc2.
    2: { exfalso. unfold create in Hc2.
         apply create_Some in Hc as (? & ? & ? & ? & Hcg' & Hcu' & Hcr' & _).
         rewrite Hg, Hs, Hr, Hcg', Hcu' in Hc2. simpl in Hc2.
         rewrite Hcr' in Hc2. simpl in Hc2. rewrite Ht2 in Hc2. simpl in Hc2.
         unfold new_Date in Hc2. by rewrite bool_decide_true in Hc2. }
    destruct (accepted_effect Windowed ws q m2 now2 None saved2 st2' st1 Hinv1 Hc2)
      as (HM2 & _ & Hbc2).
    assert (st2 = deliver ws q saved2 st2') as ->.
    { rewrite Est2. unfold on_message. rewrite Hq1. simpl.
      rewrite handle_well_formed by done. unfold store_and_route.
      rewrite Hf2. simpl. rewrite Hnone2, Hc2. done. }
    exists saved2. split_and!; [done| |done].
    apply create_Some in Hc2 as (? & ? & ? & ts2 & _ & _ & _ & Hts2 & -> & _).
    simpl in *. rewrite Ht2 in Hts2. simpl in Hts2.
    by apply new_Date_Some in Hts2 as [-> _].
Qed.

(** What a new connection leaves untouched. *)
Lemma on_connection_frame v g s u st :
  invariant st →
  let n := length (heap st) in
  let st' := on_connection v g s u st in
  length (heap st') = S n
  ∧ (∀ c, c ≠ n → is_closed c st' = is_closed c st)
  ∧ (∀ c, c ≠ n → outbox st' c = outbox st c)
  ∧ (∀ r c, c ∈ members r st' → c = n ∨ c ∈ members r st).
Proof.
  intros (Hcl & Hst & Hreg) n st'. subst n st'.
  destruct (acceptable g s u) eqn:Hacc.
  - destruct (admitted_spec (Query.mk (val g) (val s) (val u)) st)
      as ((Hc0 & Hs0 & Ha0 & HM0 & Hl0) & Hq0 & Hk0 & Hz0 & Ho0 & Hcc0).
    destruct (decide (v = Keyed)) as [->|Hv].
    + destruct (admit_keyed_spec g s u st Hreg Hacc)
        as (r & _ & _ & _ & _ & _ & _ & Hl & _ & _ & Hz & Ho & Hm & Hm' & _).
      split_and!; [done| | |].
      * intros c Hne. rewrite Hz. by rewrite decide_False.
      * intros c _. apply Ho.
      * intros r' c Hin. destruct (decide (r' = r)) as [->|Hne].
        -- apply Hm' in Hin as [?|[? _]]; auto.
        -- rewrite Hm in Hin by done. auto.
    + assert (on_connection v g s u st
              = on_socket (set_query (Query.mk (val g) (val s) (val u)))
                  (length (heap st)) (accept st)) as ->.
      { rewrite on_connection_admitted by done. by destruct v. }
      split_and!; [done| | |].
      * intros c Hne. unfold is_closed. rewrite Hz0. by rewrite decide_False.
      * intros c _. apply Ho0.
      * intros r c Hin. right. by rewrite (members_view st) in Hin.
  - destruct (on_connection_rejected v g s u st Hacc) as (e & reason & ->).
    destruct (accept_spec st) as (Hq & Hk & Hz & Ho).
    pose proof (same_view_trans _ _ _
      (same_skeleton_view _ _
         (same_skeleton_send (length (heap st)) (ErrorFrame e) (accept st)))
      (same_view_close (length (heap st)) 1008 reason _)) as [].
    split_and!.
    + rewrite vw_length0. unfold accept. simpl. rewrite length_app. simpl. lia.
    + intros c Hne. rewrite vw_closed0. unfold is_closed. rewrite Hz.
      by rewrite decide_False.
    + intros c Hne. rewrite outbox_close, outbox_send.
      rewrite decide_False by (by intros [? _]). apply Ho.
    + intros r c Hin. right. by rewrite (members_view st) in Hin.
Qed.

Lemma is_closed_true_state st c :
  is_closed c st = true → stateOf st c ≠ Some OPEN.
Proof. unfold is_closed. intros H E. by rewrite E in H. Qed.

Lemma on_close_members v ws st r c :
  c ∈ members r (on_close v ws st) → c ∈ members r st.
Proof.
  unfold on_close.
  destruct v, (closureOf st ws) as [r0|], (queryOf st ws); try done.
  assert (c ∈ members r
            (with_sets (alter (Set_delete ws) r0 (sets st)) st)
          → c ∈ members r st) as Hsub.
  { rewrite members_alter by done. fold (members r st).
    case_decide; [|done]. by intros [? _]%elem_of_Set_delete. }
  by destruct (_ =? _)%nat.
Qed.

(** A socket that is closed and in no set stays so, and nothing more is
    written to it. *)
Lemma gone_step v st ev ws :
  invariant st → gone ws st →
  gone ws (step v st ev) ∧ outbox (step v st ev) ws = outbox st ws.
Proof.
  intros Hinv (Hlt & Hclosed & Hout).
  destruct ev as [g s u|ws' data now|ws'|ws']; simpl.
  - destruct (on_connection_frame v g s u st Hinv) as (Hl & Hz & Ho & Hm).
    assert (ws ≠ length (heap st)) as Hne by lia.
    split; [split_and!|].
    + rewrite Hl. lia.
    + by rewrite Hz.
    + intros r [?|?]%Hm; [done|]. by eapply Hout.
    + by apply Ho.
  - destruct (is_closed ws' st) eqn:Hws'; [by split|].
    destruct (on_message_effect v ws' data now st Hinv)
      as [Hsk [(_ & Hothers & _)|(q & m & saved & st1 & _ & _ & _ & _ & _ & _ & Hbc)]].
    + split; [split_and!|].
      * by rewrite (sk_length _ _ Hsk).
      * unfold is_closed. by rewrite (sk_state _ _ Hsk).
      * intros r. rewrite (members_view st) by apply Hsk. apply Hout.
      * apply Hothers. congruence.
    + split; [split_and!|].
      * by rewrite (sk_length _ _ Hsk).
      * unfold is_closed. by rewrite (sk_state _ _ Hsk).
      * intros r. rewrite (members_view st) by apply Hsk. apply Hout.
      * apply Hbc. intros (_ & Hopen & _). by apply is_closed_true_state in Hopen.
  - pose proof (same_view_peer_closing ws' st) as [].
    split; [split_and!|].
    + by rewrite vw_length0.
    + by rewrite vw_closed0.
    + intros r. rewrite (members_view st) by done. apply Hout.
    + unfold outbox. rewrite lookup_on_socket. case_decide; subst; [|done].
      destruct (heap st !! ws) as [w|]; simpl; [|done].
      unfold peer_closing. by destruct (readyState w).
  - destruct (is_closed ws' st) eqn:Hws'; [by split|].
    pose proof (is_closed_false_lt _ _ Hws') as Hlt'.
    destruct (transport_closed_spec ws' st Hlt') as (Hc & Hq & Hk & Hz & Ho).
    destruct (on_close_frame v ws' (transport_closed ws' st)) as (Hh' & Hc' & HM').
    split; [split_and!|].
    + rewrite Hh'. unfold transport_closed. simpl. by rewrite length_alter.
    + unfold is_closed, stateOf. rewrite Hh'.
      fold (stateOf (transport_closed ws' st) ws). rewrite Hz.
      case_decide; [by rewrite bool_decide_true|]. apply Hclosed.
    + intros r Hin%on_close_members. by eapply Hout.
    + unfold outbox. rewrite Hh'. apply Ho.
Qed.

Lemma gone_fold v later st ws :
  invariant st → gone ws st →
  gone ws (fold_left (step v) later st)
  ∧ outbox (fold_left (step v) later st) ws = outbox st ws.
Proof.
  revert st. induction later as [|ev later IH]; intros st Hinv Hgone; simpl.
  { by split. }
  destruct (gone_step v st ev ws Hinv Hgone) as [Hgone' Ho].
  destruct (IH (step v st ev) (invariant_step v st ev Hinv) Hgone') as [? Ho'].
  split; [done|]. by rewrite Ho'.
Qed.

Lemma registered_userId st c q u r :
  registry_ok st → activeConnections st !! u = Some r → c ∈ members r st →
  queryOf st c = Some q → Query.userId q = u.
Proof.
  intros Hreg Hu Hin Hq. destruct (reg_member _ Hreg _ _ Hin) as [_ Hk].
  by eapply (reg_owner _ Hreg).
Qed.

(** What the map of the keyed draft does hold.  After any sequence of
    connections, messages and closes, the sets the map points to hold at
    most one connection for a user and a gig; and admitting a connection
    registers it and, for each connection that the map held for the same
    user and the same gig, calls [close(1008, "Duplicate connection")] on
    it (so that it is no longer open and gets the close) and deletes it
    from its set within the same step.  A live connection whose set has
    lost its entry in the map is out of reach of this. *)
Theorem one_connection_per_user_and_gig events :
  let st := run Keyed events in
  (∀ c1 c2 q1 q2,
      registered st c1 → registered st c2 →
      queryOf st c1 = Some q1 → queryOf st c2 = Some q2 →
      Query.userId q1 = Query.userId q2 → Query.gigId q1 = Query.gigId q2 →
      c1 = c2)
  ∧ ∀ gigId sellerId userId,
      acceptable gigId sellerId userId = true →
      let st' := run Keyed (events ++ [Connection gigId sellerId userId]) in
      registered st' (length (heap st))
      ∧ ∀ c qc,
          registered st c → queryOf st c = Some qc →
          Query.userId qc = val userId → Query.gigId qc = val gigId →
          ¬ registered st' c
          ∧ stateOf st' c ≠ Some OPEN
          ∧ (stateOf st c = Some OPEN →
             stateOf st' c = Some CLOSING
             ∧ closeCallOf st' c = Some (1008, "Duplicate connection")).
Proof.
  intros st. destruct (invariant_run Keyed events) as (_ & _ & Hreg).
  fold st in Hreg. split.
  - intros c1 c2 q1 q2 (u1 & r1 & Hu1 & Hin1) (u2 & r2 & Hu2 & Hin2) Hq1 Hq2 Hu Hg.
    pose proof (registered_userId st c1 q1 u1 r1 Hreg Hu1 Hin1 Hq1).
    pose proof (registered_userId st c2 q2 u2 r2 Hreg Hu2 Hin2 Hq2).
    assert (r1 = r2) as -> by congruence.
    by apply (reg_gig _ Hreg r2 c1 c2 q1 q2).
  - intros g s u Hacc st'.
    destruct (invariant_run Keyed (events ++ [Connection g s u]))
      as (_ & _ & Hreg'). fold st' in Hreg'.
    unfold st' in *. rewrite run_snoc in *. simpl in *. fold st in Hreg' |- *.
    destruct (admit_keyed_spec g s u st Hreg Hacc)
      as (r & Hcase & Ha & _ & _ & _ & _ & _ & Hq & Hk & _ & _ & Hm & Hm' & Hv).
    split.
    + exists (val u), r. split; [by rewrite Ha, lookup_insert_eq|].
      apply Hm'. by left.
    + intros c qc (u' & r' & Hu' & Hin) Hqc Huser Hgig.
      pose proof (registered_userId st c qc u' r' Hreg Hu' Hin Hqc) as Hown.
      assert (u' = val u) as -> by congruence.
      assert (r' = r) as ->.
      { destruct Hcase as [?|[? _]]; congruence. }
      split; [|by apply (Hv c qc)].
      intros (u'' & r'' & Hu'' & Hin'').
      destruct (reg_member _ Hreg _ _ Hin) as [Hlt%queryOf_lt Hkc].
      destruct (reg_member _ Hreg' _ _ Hin'') as [_ Hkc'].
      rewrite Hk, decide_False in Hkc' by lia.
      assert (r'' = r) as -> by congruence.
      apply Hm' in Hin'' as [->|[_ Hn]]; [lia|]. apply Hn. eauto.
Qed.

Lemma closed_is_gone ws q st :
  invariant st → queryOf st ws = Some q → is_closed ws st = false →
  gone ws (on_close Keyed ws (transport_closed ws st)).
Proof.
  intros (Hcl & Hst & Hreg) Hq Hopen.
  pose proof (is_closed_false_lt _ _ Hopen) as Hlt.
  destruct (transport_closed_spec ws st Hlt) as (Hc & HqT & HkT & HzT & HoT).
  destruct (on_close_frame Keyed ws (transport_closed ws st)) as (Hh' & _ & _).
  set (sT := transport_closed ws st) in *.
  assert (∀ r, ws ∈ members r sT → closureOf sT ws = Some r) as Hmem.
  { intros r Hin. rewrite HkT. by apply (reg_member _ Hreg). }
  split_and!.
  - rewrite Hh'. unfold sT, transport_closed. simpl. by rewrite length_alter.
  - unfold is_closed, stateOf. rewrite Hh'. fold (stateOf sT ws).
    rewrite HzT, decide_True by done. by rewrite bool_decide_true.
  - intros r Hin.
    destruct (closureOf sT ws) as [r0|] eqn:Hk.
    + rewrite (on_close_keyed ws r0 q) in Hin by (by rewrite ?HqT).
      assert (ws ∈ members r (with_sets (alter (Set_delete ws) r0 (sets sT)) sT))
        as Hin' by (by case_bool_decide).
      rewrite members_alter in Hin' by done. fold (members r sT) in Hin'.
      case_decide as Hr.
      * apply elem_of_Set_delete in Hin' as [_ ?]. done.
      * apply Hmem in Hin'. congruence.
    + apply on_close_members, Hmem in Hin. congruence.
Qed.


End Claims.

(** ** More properties of the listeners *)

Section Extras.
Context {R : Runtime}.

(** *** What an event does to one socket *)

Lemma run_step v events ev :
  run v (events ++ [ev]) = step v (run v events) ev.
Proof. apply run_snoc. Qed.

(** The two ways a connection is turned away, with their reasons. *)
Lemma on_connection_rejected_reason v g s u st :
  acceptable g s u = false →
  let n := length (heap st) in
  truthy g && truthy s && truthy u = false
  ∧ on_connection v g s u st
    = close n 1008 "Missing gigId, sellerId, or userId"
        (send n (ErrorFrame "Missing required query parameters") (accept st))
  ∨ truthy g && truthy s && truthy u = true
    ∧ on_connection v g s u st
      = close n 1008 "Invalid gigId, sellerId, or userId"
          (send n (ErrorFrame "Invalid gigId, sellerId, or userId") (accept st)).
Proof.
  unfold acceptable, on_connection. intros H.
  destruct (truthy g), (truthy s), (truthy u); simpl in *; auto.
  right. split; [done|].
  destruct (isValid (val g)), (isValid (val s)), (isValid (val u));
    simpl in *; done.
Qed.

(** The error of a message that fails one of the two validations. *)
Lemma handle_ill_formed_reason v ws q m now st :
  well_formed m = false →
  truthy (Inbound.gigId m) && truthy (Inbound.senderId m)
    && truthy (Inbound.text m) = false
  ∧ handle v ws q m now st = Some (send ws (ErrorFrame (format_error v)) st)
  ∨ truthy (Inbound.gigId m) && truthy (Inbound.senderId m)
      && truthy (Inbound.text m) = true
    ∧ handle v ws q m now st = Some (send ws (ErrorFrame "Invalid message IDs") st).
Proof.
  unfold well_formed, handle. intros H.
  destruct (truthy (Inbound.gigId m)), (truthy (Inbound.senderId m)),
    (truthy (Inbound.text m)); simpl in *; auto.
  right. split; [done|].
  destruct (isValid (val (Inbound.gigId m))),
    (isValid (val (Inbound.senderId m))); simpl in *; auto.
  destruct (truthy (Inbound.recipientId m)); simpl in *; [|done].
  by rewrite H.
Qed.

(** The listener does nothing, or answers the sender with one of the
    reasons of its draft, or stores and delivers. *)
Lemma on_message_cases v ws data now st :
  on_message v ws data now st = st
  ∨ (∃ error, error ∈ message_errors v
       ∧ on_message v ws data now st = send ws (ErrorFrame error) st)
  ∨ ∃ q m saved st1,
      queryOf st ws = Some q ∧ data = Some m
      ∧ well_formed m = true ∧ novel v m now st
      ∧ create v m now (dedup_key v m now) st = Some (saved, st1)
      ∧ on_message v ws data now st = deliver ws q saved st1.
Proof.
  assert (format_error v ∈ message_errors v) as E1 by (unfold message_errors; set_solver).
  assert ("Invalid message IDs" ∈ message_errors v) as E2
    by (unfold message_errors; set_solver).
  assert ("Server error" ∈ message_errors v) as E3
    by (unfold message_errors; set_solver).
  unfold on_message. destruct (queryOf st ws) as [q|] eqn:Hq; [|by left].
  destruct data as [m|]; simpl; [|right; left; eauto].
  destruct (well_formed m) eqn:Hwf.
  2: { destruct (handle_ill_formed_reason v ws q m now st Hwf) as [[_ ->]|[_ ->]];
       right; left; eauto. }
  rewrite handle_well_formed by done. unfold store_and_route.
  destruct v.
  - destruct (create ESM m now None st) as [[saved st1]|] eqn:Hc; simpl.
    + right. right. by exists q, m, saved, st1.
    + right. left. eauto.
  - destruct (windowed_filter m) as [filter|] eqn:Hf; simpl;
      [|right; left; eauto].
    destruct (findOne filter st) eqn:Hfind.
    { right. left. exists "Duplicate message detected".
      split; [unfold message_errors; set_solver|done]. }
    destruct (create Windowed m now None st) as [[saved st1]|] eqn:Hc; simpl.
    + right. right. exists q, m, saved, st1. split_and!; try done.
      simpl. eauto.
    + right. left. eauto.
  - destruct (findOne _ st) eqn:Hfind; [by left|].
    destruct (create Keyed m now _ st) as [[saved st1]|] eqn:Hc; simpl.
    + right. right. by exists q, m, saved, st1.
    + right. left. eauto.
Qed.

Lemma closeCallOf_on_socket f ws st c :
  (∀ w, closeCall (f w) = closeCall w) →
  closeCallOf (on_socket f ws st) c = closeCallOf st c.
Proof.
  intros Hf. unfold closeCallOf. rewrite lookup_on_socket.
  case_decide; subst; [|done]. destruct (heap st !! c); simpl; auto.
Qed.

Lemma outbox_on_socket f ws st c :
  (∀ w, sent (f w) = sent w) →
  outbox (on_socket f ws st) c = outbox st c.
Proof.
  intros Hf. unfold outbox. rewrite lookup_on_socket.
  case_decide; subst; [|done]. destruct (heap st !! c); simpl; auto.
Qed.

Lemma untouched_refl st c : untouched st st c.
Proof. by split. Qed.

Lemma untouched_trans st1 st2 st3 c :
  untouched st1 st2 c → untouched st2 st3 c → untouched st1 st3 c.
Proof. intros [? ?] [? ?]. split; congruence. Qed.

Lemma untouched_skeleton st st' c : same_skeleton st st' → untouched st st' c.
Proof. intros []. by split. Qed.

Lemma queryOf_evict ws g r st x c :
  queryOf (evict ws g r st x) c = queryOf st c.
Proof.
  destruct (evict_cases ws g r st x) as [[-> _]|[-> _]]; [done|].
  apply (queryOf_close x 1008 "Duplicate connection" st c).
Qed.

(** The loop over [l] leaves the sockets that are no victims in [l] as
    they are. *)
Lemma fold_evict_spares ws g r l st c :
  ¬ (c ∈ l ∧ victim ws g st c) →
  heap (fold_left (evict ws g r) l st) !! c = heap st !! c.
Proof.
  revert st. induction l as [|x l IH]; intros st Hn; simpl; [done|].
  rewrite IH.
  - destruct (decide (x = c)) as [->|Hne]; [|by apply lookup_evict_ne].
    destruct (evict_cases ws g r st c) as [[-> _]|[_ Hv]]; [done|].
    exfalso. apply Hn. split; [set_solver|done].
  - intros [Hin Hv]. apply Hn. split; [set_solver|].
    by apply (victim_ext ws g st (evict ws g r st x) c (queryOf_evict _ _ _ _ _ _)).
Qed.

Lemma victim_or_not ws g st c : victim ws g st c ∨ ¬ victim ws g st c.
Proof.
  unfold victim. destruct (decide (c = ws)) as [->|Hne]; [right; tauto|].
  destruct (queryOf st c) as [cq|]; [|right; by intros (_ & ? & ? & _)].
  destruct (decide (Query.gigId cq = g)) as [Hg|Hg]; [left; eauto|].
  right. intros (_ & ? & ? & ?). congruence.
Qed.

(** Joining a set supersedes the open victims of the set and touches no
    other socket. *)
Lemma join_sockets ws g r st c :
  (r < length (sets st))%nat → ws ∉ members r st →
  untouched st (join ws g r st) c
  ∨ superseded st (join ws g r st) c ∧ c ∈ members r st ∧ victim ws g st c.
Proof.
  intros Hr Hfresh. unfold join.
  set (sC := on_socket (set_userConnections r) ws st).
  set (sD := with_sets (alter (Set_add ws) r (sets sC)) sC).
  assert (∀ c, stateOf sD c = stateOf st c) as HsD.
  { intros c'. apply (stateOf_on_socket (set_userConnections r) ws st c'). done. }
  assert (∀ c, closeCallOf sD c = closeCallOf st c) as HkD.
  { intros c'. apply (closeCallOf_on_socket (set_userConnections r) ws st c'). done. }
  assert (∀ c, queryOf sD c = queryOf st c) as HqD.
  { intros c'. apply (queryOf_on_socket (set_userConnections r) ws st c'). done. }
  assert (∀ c, c ∈ members r sD ↔ c ∈ members r st ∨ c = ws) as HmD.
  { intros c'. apply (members_Set_add ws r st sC c'). done. }
  destruct (1 <? length (members r sD))%nat; [|left; by split].
  assert (c ∈ members r sD ∧ victim ws g sD c
          ∨ ¬ (c ∈ members r sD ∧ victim ws g sD c)) as [[Hin Hv]|Hn].
  { destruct (decide (c ∈ members r sD)); [|right; tauto].
    destruct (victim_or_not ws g sD c); [left|right]; tauto. }
  - destruct (fold_evict_closes ws g r (members r sD) sD c Hin Hv) as [Hno Hopen].
    assert (victim ws g st c) as Hv' by (by apply (victim_ext ws g st sD c (HqD c))).
    assert (c ∈ members r st) as Hin'.
    { apply HmD in Hin as [?| ->]; [done|]. by destruct Hv. }
    destruct (decide (stateOf sD c = Some OPEN)) as [Ho|Hc].
    + right. destruct (Hopen Ho) as [? ?]. rewrite HsD in Ho. by split_and!.
    + left. pose proof (fold_evict_not_open ws g r (members r sD) sD c Hc) as E.
      split; unfold stateOf, closeCallOf; rewrite E; [apply HsD|apply HkD].
  - left. pose proof (fold_evict_spares ws g r (members r sD) sD c Hn) as E.
    split; unfold stateOf, closeCallOf; rewrite E; [apply HsD|apply HkD].
Qed.

Lemma closeCallOf_None_ge st c :
  (length (heap st) ≤ c)%nat → closeCallOf st c = None.
Proof.
  intros H. unfold closeCallOf. by rewrite (lookup_ge_None_2 (heap st) c).
Qed.

Lemma outbox_nil_ge st c : (length (heap st) ≤ c)%nat → outbox st c = [].
Proof. intros H. unfold outbox. by rewrite (lookup_ge_None_2 (heap st) c). Qed.

Lemma stateOf_None_ge st c : (length (heap st) ≤ c)%nat → stateOf st c = None.
Proof. intros H. unfold stateOf. by rewrite (lookup_ge_None_2 (heap st) c). Qed.

Lemma stateOf_Some_lt st c s : stateOf st c = Some s → (c < length (heap st))%nat.
Proof.
  unfold stateOf. intros H. apply lookup_lt_is_Some.
  destruct (heap st !! c); [eauto|done].
Qed.

(** The sockets of the keyed draft across an admission: the new socket is
    open and was given no close; a socket of the set of the user that was
    admitted for the same gig is superseded if it was open; every other
    socket is untouched. *)
Lemma admit_keyed_sockets g s u st :
  registry_ok st → acceptable g s u = true →
  let n := length (heap st) in
  let st' := on_connection Keyed g s u st in
  stateOf st' n = Some OPEN ∧ closeCallOf st' n = None
  ∧ ∀ c, c ≠ n →
      untouched st st' c
      ∨ superseded st st' c
        ∧ ∃ r cq, activeConnections st !! val u = Some r ∧ c ∈ members r st
            ∧ queryOf st c = Some cq ∧ Query.gigId cq = val g.
Proof.
  intros Hok Hacc n st'. subst st'.
  rewrite on_connection_admitted by done. fold n.
  set (q := Query.mk (val g) (val s) (val u)).
  set (st0 := on_socket (set_query q) n (accept st)).
  destruct (admitted_spec q st)
    as ((Hc0 & Hs0 & Ha0 & HM0 & Hl0) & Hq0 & Hk0 & Hz0 & Ho0 & Hcc0).
  fold n st0 in Hc0, Hs0, Ha0, HM0, Hl0, Hq0, Hk0, Hz0, Ho0, Hcc0.
  pose proof (registry_ok_admitted q st Hok) as Hok0. fold n st0 in Hok0.
  unfold register. simpl.
  destruct (ensure_set_spec (val u) st0 Hok0)
    as (r & Hr & Hlt & Hcase & Ha1 & Hlen1 & Hm1 & Hh1 & Hc1 & HM1).
  rewrite Hr. set (st1 := ensure_set (val u) st0) in *.
  assert (∀ c, queryOf st1 c = queryOf st0 c) as Hq1
    by (intros c; unfold queryOf; by rewrite Hh1).
  assert (∀ c, stateOf st1 c = stateOf st0 c) as Hz1
    by (intros c; unfold stateOf; by rewrite Hh1).
  assert (∀ c, closeCallOf st1 c = closeCallOf st0 c) as Hcc1
    by (intros c; unfold closeCallOf; by rewrite Hh1).
  assert (n ∉ members r st1) as Hfresh.
  { rewrite Hm1, (members_view st st0) by done.
    intros [Hin%queryOf_lt _]%(reg_member _ Hok). unfold n in Hin. lia. }
  assert (∀ c, untouched st1 (join n (val g) r st1) c
             ∨ superseded st1 (join n (val g) r st1) c
               ∧ c ∈ members r st1 ∧ victim n (val g) st1 c) as Hj.
  { intros c. by apply join_sockets. }
  split_and!.
  - destruct (Hj n) as [[Hs _]|(_ & _ & Hne & _)]; [|done].
    rewrite Hs, Hz1, Hz0. by rewrite decide_True.
  - destruct (Hj n) as [[_ Hk]|(_ & _ & Hne & _)]; [|done].
    rewrite Hk, Hcc1, Hcc0. apply closeCallOf_None_ge. unfold n. lia.
  - intros c Hne.
    assert (stateOf st1 c = stateOf st c) as Hs
      by (by rewrite Hz1, Hz0, decide_False).
    assert (closeCallOf st1 c = closeCallOf st c) as Hk by (by rewrite Hcc1, Hcc0).
    destruct (Hj c) as [[Hs' Hk']|((Ho & Hcl & Hkk) & Hin & _ & cq & Hcq & Hg)].
    + left. split; congruence.
    + right. split; [split_and!; congruence|].
      rewrite Hm1, (members_view st st0) in Hin by done.
      rewrite Hq1, Hq0, decide_False in Hcq by done.
      exists r, cq. split_and!; try done.
      rewrite Ha0 in Hcase. destruct Hcase as [?|[_ ->]]; [done|].
      rewrite Hs0 in Hin. unfold members in Hin.
      rewrite (lookup_ge_None_2 (sets st)) in Hin by lia.
      by apply elem_of_nil in Hin.
Qed.

(** The sockets across a connection of any draft: but for the superseded
    ones of the keyed draft, the older sockets are untouched. *)
Lemma on_connection_sockets v g s u st c :
  invariant st → c ≠ length (heap st) →
  let st' := on_connection v g s u st in
  untouched st st' c
  ∨ superseded st st' c
    ∧ v = Keyed ∧ acceptable g s u = true
    ∧ ∃ r cq, activeConnections st !! val u = Some r ∧ c ∈ members r st
        ∧ queryOf st c = Some cq ∧ Query.gigId cq = val g.
Proof.
  intros (Hcl & Hst & Hreg) Hne st'. subst st'.
  destruct (acceptable g s u) eqn:Hacc.
  - destruct (decide (v = Keyed)) as [->|Hv].
    + destruct (admit_keyed_sockets g s u st Hreg Hacc) as (_ & _ & Hall).
      destruct (Hall c Hne) as [?|[? ?]]; [by left|right; by split_and!].
    + left. rewrite on_connection_admitted by done.
      destruct (admitted_spec (Query.mk (val g) (val s) (val u)) st)
        as (_ & _ & _ & Hz0 & _ & Hcc0).
      assert (untouched st
                (on_socket (set_query (Query.mk (val g) (val s) (val u)))
                   (length (heap st)) (accept st)) c) as Hu.
      { split; [|apply Hcc0]. rewrite Hz0. by rewrite decide_False. }
      by destruct v.
  - left. destruct (on_connection_rejected v g s u st Hacc) as (e & reason & ->).
    destruct (accept_spec st) as (_ & _ & Hz & _).
    split.
    + unfold close, send. rewrite !stateOf_on_socket_ne by done.
      rewrite Hz. by rewrite decide_False.
    + unfold closeCallOf, close, send. rewrite !lookup_on_socket.
      rewrite !decide_False by done. unfold accept. simpl.
      rewrite lookup_app. destruct (heap st !! c) eqn:E; [done|].
      apply lookup_ge_None in E.
      by destruct (c - length (heap st))%nat eqn:E'; [lia|].
Qed.

(** The socket a connection creates. *)
Lemma on_connection_new v g s u st :
  invariant st →
  let n := length (heap st) in
  let st' := on_connection v g s u st in
  (acceptable g s u = true →
     queryOf st' n = Some (Query.mk (val g) (val s) (val u))
     ∧ stateOf st' n = Some OPEN ∧ closeCallOf st' n = None
     ∧ outbox st' n = [])
  ∧ (acceptable g s u = false →
     queryOf st' n = None ∧ stateOf st' n = Some CLOSING
     ∧ (truthy g && truthy s && truthy u = false
        ∧ outbox st' n = [ErrorFrame "Missing required query parameters"]
        ∧ closeCallOf st' n = Some (1008, "Missing gigId, sellerId, or userId")
        ∨ truthy g && truthy s && truthy u = true
          ∧ outbox st' n = [ErrorFrame "Invalid gigId, sellerId, or userId"]
          ∧ closeCallOf st' n = Some (1008, "Invalid gigId, sellerId, or userId"))).
Proof.
  intros (Hcl & Hst & Hreg) n st'. subst st'. split; intros Hacc.
  - destruct (admitted_spec (Query.mk (val g) (val s) (val u)) st)
      as (_ & Hq0 & _ & Hz0 & Ho0 & Hcc0). fold n in Hq0, Hz0, Ho0, Hcc0.
    destruct (decide (v = Keyed)) as [->|Hv].
    + destruct (admit_keyed_spec g s u st Hreg Hacc)
        as (r & _ & _ & _ & _ & _ & _ & _ & Hq & _ & _ & Ho & _).
      destruct (admit_keyed_sockets g s u st Hreg Hacc) as (Hs & Hk & _).
      fold n in Hq, Ho, Hs, Hk. split_and!; try done.
      * rewrite Hq. by rewrite decide_True.
      * rewrite Ho. apply outbox_nil_ge. unfold n. lia.
    + assert (on_connection v g s u st
              = on_socket (set_query (Query.mk (val g) (val s) (val u)))
                  n (accept st)) as ->.
      { rewrite on_connection_admitted by done. by destruct v. }
      split_and!.
      * rewrite Hq0. by rewrite decide_True.
      * rewrite Hz0. by rewrite decide_True.
      * rewrite Hcc0. apply closeCallOf_None_ge. unfold n. lia.
      * rewrite Ho0. apply outbox_nil_ge. unfold n. lia.
  - subst n. destruct (on_connection_rejected_reason v g s u st Hacc)
      as [[Ht ->]|[Ht ->]];
      unfold queryOf, stateOf, outbox, closeCallOf;
      rewrite heap_rejected; simpl; split_and!; try done; [left|right]; done.
Qed.

(** *** What an event does to the state *)

(** A message that passes the validations and the duplicate check of its
    draft, and that [Message.create] takes, is stored and delivered. *)
Lemma on_message_accepts v ws q m now st saved st1 :
  queryOf st ws = Some q → well_formed m = true → novel v m now st →
  create v m now (dedup_key v m now) st = Some (saved, st1) →
  on_message v ws (Some m) now st = deliver ws q saved st1.
Proof.
  intros Hq Hwf Hnov Hc. unfold on_message. rewrite Hq. simpl.
  rewrite handle_well_formed by done. unfold store_and_route.
  destruct v.
  - simpl in Hc. by rewrite Hc.
  - destruct Hnov as (filter & Hf & Hfind). rewrite Hf. simpl.
    rewrite Hfind. simpl in Hc. by rewrite Hc.
  - unfold novel in Hnov. rewrite Hnov. simpl in Hc. by rewrite Hc.
Qed.

Lemma on_connection_Message v g s u st :
  invariant st → Message (on_connection v g s u st) = Message st.
Proof.
  intros (_ & _ & Hreg). destruct (acceptable g s u) eqn:Hacc.
  - destruct (decide (v = Keyed)) as [->|Hv].
    + by destruct (admit_keyed_spec g s u st Hreg Hacc)
        as (r & _ & _ & _ & _ & _ & HM & _).
    + rewrite on_connection_admitted by done. by destruct v.
  - by destruct (on_connection_rejected v g s u st Hacc) as (e & reason & ->).
Qed.

(** An event stores at most one document, and only a message does. *)
Lemma step_Message v st ev :
  invariant st →
  Message (step v st ev) = Message st
  ∨ ∃ ws m now saved,
      ev = Incoming ws (Some m) now
      ∧ Message (step v st ev) = Message st ++ [saved].
Proof.
  intros Hinv. destruct ev as [g s u|ws data now|ws|ws]; simpl.
  - left. by apply on_connection_Message.
  - destruct (is_closed ws st); [by left|].
    destruct (on_message_effect v ws data now st Hinv)
      as (_ & [(HM & _)|(q & m & saved & st1 & _ & -> & _ & _ & _ & HM & _)]).
    + by left.
    + right. by exists ws, m, now, saved.
  - by left.
  - destruct (is_closed ws st); [by left|]. left.
    by destruct (on_close_frame v ws (transport_closed ws st)) as (_ & _ & ->).
Qed.

Lemma step_length v st ev :
  invariant st → (length (heap st) ≤ length (heap (step v st ev)))%nat.
Proof.
  intros Hinv. destruct ev as [g s u|ws data now|ws|ws]; simpl.
  - destruct (on_connection_frame v g s u st Hinv) as (-> & _). lia.
  - destruct (is_closed ws st); [done|].
    destruct (on_message_effect v ws data now st Hinv) as (Hsk & _).
    by rewrite (sk_length _ _ Hsk).
  - unfold on_socket. simpl. by rewrite length_alter.
  - destruct (is_closed ws st); [done|].
    destruct (on_close_frame v ws (transport_closed ws st)) as (-> & _).
    unfold transport_closed, on_socket. simpl. by rewrite length_alter.
Qed.

(** No event changes the [query] of a socket that exists. *)
Lemma step_query v st ev c :
  invariant st → (c < length (heap st))%nat →
  queryOf (step v st ev) c = queryOf st c.
Proof.
  intros Hinv Hlt. pose proof Hinv as (_ & _ & Hreg).
  destruct ev as [g s u|ws data now|ws|ws]; simpl.
  - destruct (acceptable g s u) eqn:Hacc.
    + destruct (decide (v = Keyed)) as [->|Hv].
      * destruct (admit_keyed_spec g s u st Hreg Hacc)
          as (r & _ & _ & _ & _ & _ & _ & _ & Hq & _).
        rewrite Hq. rewrite decide_False by lia. done.
      * rewrite on_connection_admitted by done.
        destruct (admitted_spec (Query.mk (val g) (val s) (val u)) st)
          as (_ & Hq & _).
        assert (queryOf (on_socket (set_query (Query.mk (val g) (val s) (val u)))
                           (length (heap st)) (accept st)) c = queryOf st c) as E
          by (rewrite Hq; rewrite decide_False by lia; done).
        by destruct v.
    + destruct (on_connection_rejected v g s u st Hacc) as (e & reason & ->).
      rewrite queryOf_close, queryOf_send.
      by destruct (accept_spec st) as (-> & _).
  - destruct (is_closed ws st); [done|].
    destruct (on_message_effect v ws data now st Hinv) as (Hsk & _).
    apply (sk_query _ _ Hsk).
  - apply (vw_query _ _ (same_view_peer_closing ws st)).
  - destruct (is_closed ws st) eqn:Hcl; [done|].
    destruct (on_close_frame v ws (transport_closed ws st)) as (Hh & _).
    unfold queryOf at 1. rewrite Hh.
    destruct (transport_closed_spec ws st (is_closed_false_lt _ _ Hcl))
      as (_ & Hq & _).
    apply Hq.
Qed.

(** What an event does to the ready state of a socket that exists, and to
    the close the server gave it. *)
Lemma step_sockets v st ev c :
  invariant st → (c < length (heap st))%nat →
  let st' := step v st ev in
  untouched st st' c
  ∨ superseded st st' c
    ∧ v = Keyed
    ∧ (∃ g s u r cq,
         ev = Connection g s u ∧ acceptable g s u = true
         ∧ activeConnections st !! val u = Some r ∧ c ∈ members r st
         ∧ queryOf st c = Some cq ∧ Query.gigId cq = val g)
  ∨ ev = PeerClosing c ∧ stateOf st c = Some OPEN
    ∧ stateOf st' c = Some CLOSING ∧ closeCallOf st' c = closeCallOf st c
  ∨ ev = Closed c ∧ is_closed c st = false
    ∧ stateOf st' c = Some CLOSED ∧ closeCallOf st' c = closeCallOf st c.
Proof.
  intros Hinv Hlt st'. subst st'.
  destruct ev as [g s u|ws data now|ws|ws]; simpl.
  - destruct (on_connection_sockets v g s u st c Hinv) as [?|(? & ? & ? & r & cq & ?)];
      [lia|by left|].
    right. left. split_and!; try done. by exists g, s, u, r, cq.
  - left. destruct (is_closed ws st); [apply untouched_refl|].
    destruct (on_message_effect v ws data now st Hinv) as (Hsk & _).
    by apply untouched_skeleton.
  - assert (closeCallOf (on_socket peer_closing ws st) c = closeCallOf st c) as Hk.
    { apply closeCallOf_on_socket. intros w. unfold peer_closing.
      by destruct (readyState w). }
    destruct (decide (ws = c)) as [->|Hne].
    + destruct (lookup_lt_is_Some_2 _ _ Hlt) as [w E].
      assert (stateOf st c = Some (readyState w)) as Hs
        by (unfold stateOf; by rewrite E).
      assert (stateOf (on_socket peer_closing c st) c
              = Some (match readyState w with OPEN => CLOSING | s => s end)) as Hs'.
      { unfold stateOf. rewrite lookup_on_socket, decide_True, E by done.
        simpl. unfold peer_closing.
        destruct (readyState w) eqn:Hw; simpl; by rewrite ?Hw. }
      destruct (readyState w) eqn:Hw;
        try (left; split; [congruence|done]).
      right. right. left. by split_and!.
    + left. split; [|done]. by apply stateOf_on_socket_ne.
  - destruct (is_closed ws st) eqn:Hcl; [left; apply untouched_refl|].
    destruct (on_close_frame v ws (transport_closed ws st)) as (Hh & _).
    destruct (transport_closed_spec ws st (is_closed_false_lt _ _ Hcl))
      as (_ & _ & _ & Hs & _).
    assert (closeCallOf (on_close v ws (transport_closed ws st)) c
            = closeCallOf st c) as Hk.
    { unfold closeCallOf at 1. rewrite Hh.
      apply (closeCallOf_on_socket (set_readyState CLOSED) ws st c). done. }
    assert (stateOf (on_close v ws (transport_closed ws st)) c
            = if decide (c = ws) then Some CLOSED else stateOf st c) as Hz.
    { unfold stateOf at 1. rewrite Hh. apply Hs. }
    destruct (decide (c = ws)) as [->|Hne].
    + right. right. right. by split_and!.
    + left. by split.
Qed.

Lemma sendable_mono v st st' f :
  Message st `prefix_of` Message st' → sendable v st f → sendable v st' f.
Proof.
  intros [k Hk] Hf. destruct f as [e|p]; [done|]. simpl in *.
  destruct Hf as [Hin Hs]. split; [|done]. rewrite Hk. set_solver.
Qed.

Lemma step_prefix v st ev :
  invariant st → Message st `prefix_of` Message (step v st ev).
Proof.
  intros Hinv.
  destruct (step_Message v st ev Hinv) as [->|(_ & _ & _ & saved & _ & ->)];
    [done|by exists [saved]].
Qed.

(** An event writes at most one frame to a socket: a frame the draft can
    send, to a socket that was open or that the event created. *)
Lemma step_outbox v st ev c :
  invariant st →
  let st' := step v st ev in
  outbox st' c = outbox st c
  ∨ ∃ f, outbox st' c = outbox st c ++ [f] ∧ sendable v st' f
      ∧ (stateOf st c = Some OPEN ∨ (length (heap st) ≤ c)%nat).
Proof.
  intros Hinv st'. subst st'.
  destruct ev as [g s u|ws data now|ws|ws]; simpl.
  - destruct (decide (c = length (heap st))) as [->|Hne].
    + destruct (on_connection_new v g s u st Hinv) as [Hyes Hno].
      rewrite (outbox_nil_ge st) by lia.
      destruct (acceptable g s u).
      * left. by destruct Hyes as (_ & _ & _ & ->).
      * right. destruct Hno as (_ & _ & [(_ & -> & _)|(_ & -> & _)]); [done|..];
          eexists; (split; [done|]); (split; [|right; lia]); simpl;
          unfold connection_errors; set_solver.
    + left. by destruct (on_connection_frame v g s u st Hinv) as (_ & _ & -> & _).
  - destruct (is_closed ws st) eqn:Hcl; [by left|].
    destruct (on_message_cases v ws data now st)
      as [->|[(error & Hin & ->)|(q & m & saved & st1 & Hq & -> & Hwf & Hnov & Hc & ->)]].
    + by left.
    + rewrite outbox_send. case_decide as Hd; [|by left].
      destruct Hd as [-> Ho]. right. eexists. split; [done|].
      split; [|by left]. simpl. set_solver.
    + destruct (accepted_effect v ws q m now _ saved st1 st Hinv Hc)
        as (HM & _ & Hb).
      destruct (Hb c) as [Hyes Hno].
      destruct (decide (c ∈ matching q st)) as [Hin|Hout].
      * apply matching_audience in Hin. right. exists (frame_of saved).
        split; [by apply Hyes|]. split; [|left; apply Hin].
        simpl. rewrite HM. split; [set_solver|done].
      * left. apply Hno. by rewrite <- matching_audience.
  - left. apply outbox_on_socket. intros w. unfold peer_closing.
    by destruct (readyState w).
  - destruct (is_closed ws st) eqn:Hcl; [by left|]. left.
    destruct (on_close_frame v ws (transport_closed ws st)) as (Hh & _).
    unfold outbox at 1. rewrite Hh.
    destruct (transport_closed_spec ws st (is_closed_false_lt _ _ Hcl))
      as (_ & _ & _ & _ & Ho).
    apply Ho.
Qed.

(** *** Properties of every history *)

Lemma fold_step_rel (Rel : Server → Server → Prop) v :
  (∀ st, Rel st st) →
  (∀ st1 st2 st3, Rel st1 st2 → Rel st2 st3 → Rel st1 st3) →
  (∀ st ev, invariant st → Rel st (step v st ev)) →
  ∀ later st, invariant st → Rel st (fold_left (step v) later st).
Proof.
  intros Hrefl Htrans Hstep later.
  induction later as [|ev later IH]; intros st Hinv; simpl; [apply Hrefl|].
  eapply Htrans; [by apply Hstep|]. apply IH. by apply invariant_step.
Qed.

Lemma fold_step_ind (P : Server → Prop) v :
  (∀ st ev, invariant st → P st → P (step v st ev)) →
  ∀ later st, invariant st → P st → P (fold_left (step v) later st).
Proof.
  intros Hstep later.
  induction later as [|ev later IH]; intros st Hinv HP; simpl; [done|].
  apply IH; [by apply invariant_step|by apply Hstep].
Qed.

Lemma run_ind (P : Server → Prop) v :
  P initial →
  (∀ st ev, invariant st → P st → P (step v st ev)) →
  ∀ events, P (run v events).
Proof.
  intros H0 Hstep events. unfold run.
  apply fold_step_ind; [done|apply invariant_initial|done].
Qed.

Lemma step_length_eq v st ev :
  invariant st →
  length (heap (step v st ev))
  = match ev with
    | Connection _ _ _ => S (length (heap st))
    | _ => length (heap st)
    end.
Proof.
  intros Hinv. destruct ev as [g s u|ws data now|ws|ws]; simpl.
  - by destruct (on_connection_frame v g s u st Hinv) as (-> & _).
  - destruct (is_closed ws st); [done|].
    destruct (on_message_effect v ws data now st Hinv) as (Hsk & _).
    by rewrite (sk_length _ _ Hsk).
  - unfold on_socket. simpl. by rewrite length_alter.
  - destruct (is_closed ws st); [done|].
    destruct (on_close_frame v ws (transport_closed ws st)) as (-> & _).
    unfold transport_closed, on_socket. simpl. by rewrite length_alter.
Qed.

Lemma fold_prefix v later st :
  invariant st → Message st `prefix_of` Message (fold_left (step v) later st).
Proof.
  apply (fold_step_rel (λ st st', Message st `prefix_of` Message st')).
  - done.
  - intros st1 st2 st3 H1 H2. by etrans.
  - intros st0 ev Hinv. by apply step_prefix.
Qed.

Lemma fold_query v later st c :
  invariant st → (c < length (heap st))%nat →
  queryOf (fold_left (step v) later st) c = queryOf st c.
Proof.
  intros Hinv Hlt.
  cut ((length (heap st) ≤ length (heap (fold_left (step v) later st)))%nat
       ∧ ∀ c, (c < length (heap st))%nat →
           queryOf (fold_left (step v) later st) c = queryOf st c).
  { intros [_ H]. by apply H. }
  clear c Hlt. revert later st Hinv.
  apply (fold_step_rel (λ st st',
    (length (heap st) ≤ length (heap st'))%nat
    ∧ ∀ c, (c < length (heap st))%nat → queryOf st' c = queryOf st c)).
  - done.
  - intros st1 st2 st3 [L1 H1] [L2 H2]. split; [lia|].
    intros c Hc. rewrite H2 by lia. by apply H1.
  - intros st0 ev Hinv. split; [by apply step_length|].
    intros c Hc. by apply step_query.
Qed.

(** X1. The collection only grows: whatever happens after a history, the
    documents stored by then are still there, unchanged and in the same
    positions; the listeners call [Message.create] and never update or
    delete. *)
Theorem collection_only_grows v events later :
  Message (run v events) `prefix_of` Message (run v (events ++ later)).
Proof. rewrite run_app. apply fold_prefix, invariant_run. Qed.

(** X2. The [query] of a socket is settled by the ["connection"] listener
    and no later event changes it: an admitted socket keeps the parameters
    it was admitted with, and a socket that was turned away never gets
    any. *)
Theorem query_is_fixed v events later c :
  (c < length (heap (run v events)))%nat →
  queryOf (run v (events ++ later)) c = queryOf (run v events) c.
Proof.
  intros Hlt. rewrite run_app. apply fold_query; [apply invariant_run|done].
Qed.

(** X3. A connection that was turned away has no ["message"] listener:
    whatever it sends afterwards, at any time, changes nothing. *)
Theorem turned_away_connection_is_not_heard
    v events gigId sellerId userId later data now :
  let ws := length (heap (run v events)) in
  let st := run v ((events ++ [Connection gigId sellerId userId]) ++ later) in
  acceptable gigId sellerId userId = false →
  run v (((events ++ [Connection gigId sellerId userId]) ++ later)
         ++ [Incoming ws data now]) = st.
Proof.
  intros ws st Hacc. rewrite run_snoc. fold st. simpl.
  destruct (is_closed ws st); [done|].
  assert (queryOf st ws = None) as Hq.
  { subst st. rewrite run_app, fold_query.
    - rewrite run_snoc. simpl.
      destruct (on_connection_new v gigId sellerId userId (run v events)
                  (invariant_run v events)) as [_ Hno].
      destruct (Hno Hacc) as (Hq & _). exact Hq.
    - apply invariant_run.
    - rewrite run_snoc. simpl.
      destruct (on_connection_frame v gigId sellerId userId (run v events)
                  (invariant_run v events)) as (-> & _).
      unfold ws. lia. }
  unfold on_message. by rewrite Hq.
Qed.

Lemma fold_not_open v later st c s :
  invariant st → stateOf st c = Some s → s ≠ OPEN →
  let st' := fold_left (step v) later st in
  (stateOf st' c = Some s ∨ stateOf st' c = Some CLOSED)
  ∧ outbox st' c = outbox st c
  ∧ closeCallOf st' c = closeCallOf st c.
Proof.
  intros Hinv Hs Hne st'. subst st'.
  apply (fold_step_ind (λ st',
    (stateOf st' c = Some s ∨ stateOf st' c = Some CLOSED)
    ∧ outbox st' c = outbox st c ∧ closeCallOf st' c = closeCallOf st c));
    [|done|by split_and!; [left|..]].
  intros st0 ev Hinv0 (Hs0 & Ho0 & Hk0).
  assert (stateOf st0 c ≠ Some OPEN) as Hno by (destruct Hs0; congruence).
  assert (c < length (heap st0))%nat as Hlt.
  { destruct Hs0 as [H|H]; by apply stateOf_Some_lt in H. }
  split_and!.
  - destruct (step_sockets v st0 ev c Hinv0 Hlt)
      as [[Hz _]|[((Ho & _) & _)|[(_ & Ho & _)|(_ & _ & Hz & _)]]];
      try done.
    + rewrite Hz. done.
    + by right.
  - rewrite <- Ho0.
    destruct (step_outbox v st0 ev c Hinv0) as [?|(f & _ & _ & [?|?])];
      [done|done|lia].
  - rewrite <- Hk0.
    destruct (step_sockets v st0 ev c Hinv0 Hlt)
      as [[_ Hk]|[((Ho & _) & _)|[(_ & Ho & _)|(_ & _ & _ & Hk)]]];
      done.
Qed.

(** X4. The ready state of a socket only moves forward, and a socket that
    is not open is written to no more: once a socket is closing or closed
    it is never open again, a closed socket stays closed, its outbox is
    final, and the server gives it no (other) close. *)
Theorem socket_not_open_is_left_alone v events later c s :
  let st := run v events in
  let st' := run v (events ++ later) in
  stateOf st c = Some s → s ≠ OPEN →
  stateOf st' c ≠ Some OPEN
  ∧ (s = CLOSED → stateOf st' c = Some CLOSED)
  ∧ outbox st' c = outbox st c
  ∧ closeCallOf st' c = closeCallOf st c.
Proof.
  intros st st' Hs Hne. subst st'. rewrite run_app. fold st.
  destruct (fold_not_open v later st c s (invariant_run v events) Hs Hne)
    as (Hz & Ho & Hk).
  split_and!; try done.
  - intros Hopen. destruct Hz as [Hz|Hz]; rewrite Hz in Hopen; congruence.
  - intros ->. by destruct Hz.
Qed.

Lemma close_calls_step v st ev :
  invariant st → close_calls_ok v st → close_calls_ok v (step v st ev).
Proof.
  intros Hinv IH c code reason Hk.
  destruct (decide (c < length (heap st))%nat) as [Hlt|Hge].
  - rewrite (step_query v st ev c Hinv Hlt).
    destruct (step_sockets v st ev c Hinv Hlt)
      as [[Hz Hk']|[((Ho & Hz & Hk') & -> & g & s & u & r & cq & _ & _ & _ & _ & Hq & _)
           |[(_ & Ho & Hz & Hk')|(_ & _ & Hz & Hk')]]].
    + rewrite Hk' in Hk. rewrite Hz. by apply IH.
    + rewrite Hk' in Hk. injection Hk as <- <-. rewrite Hz, Hq.
      split_and!; [done|done|right; eauto].
    + rewrite Hk' in Hk. by destruct (IH c code reason Hk) as (_ & ? & _).
    + rewrite Hk' in Hk. destruct (IH c code reason Hk) as (-> & _ & Hr).
      rewrite Hz. by split_and!.
  - assert (c < length (heap (step v st ev)))%nat as Hlt'.
    { unfold closeCallOf in Hk. apply lookup_lt_is_Some.
      destruct (heap (step v st ev) !! c); [eauto|done]. }
    rewrite step_length_eq in Hlt' by done.
    destruct ev as [g s u|?|?|?]; try lia.
    assert (c = length (heap st)) as -> by lia. simpl in *.
    destruct (on_connection_new v g s u st Hinv) as [Hyes Hno].
    destruct (acceptable g s u).
    + destruct Hyes as (_ & _ & Hk' & _); [done|]. congruence.
    + destruct Hno as (Hq & Hz & [(_ & _ & Hk')|(_ & _ & Hk')]); [done|..];
        rewrite Hk' in Hk; injection Hk as <- <-; rewrite Hq, Hz;
        split_and!; try done; left; auto.
Qed.

(** X5. The server closes a socket only with code 1008: a connection it
    turned away, which has no [query], with the reason of the failed
    check; or, in the keyed draft only, an admitted connection that a
    newer one superseded.  A socket the server closed is not open. *)
Theorem server_close_calls v events c code reason :
  let st := run v events in
  closeCallOf st c = Some (code, reason) →
  code = 1008 ∧ stateOf st c ≠ Some OPEN
  ∧ (queryOf st c = None
     ∧ (reason = "Missing gigId, sellerId, or userId"
        ∨ reason = "Invalid gigId, sellerId, or userId")
     ∨ v = Keyed ∧ is_Some (queryOf st c) ∧ reason = "Duplicate connection").
Proof.
  intros st. subst st. revert c code reason.
  apply (run_ind (close_calls_ok v) v).
  - intros c code reason H. by unfold closeCallOf in H.
  - apply close_calls_step.
Qed.

(** *** The ["connection"] listener *)

(** X6. A connection whose three parameters are present and valid is
    admitted without a word: the socket is open and a client of the
    server, its [query] holds the parameters, nothing is written to it, it
    is given no close, and nothing is stored. *)
Theorem valid_connection_is_admitted v events gigId sellerId userId :
  let st := run v events in
  let st' := run v (events ++ [Connection gigId sellerId userId]) in
  let ws := length (heap st) in
  acceptable gigId sellerId userId = true →
  queryOf st' ws = Some (Query.mk (val gigId) (val sellerId) (val userId))
  ∧ stateOf st' ws = Some OPEN
  ∧ outbox st' ws = []
  ∧ closeCallOf st' ws = None
  ∧ ws ∈ clients st'
  ∧ Message st' = Message st.
Proof.
  intros st st' ws Hacc. subst st'. rewrite run_snoc. fold st. simpl.
  pose proof (invariant_run v events) as Hinv. fold st in Hinv.
  destruct (on_connection_new v gigId sellerId userId st Hinv) as [Hyes _].
  destruct (Hyes Hacc) as (Hq & Hs & Hk & Ho). fold ws in Hq, Hs, Hk, Ho.
  split_and!; try done.
  - apply open_is_client; [|done].
    by destruct (invariant_on_connection v gigId sellerId userId st Hinv).
  - by apply on_connection_Message.
Qed.

(** X7. The reasons a connection is turned away with.  A parameter that is
    absent or empty is reported first, as "Missing required query
    parameters", whatever the other parameters are; only when all three
    are present is a parameter that fails [ObjectId.isValid] reported, as
    "Invalid gigId, sellerId, or userId".  Either way the older sockets
    are left as they are. *)
Theorem connection_rejection_reasons v events gigId sellerId userId :
  let st := run v events in
  let st' := run v (events ++ [Connection gigId sellerId userId]) in
  let ws := length (heap st) in
  acceptable gigId sellerId userId = false →
  (if truthy gigId && truthy sellerId && truthy userId
   then outbox st' ws = [ErrorFrame "Invalid gigId, sellerId, or userId"]
        ∧ closeCallOf st' ws = Some (1008, "Invalid gigId, sellerId, or userId")
   else outbox st' ws = [ErrorFrame "Missing required query parameters"]
        ∧ closeCallOf st' ws = Some (1008, "Missing gigId, sellerId, or userId"))
  ∧ ∀ c, c ≠ ws →
      untouched st st' c ∧ outbox st' c = outbox st c
      ∧ queryOf st' c = queryOf st c.
Proof.
  intros st st' ws Hacc. subst st'. rewrite run_snoc. fold st. simpl.
  pose proof (invariant_run v events) as Hinv. fold st in Hinv.
  destruct (on_connection_new v gigId sellerId userId st Hinv) as [_ Hno].
  destruct (Hno Hacc) as (_ & _ & Hcase). fold ws in Hcase.
  split.
  - destruct Hcase as [(-> & ? & ?)|(-> & ? & ?)]; by split.
  - intros c Hne. split_and!.
    + destruct (on_connection_sockets v gigId sellerId userId st c Hinv Hne)
        as [?|(_ & _ & ? & _)]; [done|congruence].
    + by destruct (on_connection_frame v gigId sellerId userId st Hinv)
        as (_ & _ & -> & _).
    + destruct (on_connection_rejected v gigId sellerId userId st Hacc)
        as (e & reason & ->).
      rewrite queryOf_close, queryOf_send.
      by destruct (accept_spec st) as (-> & _).
Qed.

Lemma registry_unused_step v st ev :
  v ≠ Keyed → invariant st → registry_unused st → registry_unused (step v st ev).
Proof.
  intros Hv Hinv (Hs & Ha & Hk).
  destruct ev as [g s u|ws data now|ws|ws]; simpl.
  - destruct (acceptable g s u) eqn:Hacc.
    + rewrite on_connection_admitted by done.
      destruct (admitted_spec (Query.mk (val g) (val s) (val u)) st)
        as ((_ & Hs' & Ha' & _) & _ & Hk' & _).
      assert (registry_unused
                (on_socket (set_query (Query.mk (val g) (val s) (val u)))
                   (length (heap st)) (accept st))) as H.
      { split_and!; [congruence|congruence|]. intros c. by rewrite Hk'. }
      by destruct v.
    + destruct (on_connection_rejected v g s u st Hacc) as (e & reason & ->).
      split_and!; [done|done|]. intros c.
      rewrite closureOf_close, closureOf_send.
      destruct (accept_spec st) as (_ & -> & _). apply Hk.
  - destruct (is_closed ws st); [done|].
    destruct (on_message_effect v ws data now st Hinv) as (Hsk & _).
    split_and!.
    + by rewrite (sk_sets _ _ Hsk).
    + by rewrite (sk_active _ _ Hsk).
    + intros c. by rewrite (sk_closure _ _ Hsk).
  - pose proof (same_view_peer_closing ws st) as Hvw.
    split_and!; [done|done|]. intros c. by rewrite (vw_closure _ _ Hvw).
  - destruct (is_closed ws st) eqn:Hcl; [done|].
    assert (on_close v ws (transport_closed ws st) = transport_closed ws st) as ->
      by (by destruct v).
    split_and!; [done|done|]. intros c.
    destruct (transport_closed_spec ws st (is_closed_false_lt _ _ Hcl))
      as (_ & _ & -> & _).
    apply Hk.
Qed.

Lemma registry_unused_run v events : v ≠ Keyed → registry_unused (run v events).
Proof.
  intros Hv. apply (run_ind registry_unused v).
  - by split_and!.
  - intros st ev. by apply registry_unused_step.
Qed.

(** X8. The ESM and windowed drafts keep no registry and supersede
    nothing: the map and the sets stay empty, and a connection leaves
    every older socket as it is, also one admitted for the same user and
    the same gig. *)
Theorem other_drafts_supersede_nothing v events gigId sellerId userId :
  let st := run v events in
  let st' := run v (events ++ [Connection gigId sellerId userId]) in
  v ≠ Keyed →
  sets st' = [] ∧ activeConnections st' = ∅
  ∧ ∀ c, c ≠ length (heap st) →
      untouched st st' c ∧ outbox st' c = outbox st c
      ∧ queryOf st' c = queryOf st c.
Proof.
  intros st st' Hv.
  destruct (registry_unused_run v (events ++ [Connection gigId sellerId userId]) Hv)
    as (Hs & Ha & _).
  split_and!; try done. intros c Hne.
  subst st'. rewrite run_snoc. fold st.
  pose proof (invariant_run v events) as Hinv. fold st in Hinv.
  split_and!.
  - destruct (on_connection_sockets v gigId sellerId userId st c Hinv Hne)
      as [?|(_ & ? & _)]; done.
  - by destruct (on_connection_frame v gigId sellerId userId st Hinv)
      as (_ & _ & -> & _).
  - destruct (decide (c < length (heap st))%nat) as [Hlt|Hge].
    + by apply (step_query v st (Connection gigId sellerId userId)).
    + simpl. unfold queryOf.
      rewrite !lookup_ge_None_2; [done|lia|].
      destruct (on_connection_frame v gigId sellerId userId st Hinv) as (-> & _).
      lia.
Qed.

Lemma on_connection_registered g s u st c :
  invariant st → acceptable g s u = true →
  let st' := on_connection Keyed g s u st in
  registered st' c ↔
    c = length (heap st)
    ∨ registered st c
      ∧ ¬ (∃ r cq, activeConnections st !! val u = Some r ∧ c ∈ members r st
             ∧ queryOf st c = Some cq ∧ Query.gigId cq = val g).
Proof.
  intros (Hcl & Hst & Hreg) Hacc st'. subst st'.
  destruct (admit_keyed_spec g s u st Hreg Hacc)
    as (r & Hcase & Ha & _ & _ & _ & _ & _ & _ & _ & _ & _ & Hoth & Hmem & _).
  assert (∀ r', is_Some (activeConnections st !! val u) →
                 activeConnections st !! val u = Some r' → r' = r) as Hsame.
  { intros r' _ H. destruct Hcase as [H'|[H' _]]; congruence. }
  split.
  - intros (u' & r' & Hact & Hin). rewrite Ha in Hact.
    destruct (decide (r' = r)) as [->|Hne].
    + apply Hmem in Hin as [->|[Hin Hnv]]; [by left|]. right.
      destruct Hcase as [Hr|[_ ->]].
      * split; [by exists (val u), r|].
        intros (r0 & cq & Hr0 & _ & Hq & Hg). apply Hnv. eauto.
      * unfold members in Hin.
        rewrite lookup_ge_None_2 in Hin by lia. by apply elem_of_nil in Hin.
    + rewrite Hoth in Hin by done.
      assert (u' ≠ val u) as Hu.
      { intros ->. rewrite lookup_insert_eq in Hact. congruence. }
      rewrite lookup_insert_ne in Hact by done. right.
      split; [by exists u', r'|].
      intros (r0 & cq & Hr0 & Hin0 & _).
      apply (reg_member _ Hreg) in Hin as [_ Hk].
      apply (reg_member _ Hreg) in Hin0 as [_ Hk0].
      assert (r0 = r) by (apply Hsame; [eauto|done]). congruence.
  - intros [->|[(u' & r' & Hact & Hin) Hnv]].
    + exists (val u), r. rewrite Ha, lookup_insert_eq. split; [done|].
      apply Hmem. by left.
    + destruct (decide (u' = val u)) as [->|Hu].
      * assert (r' = r) as -> by (apply Hsame; [eauto|done]).
        exists (val u), r. rewrite Ha, lookup_insert_eq. split; [done|].
        apply Hmem. right. split; [done|].
        intros (cq & Hq & Hg). apply Hnv. by exists r, cq.
      * assert (r' ≠ r) as Hne.
        { intros ->. destruct Hcase as [Hr|[_ ->]].
          - apply (reg_member _ Hreg) in Hin as [[q Hq] Hk].
            apply Hu.
            rewrite <- (reg_owner _ Hreg c r q u' Hk Hq Hact).
            apply (reg_owner _ Hreg c r q (val u) Hk Hq Hr).
          - apply (reg_bucket _ Hreg) in Hact as [? _]. lia. }
        exists u', r'. rewrite Ha, lookup_insert_ne by done.
        split; [done|]. by rewrite Hoth.
Qed.

(** X9. The eviction of the keyed draft is scoped to the user and the gig
    of the new connection: a socket admitted for another user, or for the
    same user and another gig, is left as it is and stays in the
    registry. *)
Theorem eviction_is_scoped events gigId sellerId userId c qc :
  let st := run Keyed events in
  let st' := run Keyed (events ++ [Connection gigId sellerId userId]) in
  queryOf st c = Some qc →
  Query.userId qc ≠ val userId ∨ Query.gigId qc ≠ val gigId →
  untouched st st' c
  ∧ outbox st' c = outbox st c
  ∧ queryOf st' c = Some qc
  ∧ (registered st c → registered st' c).
Proof.
  intros st st' Hq Hother. subst st'. rewrite run_snoc. fold st.
  pose proof (invariant_run Keyed events) as Hinv. fold st in Hinv.
  pose proof Hinv as (_ & _ & Hreg).
  assert (c < length (heap st))%nat as Hlt by (apply queryOf_lt; eauto).
  assert (¬ (∃ r cq, activeConnections st !! val userId = Some r
               ∧ c ∈ members r st ∧ queryOf st c = Some cq
               ∧ Query.gigId cq = val gigId)) as Hnv.
  { intros (r & cq & Hr & Hin & Hq' & Hg).
    assert (cq = qc) as -> by congruence.
    pose proof (registered_userId st c qc (val userId) r Hreg Hr Hin Hq).
    destruct Hother; congruence. }
  split_and!.
  - destruct (on_connection_sockets Keyed gigId sellerId userId st c Hinv)
      as [?|(_ & _ & _ & Hv)]; [lia|done|]. by destruct Hnv.
  - destruct (on_connection_frame Keyed gigId sellerId userId st Hinv)
      as (_ & _ & Ho & _).
    apply Ho. lia.
  - rewrite <- Hq. by apply (step_query Keyed st (Connection gigId sellerId userId)).
  - intros Hr. simpl. destruct (acceptable gigId sellerId userId) eqn:Hacc.
    + apply on_connection_registered; [done|done|]. by right.
    + destruct (on_connection_rejected Keyed gigId sellerId userId st Hacc)
        as (e & reason & ->).
      exact Hr.
Qed.

(** *** The registry of the keyed draft *)

Lemma registered_ext st st' c :
  sets st' = sets st → activeConnections st' = activeConnections st →
  registered st' c ↔ registered st c.
Proof.
  intros Hs Ha. unfold registered, members. by rewrite Hs, Ha.
Qed.

Lemma on_close_active v ws st u r :
  activeConnections (on_close v ws st) !! u = Some r →
  activeConnections st !! u = Some r.
Proof.
  unfold on_close.
  destruct v; try done.
  destruct (closureOf st ws) as [r0|]; [|done].
  destruct (queryOf st ws) as [q|]; [|done].
  destruct (length _ =? 0)%nat; simpl; [|done].
  by intros [_ ?]%lookup_delete_Some.
Qed.

Lemma on_close_registered v ws st c :
  registered (on_close v ws (transport_closed ws st)) c → registered st c.
Proof.
  intros (u & r & Ha & Hin). exists u, r. split.
  - by apply on_close_active in Ha.
  - by apply on_close_members in Hin.
Qed.

Lemma registered_lt st c :
  registry_ok st → registered st c → (c < length (heap st))%nat.
Proof.
  intros Hreg (u & r & _ & Hin).
  apply queryOf_lt. by apply (reg_member _ Hreg) in Hin as [? _].
Qed.

Lemma closed_not_registered ws st :
  invariant st → is_closed ws st = false →
  ¬ registered (on_close Keyed ws (transport_closed ws st)) ws.
Proof.
  intros Hinv Hcl Hr. destruct (queryOf st ws) as [q|] eqn:Hq.
  - destruct (closed_is_gone ws q st Hinv Hq Hcl) as (_ & _ & Hno).
    destruct Hr as (u & r & _ & Hin). by apply (Hno r).
  - apply on_close_registered in Hr. destruct Hinv as (_ & _ & Hreg).
    destruct Hr as (u & r & _ & Hin).
    apply (reg_member _ Hreg) in Hin as [[q' Hq'] _]. congruence.
Qed.

Lemma registry_live_step st ev :
  invariant st → registry_live st → registry_live (step Keyed st ev).
Proof.
  intros Hinv IH c Hr. pose proof Hinv as (_ & _ & Hreg).
  destruct ev as [g s u|ws data now|ws|ws]; cbn [step] in *.
  - destruct (acceptable g s u) eqn:Hacc.
    + apply on_connection_registered in Hr as [->|[Hr Hnv]]; try done.
      * destruct (admit_keyed_sockets g s u st Hreg Hacc) as (Hs & Hk & _).
        split; [by apply stateOf_open_not_closed|done].
      * destruct (IH c Hr) as [Hcl Hk].
        pose proof (registered_lt st c Hreg Hr) as Hlt.
        destruct (on_connection_sockets Keyed g s u st c Hinv)
          as [[Hz Hk']|(_ & _ & _ & Hv)]; [lia| |by destruct Hnv].
        split; [|congruence]. rewrite <- Hcl. by apply is_closed_stateOf.
    + destruct (on_connection_rejected Keyed g s u st Hacc) as (e & reason & E).
      rewrite E in Hr.
      assert (registered st c) as Hr' by exact Hr.
      destruct (IH c Hr') as [Hcl Hk].
      pose proof (registered_lt st c Hreg Hr') as Hlt.
      destruct (on_connection_sockets Keyed g s u st c Hinv)
        as [[Hz Hk']|(_ & _ & ? & _)]; [lia| |congruence].
      split; [|congruence]. rewrite <- Hcl. by apply is_closed_stateOf.
  - destruct (is_closed ws st); [by apply IH|].
    destruct (on_message_effect Keyed ws data now st Hinv) as (Hsk & _).
    apply (registered_ext st) in Hr;
      [|apply (sk_sets _ _ Hsk)|apply (sk_active _ _ Hsk)].
    destruct (IH c Hr) as [Hcl Hk]. split.
    + rewrite <- Hcl. apply is_closed_stateOf, (sk_state _ _ Hsk).
    + by rewrite (sk_closeCall _ _ Hsk).
  - assert (registered st c) as Hr' by exact Hr.
    destruct (IH c Hr') as [Hcl Hk]. split.
    + by rewrite (vw_closed _ _ (same_view_peer_closing ws st)).
    + rewrite <- Hk. apply closeCallOf_on_socket. intros w.
      unfold peer_closing. by destruct (readyState w).
  - destruct (is_closed ws st) eqn:Hws; [by apply IH|].
    assert (c ≠ ws) as Hne.
    { intros ->. by apply (closed_not_registered ws st Hinv Hws). }
    apply on_close_registered in Hr. destruct (IH c Hr) as [Hcl Hk].
    pose proof (registered_lt st c Hreg Hr) as Hlt.
    destruct (step_sockets Keyed st (Closed ws) c Hinv Hlt)
      as [[Hz Hk']|[(_ & _ & g & s & u & r & cq & ? & _)|[(? & _)|(? & _)]]];
      try congruence.
    cbn [step] in Hz, Hk'. rewrite Hws in Hz, Hk'.
    split; [|congruence]. rewrite <- Hcl. by apply is_closed_stateOf.
Qed.

(** X10. The registry of the keyed draft holds live connections only: a
    socket in the set of a user was admitted for that user, reads that
    very set in its handlers, is not closed, is a client of the server,
    and was never given a close by the server.  So neither a connection
    that was turned away nor one that was superseded is in the map. *)
Theorem registered_connection_is_live events c userId r :
  let st := run Keyed events in
  activeConnections st !! userId = Some r → c ∈ members r st →
  (∃ q, queryOf st c = Some q ∧ Query.userId q = userId)
  ∧ closureOf st c = Some r
  ∧ is_closed c st = false
  ∧ c ∈ clients st
  ∧ closeCallOf st c = None.
Proof.
  intros st Ha Hin.
  pose proof (invariant_run Keyed events) as Hinv. fold st in Hinv.
  pose proof Hinv as ((_ & Hcl) & _ & Hreg).
  assert (registry_live st) as Hlive.
  { subst st. apply (run_ind registry_live Keyed).
    - intros c' (u' & r' & H & _). done.
    - apply registry_live_step. }
  destruct (Hlive c) as [Hopen Hk]; [by exists userId, r|].
  destruct (reg_member _ Hreg r c Hin) as [[q Hq] Hclo].
  split_and!; try done.
  - exists q. split; [done|]. by apply (reg_owner _ Hreg c r q userId).
  - by apply Hcl.
Qed.

(** *** The ["close"] event *)

Lemma closed_is_gone_any v ws st :
  invariant st → (v ≠ Keyed → registry_unused st) →
  is_closed ws st = false →
  gone ws (on_close v ws (transport_closed ws st)).
Proof.
  intros Hinv Hun Hcl. pose proof Hinv as (_ & _ & Hreg).
  pose proof (is_closed_false_lt _ _ Hcl) as Hlt.
  destruct (on_close_frame v ws (transport_closed ws st)) as (Hh & _).
  destruct (transport_closed_spec ws st Hlt) as (_ & _ & _ & Hs & _).
  assert (stateOf (on_close v ws (transport_closed ws st)) ws = Some CLOSED) as Hz.
  { unfold stateOf at 1. rewrite Hh.
    specialize (Hs ws). by rewrite decide_True in Hs. }
  split_and!.
  - rewrite Hh. unfold transport_closed, on_socket. simpl.
    by rewrite length_alter.
  - unfold is_closed. rewrite Hz. by apply bool_decide_eq_true.
  - intros r Hin. destruct (decide (v = Keyed)) as [->|Hv].
    + destruct (queryOf st ws) as [q|] eqn:Hq.
      * destruct (closed_is_gone ws q st Hinv Hq Hcl) as (_ & _ & Hno).
        by destruct (Hno r).
      * apply on_close_members in Hin.
        assert (ws ∈ members r st) as Hin' by exact Hin.
        apply (reg_member _ Hreg) in Hin' as [[q' Hq'] _]. congruence.
    + apply on_close_members in Hin.
      destruct (Hun Hv) as (Hs0 & _).
      unfold members, transport_closed in Hin. simpl in Hin.
      rewrite Hs0 in Hin. by apply elem_of_nil in Hin.
Qed.

(** X11. In every draft, and for a connection that was turned away as
    for an admitted one: once the ["close"] event of a socket has been
    handled the socket is closed for good, is no client of the server, is
    in no set and in no audience, and nothing is written to it any
    more. *)
Theorem closed_socket_is_out v events ws later :
  let st0 := run v events in
  let st := run v ((events ++ [Closed ws]) ++ later) in
  is_closed ws st0 = false →
  stateOf st ws = Some CLOSED
  ∧ (ws ∉ clients st)
  ∧ (∀ key, ws ∉ matching key st)
  ∧ ¬ registered st ws
  ∧ outbox st ws = outbox st0 ws.
Proof.
  intros st0 st Hcl.
  pose proof (invariant_run v events) as Hinv0. fold st0 in Hinv0.
  pose proof (invariant_run v ((events ++ [Closed ws]) ++ later)) as Hinv.
  fold st in Hinv.
  assert (gone ws (run v (events ++ [Closed ws]))
          ∧ outbox (run v (events ++ [Closed ws])) ws = outbox st0 ws)
    as [Hgone Ho1].
  { rewrite run_snoc. fold st0. simpl. rewrite Hcl. split.
    - apply closed_is_gone_any; [done| |done].
      intros Hv. by apply registry_unused_run.
    - destruct (on_close_frame v ws (transport_closed ws st0)) as (Hh & _).
      unfold outbox at 1. rewrite Hh.
      destruct (transport_closed_spec ws st0 (is_closed_false_lt _ _ Hcl))
        as (_ & _ & _ & _ & Ho).
      apply Ho. }
  destruct (gone_fold v later _ ws (invariant_run v (events ++ [Closed ws])) Hgone)
    as ((Hlt & Hclosed & Hno) & Ho).
  rewrite <- run_app in Hlt, Hclosed, Hno, Ho. fold st in Hlt, Hclosed, Hno, Ho.
  assert (ws ∉ clients st) as Hout.
  { destruct Hinv as ((_ & Hc) & _). rewrite Hc. congruence. }
  split_and!.
  - unfold is_closed in Hclosed. destruct (stateOf st ws) as [s|] eqn:Hs.
    + by apply bool_decide_eq_true in Hclosed as ->.
    + unfold stateOf in Hs. destruct (lookup_lt_is_Some_2 _ _ Hlt) as [w Hw].
      by rewrite Hw in Hs.
  - done.
  - intros key Hin. apply matching_audience in Hin as [? _]. done.
  - intros (u & r & _ & Hin). by apply (Hno r).
  - congruence.
Qed.

(** *** What is written to the sockets *)

Lemma sendable_step v st ev c :
  invariant st →
  (∀ f, f ∈ outbox st c → sendable v st f) →
  ∀ f, f ∈ outbox (step v st ev) c → sendable v (step v st ev) f.
Proof.
  intros Hinv IH f Hin.
  destruct (step_outbox v st ev c Hinv) as [E|(f' & E & Hf' & _)];
    rewrite E in Hin.
  - apply (sendable_mono v st); [by apply step_prefix|by apply IH].
  - apply elem_of_app in Hin as [Hin|Hin].
    + apply (sendable_mono v st); [by apply step_prefix|by apply IH].
    + apply list_elem_of_singleton in Hin as ->. done.
Qed.

(** X12. Every frame the server ever wrote to a socket is an error with
    one of the reasons of the two listeners of the draft, or a document
    that is in the collection together with the profile of its sender.
    So no message is delivered that was not stored, the error of the
    [!populatedMessage] branch is never sent, and "Duplicate message
    detected" is sent by the windowed draft only. *)
Theorem frames_on_the_wire v events c f :
  let st := run v events in
  f ∈ outbox st c →
  match f with
  | ErrorFrame error => error ∈ connection_errors ++ message_errors v
  | MessageFrame p =>
      doc p ∈ Message st ∧ sender p = findUser (Stored.userId (doc p))
  end.
Proof.
  intros st. subst st. revert f.
  apply (run_ind (λ st, ∀ f, f ∈ outbox st c → sendable v st f) v).
  - intros f Hin. unfold outbox in Hin. simpl in Hin. by apply elem_of_nil in Hin.
  - intros st ev Hinv IH. by apply sendable_step.
Qed.

(** X22. An event writes at most one frame to a socket, at the end of what
    was written before, and only to a socket that was open or that the
    event created: no frame is ever taken back or written twice, also not
    to a connection that matches the audience test on both counts. *)
Theorem one_frame_per_event v events ev c :
  let st := run v events in
  let st' := run v (events ++ [ev]) in
  outbox st' c = outbox st c
  ∨ ∃ f, outbox st' c = outbox st c ++ [f]
      ∧ (stateOf st c = Some OPEN ∨ stateOf st c = None).
Proof.
  intros st st'. subst st'. rewrite run_snoc. fold st.
  destruct (step_outbox v st ev c (invariant_run v events))
    as [?|(f & ? & _ & [?|?])]; [by left|right..].
  - exists f. split; [done|by left].
  - exists f. split; [done|right]. by apply stateOf_None_ge.
Qed.

(** *** The ["message"] listener *)

(** The event that stored a document. *)
Lemma step_stored v st ev saved :
  invariant st → Message (step v st ev) = Message st ++ [saved] →
  ∃ ws q m now st1,
    ev = Incoming ws (Some m) now ∧ is_closed ws st = false
    ∧ queryOf st ws = Some q ∧ well_formed m = true ∧ novel v m now st
    ∧ create v m now (dedup_key v m now) st = Some (saved, st1)
    ∧ step v st ev = deliver ws q saved st1.
Proof.
  intros Hinv HM.
  destruct (step_Message v st ev Hinv) as [E|(ws & m & now & saved0 & -> & _)].
  { rewrite E in HM. by apply snoc_neq in HM. }
  simpl in *. destruct (is_closed ws st) eqn:Hcl; [by apply snoc_neq in HM|].
  destruct (on_message_cases v ws (Some m) now st)
    as [E|[(error & _ & E)|(q & m' & saved' & st1 & Hq & [= <-] & Hwf & Hnov & Hc & E)]].
  - rewrite E in HM. by apply snoc_neq in HM.
  - rewrite E in HM. by apply snoc_neq in HM.
  - destruct (accepted_effect v ws q m now _ saved' st1 st Hinv Hc) as (HM' & _).
    rewrite E, HM' in HM. apply app_inj_tail in HM as [_ ->].
    by exists ws, q, m, now, st1.
Qed.

Lemma create_is_Some v m now mid st :
  is_Some (create v m now mid st) ↔
  is_Some (createFromHexString (val (Inbound.gigId m)))
  ∧ is_Some (createFromHexString (val (Inbound.senderId m)))
  ∧ (truthy (Inbound.recipientId m) = true →
     is_Some (createFromHexString (val (Inbound.recipientId m))))
  ∧ ∃ t, timestamp_arg v m now = Some t ∧ Z.abs t ≤ maxTime.
Proof.
  unfold create.
  destruct (createFromHexString (val (Inbound.gigId m))) as [g|]; simpl;
    [|split; [by intros [? ?]|by intros ([? ?] & _)]].
  destruct (createFromHexString (val (Inbound.senderId m))) as [u|]; simpl;
    [|split; [by intros [? ?]|by intros (_ & [? ?] & _)]].
  assert (∀ rec : option (option ObjectId),
    is_Some (rec ≫= λ recipientId,
      (timestamp_arg v m now ≫= new_Date) ≫= λ timestamp,
        Some (Stored.mk (length (Message st)) g u recipientId
                (val (Inbound.text m)) timestamp,
              with_Message
                (Message st
                 ++ [Stored.mk (length (Message st)) g u recipientId
                       (val (Inbound.text m)) timestamp]) st))
    ↔ is_Some rec ∧ ∃ t, timestamp_arg v m now = Some t ∧ Z.abs t ≤ maxTime)
    as Hrest.
  { intros [rec|]; simpl; [|split; [by intros [? ?]|by intros ([? ?] & _)]].
    destruct (timestamp_arg v m now) as [t|]; simpl.
    - unfold new_Date. case_bool_decide; simpl.
      + split; [intros _; split; eauto|eauto].
      + split; [by intros [? ?]|]. intros (_ & t' & [= <-] & ?). lia.
    - split; [by intros [? ?]|]. by intros (_ & t' & ? & _). }
  rewrite Hrest. destruct (truthy (Inbound.recipientId m)).
  - destruct (createFromHexString (val (Inbound.recipientId m))); simpl.
    + split; [intros [_ ?]; split_and!; eauto|intros (_ & _ & _ & ?); eauto].
    + split; [by intros [[? ?] _]|].
      intros (_ & _ & Hr & _). by destruct Hr.
  - split; [intros [_ ?]; split_and!; eauto; done|intros (_ & _ & _ & ?); eauto].
Qed.

(** The duplicate check of the keyed draft finds nothing, whatever is
    stored. *)
Lemma findOne_messageId messageId st :
  findOne (messageId_filter messageId) st = None.
Proof. unfold findOne. by apply find_None. Qed.

Lemma novel_windowed v m now st :
  novel v m now st ↔
  (v = Windowed →
   ∃ filter, windowed_filter m = Some filter ∧ findOne filter st = None).
Proof.
  destruct v; simpl.
  - split; [by intros _ ?|done].
  - split; [by intros ? _|]. intros H. by apply H.
  - split; [by intros _ ?|]. intros _. apply findOne_messageId.
Qed.

(** X13. With the listeners run one after the other, a message is stored
    exactly when its connection was admitted and is not closed, the data
    parses, the message passes the two validations, in the windowed draft
    the look-back query finds nothing, the identifiers are accepted by
    [createFromHexString] and the timestamp makes a valid date.  Nothing
    else is consulted: neither the user of the connection nor its gig,
    nor, in the keyed draft, the [messageId], whose query never finds a
    document. *)
Theorem message_is_stored_iff v events ws data now :
  let st := run v events in
  let st' := run v (events ++ [Incoming ws data now]) in
  (∃ saved, Message st' = Message st ++ [saved]) ↔
  is_closed ws st = false ∧ is_Some (queryOf st ws)
  ∧ ∃ m, data = Some m ∧ well_formed m = true
      ∧ (v = Windowed →
         ∃ filter, windowed_filter m = Some filter ∧ findOne filter st = None)
      ∧ is_Some (createFromHexString (val (Inbound.gigId m)))
      ∧ is_Some (createFromHexString (val (Inbound.senderId m)))
      ∧ (truthy (Inbound.recipientId m) = true →
         is_Some (createFromHexString (val (Inbound.recipientId m))))
      ∧ ∃ t, timestamp_arg v m now = Some t ∧ Z.abs t ≤ maxTime.
Proof.
  intros st st'. subst st'. rewrite run_snoc. fold st.
  pose proof (invariant_run v events) as Hinv. fold st in Hinv.
  split.
  - intros [saved HM].
    destruct (step_stored v st _ saved Hinv HM)
      as (ws' & q & m & now' & st1 & [= <- -> <-] & Hcl & Hq & Hwf & Hnov & Hc & _).
    split_and!; [done|eauto|].
    exists m. split_and!; try done;
      [by apply (proj1 (novel_windowed v m now st))
      |by apply (create_is_Some v m now (dedup_key v m now) st)..].
  - intros (Hcl & [q Hq] & m & -> & Hwf & Hnov & Hcreate).
    apply (proj2 (novel_windowed v m now st)) in Hnov.
    apply (create_is_Some v m now (dedup_key v m now) st) in Hcreate
      as [[saved st1] Hc].
    exists saved. simpl. rewrite Hcl.
    rewrite (on_message_accepts v ws q m now st saved st1) by done.
    by destruct (accepted_effect v ws q m now _ saved st1 st Hinv Hc) as (-> & _).
Qed.

(** X14. What the stored document is made of: the user is the [senderId]
    of the message (not the user of the connection), the text is the text
    of the message, the recipient is the [recipientId] when there is a
    non-empty one and [null] otherwise, and the document comes last in
    the collection.  The [read] flag and the [messageId] that
    [Message.create] is given are no paths of the schema and are not part
    of the document. *)
Theorem stored_document_fields v events ws m now saved :
  let st := run v events in
  let st' := run v (events ++ [Incoming ws (Some m) now]) in
  Message st' = Message st ++ [saved] →
  createFromHexString (val (Inbound.senderId m)) = Some (Stored.userId saved)
  ∧ Stored.text saved = val (Inbound.text m)
  ∧ Stored.recipientId saved
    = (if truthy (Inbound.recipientId m)
       then createFromHexString (val (Inbound.recipientId m)) else None)
  ∧ Stored._id saved = length (Message st).
Proof.
  intros st st' HM. subst st'. rewrite run_snoc in HM. fold st in HM.
  pose proof (invariant_run v events) as Hinv. fold st in Hinv.
  destruct (step_stored v st _ saved Hinv HM)
    as (ws' & q & m' & now' & st1 & [= <- <- <-] & _ & _ & _ & _ & Hc & _).
  apply create_Some in Hc
    as (g & u & rec & t & _ & Hu & Hrec & _ & -> & _).
  simpl. split_and!; try done.
  destruct (truthy (Inbound.recipientId m)); [|congruence].
  destruct (createFromHexString (val (Inbound.recipientId m))); simpl in Hrec;
    congruence.
Qed.

Lemma error_reply v events ws data now error :
  let st := run v events in
  let st' := run v (events ++ [Incoming ws data now]) in
  stateOf st ws = Some OPEN →
  on_message v ws data now st = send ws (ErrorFrame error) st →
  outbox st' ws = outbox st ws ++ [ErrorFrame error]
  ∧ Message st' = Message st
  ∧ (∀ c, c ≠ ws → outbox st' c = outbox st c)
  ∧ same_skeleton st st'.
Proof.
  intros st st' Ho E. subst st'.
  rewrite run_incoming by (by apply stateOf_open_not_closed).
  fold st. rewrite E.
  destruct (rejected_effect ws error st Ho) as (? & ? & ? & ?). by split_and!.
Qed.

(** X15. Data that [JSON.parse] refuses is answered with "Server error"
    to the sender alone; nothing is stored and no socket changes. *)
Theorem unparseable_data_is_answered v events ws q now :
  let st := run v events in
  let st' := run v (events ++ [Incoming ws None now]) in
  queryOf st ws = Some q → stateOf st ws = Some OPEN →
  outbox st' ws = outbox st ws ++ [ErrorFrame "Server error"]
  ∧ Message st' = Message st
  ∧ (∀ c, c ≠ ws → outbox st' c = outbox st c)
  ∧ same_skeleton st st'.
Proof.
  intros st st' Hq Ho. apply error_reply; [done|].
  unfold on_message. fold st. by rewrite Hq.
Qed.

(** X16. The reason a message that fails a validation is answered with.
    A required field that is absent or empty is reported first, with the
    format error of the draft, whatever the identifiers are; only when
    [gigId], [senderId] and [text] are all present is an identifier that
    fails [ObjectId.isValid] reported, as "Invalid message IDs": the
    [gigId], the [senderId] or a non-empty [recipientId].  Nothing is
    stored and nobody else is written to. *)
Theorem ill_formed_message_reason v events ws q m now :
  let st := run v events in
  let st' := run v (events ++ [Incoming ws (Some m) now]) in
  queryOf st ws = Some q → stateOf st ws = Some OPEN →
  well_formed m = false →
  outbox st' ws
  = outbox st ws
    ++ [ErrorFrame
          (if truthy (Inbound.gigId m) && truthy (Inbound.senderId m)
              && truthy (Inbound.text m)
           then "Invalid message IDs" else format_error v)]
  ∧ Message st' = Message st
  ∧ (∀ c, c ≠ ws → outbox st' c = outbox st c)
  ∧ same_skeleton st st'.
Proof.
  intros st st' Hq Ho Hwf. apply error_reply; [done|].
  unfold on_message. fold st. rewrite Hq. simpl.
  by destruct (handle_ill_formed_reason v ws q m now st Hwf) as [[-> ->]|[-> ->]].
Qed.

(** X17. The windowed draft has no fallback for the timestamp: a message
    that passes the validations but carries no timestamp makes the
    look-back date of the duplicate check invalid, is answered with
    "Server error" and is not stored. *)
Theorem windowed_needs_a_timestamp events ws q m now :
  let st := run Windowed events in
  let st' := run Windowed (events ++ [Incoming ws (Some m) now]) in
  queryOf st ws = Some q → stateOf st ws = Some OPEN →
  well_formed m = true → Inbound.timestamp m = None →
  outbox st' ws = outbox st ws ++ [ErrorFrame "Server error"]
  ∧ Message st' = Message st
  ∧ (∀ c, c ≠ ws → outbox st' c = outbox st c).
Proof.
  intros st st' Hq Ho Hwf Ht.
  destruct (error_reply Windowed events ws (Some m) now "Server error")
    as (? & ? & ? & _); [done| |done].
  unfold on_message. fold st. rewrite Hq. simpl.
  rewrite handle_well_formed by done. unfold store_and_route, windowed_filter.
  rewrite Ht.
  destruct (castObjectId (val (Inbound.gigId m))); [|done]. simpl.
  by destruct (castObjectId (val (Inbound.senderId m))).
Qed.

(** *** The duplicate checks *)

(** C10. The keyed draft makes the key of a message without [messageId]
    of the [senderId] and the timestamp alone, so two messages of one
    sender with the same timestamp and different texts get the same key.
    But the key decides nothing: [messageId] is no path of the schema, so
    the query for it finds no document and [Message.create] saves none,
    and the second message is stored and delivered like the first, where
    the listener means to ignore it as a duplicate. *)
Theorem keyed_same_key_is_stored_again
    events ws q m1 m2 now1 now2 t saved :
  let st := run Keyed events in
  let first := events ++ [Incoming ws (Some m1) now1] in
  let st1 := run Keyed first in
  let st2 := run Keyed (first ++ [Incoming ws (Some m2) now2]) in
  queryOf st ws = Some q →
  truthy (Inbound.messageId m1) = false →
  truthy (Inbound.messageId m2) = false →
  Inbound.gigId m2 = Inbound.gigId m1 →
  Inbound.senderId m2 = Inbound.senderId m1 →
  Inbound.recipientId m2 = Inbound.recipientId m1 →
  Inbound.timestamp m1 = Some t → Inbound.timestamp m2 = Some t → t ≠ 0 →
  truthy (Inbound.text m2) = true →
  Message st1 = Message st ++ [saved] →
  make_messageId m2 now2 = make_messageId m1 now1
  ∧ ∃ saved2, Message st2 = Message st ++ [saved; saved2]
      ∧ Stored.text saved2 = val (Inbound.text m2)
      ∧ broadcast_to q (frame_of saved2) st1 st2.
Proof.
  intros st first st1 st2 Hq Hid1 Hid2 Hgig Hsender Hrec Ht1 Ht2 Ht Htext HM.
  destruct (stored_inversion Keyed events ws (Some m1) now1 saved HM)
    as (q0 & m & st1' & Hq0 & [= <-] & Hwf & _ & Hc & _ & Hsk & Hcl).
  fold st in Hq0, Hc, Hsk, Hcl. fold first st1 in Hsk.
  assert (q0 = q) as -> by congruence.
  assert (∀ m now, truthy (Inbound.messageId m) = false →
            Inbound.timestamp m = Some t →
            make_messageId m now
            = val (Inbound.senderId m) +:+ ":" +:+ numberToString t) as Hkey.
  { intros m now Hid Htm. unfold make_messageId, timestamp_or_now.
    rewrite Hid, Htm. simpl. by rewrite bool_decide_false. }
  split; [by rewrite !Hkey, Hsender|].
  pose proof (invariant_run Keyed first) as Hinv1. fold st1 in Hinv1.
  assert (is_closed ws st1 = false) as Hcl1.
  { rewrite <- Hcl. apply is_closed_stateOf, (sk_state _ _ Hsk). }
  assert (queryOf st1 ws = Some q) as Hq1 by (by rewrite (sk_query _ _ Hsk)).
  assert (well_formed m2 = true) as Hwf2.
  { unfold well_formed in *. rewrite Hgig, Hsender, Hrec, Htext.
    repeat (apply andb_prop in Hwf as [Hwf ?]).
    repeat (apply andb_true_intro; split); done. }
  assert (is_Some (create Keyed m2 now2 (dedup_key Keyed m2 now2) st1))
    as [[saved2 st2'] Hc2].
  { apply create_is_Some.
    apply mk_is_Some, create_is_Some in Hc as (? & ? & ? & t' & Ht' & Hr).
    rewrite Hgig, Hsender, Hrec. split_and!; try done.
    exists t'. split; [|done]. rewrite <- Ht'.
    unfold timestamp_arg, timestamp_or_now. rewrite Ht1, Ht2. simpl.
    by rewrite bool_decide_false. }
  exists saved2. subst st2. rewrite run_incoming by done. fold st1.
  rewrite (on_message_accepts Keyed ws q m2 now2 st1 saved2 st2');
    [|done|done|apply findOne_messageId|done].
  destruct (accepted_effect Keyed ws q m2 now2 _ saved2 st2' st1 Hinv1 Hc2)
    as (HM' & _ & Hb).
  apply create_Some in Hc2 as (? & ? & ? & ? & _ & _ & _ & _ & Hs & _).
  split_and!.
  - rewrite HM', HM. by rewrite <- app_assoc.
  - by rewrite Hs.
  - done.
Qed.

Lemma spaced_step st ev :
  cast_agrees → invariant st → spaced st → spaced (step Windowed st ev).
Proof.
  intros Hcast Hinv IH.
  destruct (step_Message Windowed st ev Hinv)
    as [E|(_ & _ & _ & saved & _ & HM)].
  { unfold spaced. by rewrite E. }
  destruct (step_stored Windowed st ev saved Hinv HM)
    as (ws & q & m & now & st1 & _ & _ & _ & _ & Hnov & Hc & _).
  apply create_Some in Hc as (g & u & rec & t & Hg & Hu & _ & Ht & Hsaved & _).
  destruct Hnov as (filter & Hf & Hfind).
  apply windowed_filter_Some in Hf as (g' & u' & t' & Hg' & Hu' & Ht' & _ & ->).
  rewrite (Hcast _ _ Hg) in Hg'. rewrite (Hcast _ _ Hu) in Hu'.
  injection Hg' as <-. injection Hu' as <-.
  simpl in Ht. rewrite Ht' in Ht. simpl in Ht.
  apply new_Date_Some in Ht as [-> _].
  intros i j d1 d2 H1 H2 Hij Hsame. rewrite HM in H1, H2.
  apply lookup_snoc_Some in H2 as [[Hj H2]|[Hj <-]].
  - apply lookup_snoc_Some in H1 as [[_ H1]|[Hi _]]; [|lia].
    by apply (IH i j d1 d2).
  - apply lookup_snoc_Some in H1 as [[_ H1]|[Hi _]]; [|lia].
    unfold findOne in Hfind.
    pose proof (proj1 (find_None _ _) Hfind d1 (list_elem_of_lookup_2 _ _ _ H1))
      as Hno.
    simpl in Hno. destruct Hsame as (Hsg & Hsu & Hst).
    rewrite Hsaved in Hsg, Hsu, Hst. simpl in Hsg, Hsu, Hst.
    rewrite !bool_decide_eq_true_2 in Hno by done. simpl in Hno.
    apply bool_decide_eq_false in Hno. rewrite Hsaved. simpl. lia.
Qed.

(** X20. What the window of the windowed draft achieves for the
    collection when the listeners run one after the other, each message
    handled to its end before the next event: of two stored documents
    with the same gig, sender and text, the one stored later has a
    timestamp more than 5000 ms after the timestamp of the one stored
    earlier.  (Two listeners that overlap at their [await]s are outside
    this statement.) *)
Theorem windowed_copies_are_spaced events i j d1 d2 :
  let st := run Windowed events in
  cast_agrees →
  Message st !! i = Some d1 → Message st !! j = Some d2 → (i < j)%nat →
  same_content d1 d2 →
  Stored.timestamp d1 + 5000 < Stored.timestamp d2.
Proof.
  intros st Hcast. subst st. revert i j d1 d2.
  apply (run_ind spaced Windowed).
  - intros i j d1 d2 H. done.
  - intros st ev. by apply spaced_step.
Qed.

(** X21. The ESM draft checks for no duplicate: a message that was stored
    and is sent again on the same connection is stored again, as a new
    document with the same gig, sender and text, and is delivered
    again. *)
Theorem esm_stores_every_copy events ws q m now now' saved :
  let st := run ESM events in
  let first := events ++ [Incoming ws (Some m) now] in
  let st1 := run ESM first in
  let st2 := run ESM (first ++ [Incoming ws (Some m) now']) in
  queryOf st ws = Some q →
  Message st1 = Message st ++ [saved] →
  Z.abs now' ≤ maxTime →
  ∃ saved', Message st2 = Message st ++ [saved; saved']
    ∧ same_content saved saved'
    ∧ Stored._id saved' = S (Stored._id saved)
    ∧ broadcast_to q (frame_of saved') st1 st2.
Proof.
  intros st first st1 st2 Hq HM Hnow.
  destruct (stored_inversion ESM events ws (Some m) now saved HM)
    as (q0 & m0 & st1' & Hq0 & [= <-] & Hwf & _ & Hc & _ & Hsk & Hcl).
  fold st in Hq0, Hc, Hsk, Hcl. fold first st1 in Hsk.
  assert (q0 = q) as -> by congruence.
  pose proof (invariant_run ESM first) as Hinv1. fold st1 in Hinv1.
  assert (is_closed ws st1 = false) as Hcl1.
  { rewrite <- Hcl. apply is_closed_stateOf, (sk_state _ _ Hsk). }
  assert (queryOf st1 ws = Some q) as Hq1 by (by rewrite (sk_query _ _ Hsk)).
  assert (is_Some (create ESM m now' None st1)) as [[saved' st2'] Hc'].
  { apply create_is_Some.
    apply mk_is_Some, create_is_Some in Hc as (? & ? & ? & t & Ht & Hr).
    split_and!; try done. simpl in *. unfold timestamp_or_now in *.
    destruct (truthyN (Inbound.timestamp m)); [by exists t|].
    exists now'. done. }
  exists saved'. subst st2. rewrite run_incoming by done. fold st1.
  rewrite (on_message_accepts ESM ws q m now' st1 saved' st2') by done.
  destruct (accepted_effect ESM ws q m now' None saved' st2' st1 Hinv1 Hc')
    as (HM' & _ & Hb).
  apply create_Some in Hc as (g & u & rec & t & Hg & Hu & _ & _ & Hs & _).
  apply create_Some in Hc' as (g' & u' & rec' & t' & Hg' & Hu' & _ & _ & Hs' & _).
  split_and!.
  - rewrite HM', HM. by rewrite <- app_assoc.
  - rewrite Hs, Hs'. unfold same_content. simpl. split_and!; congruence.
  - rewrite Hs, Hs'. simpl. rewrite HM. rewrite length_app. simpl. lia.
  - done.
Qed.

Lemma on_close_keeps v ws st r c :
  c ∈ members r st → c ≠ ws → c ∈ members r (on_close v ws st).
Proof.
  intros Hin Hne. unfold on_close.
  destruct v, (closureOf st ws) as [r0|], (queryOf st ws); try done.
  assert (c ∈ members r (with_sets (alter (Set_delete ws) r0 (sets st)) st))
    as Hsub.
  { rewrite members_alter by done. fold (members r st).
    case_decide; [|done]. by apply elem_of_Set_delete. }
  by destruct (_ =? _)%nat.
Qed.

Lemma in_own_set_step st ev :
  invariant st → in_own_set st → in_own_set (step Keyed st ev).
Proof.
  intros Hinv IH c q Hq. pose proof Hinv as (_ & _ & Hreg).
  destruct ev as [g s u|ws data now|ws|ws]; cbn [step] in *.
  - destruct (acceptable g s u) eqn:Hacc.
    + destruct (admit_keyed_spec g s u st Hreg Hacc)
        as (r & _ & _ & _ & _ & _ & _ & _ & Hq' & Hk & _ & _ & Hoth & Hmem & Hvict).
      rewrite Hq' in Hq. rewrite Hk. case_decide as Hc.
      * exists r. split; [done|]. intros _. apply Hmem. by left.
      * destruct (IH c q Hq) as (rc & Hkc & Hin). exists rc. split; [done|].
        intros Hopen.
        assert (stateOf st c = Some OPEN) as Hopen0.
        { destruct (on_connection_sockets Keyed g s u st c Hinv Hc)
            as [[Hz _]|((_ & Hz & _) & _)]; congruence. }
        specialize (Hin Hopen0).
        destruct (decide (rc = r)) as [->|Hne]; [|by rewrite Hoth].
        apply Hmem. right. split; [done|].
        intros (cq & Hcq & Hg).
        by destruct (Hvict c cq Hin Hcq Hg) as [? _].
    + destruct (decide (c = length (heap st))) as [->|Hne].
      * destruct (on_connection_new Keyed g s u st Hinv) as [_ Hno].
        destruct (Hno Hacc) as (Hnone & _). congruence.
      * assert (c < length (heap st))%nat as Hlt.
        { assert (c < length (heap (on_connection Keyed g s u st)))%nat as Hlt'
            by (apply queryOf_lt; eauto).
          destruct (on_connection_frame Keyed g s u st Hinv) as (Hl & _).
          rewrite Hl in Hlt'. lia. }
        pose proof (step_query Keyed st (Connection g s u) c Hinv Hlt) as Hq'.
        cbn [step] in Hq'. rewrite Hq' in Hq.
        destruct (IH c q Hq) as (rc & Hkc & Hin).
        destruct (on_connection_sockets Keyed g s u st c Hinv Hne)
          as [[Hz _]|(_ & _ & ? & _)]; [|congruence].
        destruct (on_connection_rejected Keyed g s u st Hacc)
          as (e & reason & E).
        rewrite E in *. exists rc. split.
        -- rewrite closureOf_close, closureOf_send.
           by destruct (accept_spec st) as (_ & -> & _).
        -- intros Hopen. rewrite Hz in Hopen. exact (Hin Hopen).
  - destruct (is_closed ws st); [exact (IH c q Hq)|].
    destruct (on_message_effect Keyed ws data now st Hinv) as (Hsk & _).
    rewrite (sk_query _ _ Hsk) in Hq.
    destruct (IH c q Hq) as (rc & Hkc & Hin). exists rc.
    rewrite (sk_closure _ _ Hsk), (sk_state _ _ Hsk).
    split; [done|]. intros Hopen.
    rewrite (members_view st) by apply (sk_sets _ _ Hsk). by apply Hin.
  - pose proof (same_view_peer_closing ws st) as Hvw.
    rewrite (vw_query _ _ Hvw) in Hq.
    destruct (IH c q Hq) as (rc & Hkc & Hin). exists rc.
    rewrite (vw_closure _ _ Hvw). split; [done|]. intros Hopen.
    assert (c < length (heap st))%nat as Hlt by (apply queryOf_lt; eauto).
    assert (stateOf st c = Some OPEN) as Hopen0.
    { destruct (step_sockets Keyed st (PeerClosing ws) c Hinv Hlt)
        as [[Hz _]|[((Ho & _) & _)|[(_ & Ho & _)|(? & _)]]];
        [|done|done|done].
      cbn [step] in Hz. congruence. }
    exact (Hin Hopen0).
  - destruct (is_closed ws st) eqn:Hws; [exact (IH c q Hq)|].
    assert (c < length (heap st))%nat as Hlt.
    { pose proof (step_length_eq Keyed st (Closed ws) Hinv) as Hl.
      cbn [step] in Hl. rewrite Hws in Hl. rewrite <- Hl.
      apply queryOf_lt. eauto. }
    pose proof (step_query Keyed st (Closed ws) c Hinv Hlt) as Hq'.
    cbn [step] in Hq'. rewrite Hws in Hq'. rewrite Hq' in Hq.
    destruct (IH c q Hq) as (rc & Hkc & Hin). exists rc.
    destruct (on_close_frame Keyed ws (transport_closed ws st)) as (Hh & _).
    destruct (transport_closed_spec ws st (is_closed_false_lt _ _ Hws))
      as (_ & _ & Hk & Hs & _).
    split.
    + unfold closureOf at 1. rewrite Hh. rewrite <- Hkc. apply Hk.
    + intros Hopen. unfold stateOf at 1 in Hopen. rewrite Hh in Hopen.
      pose proof (Hs c) as Hsc. unfold stateOf at 1 in Hsc.
      rewrite Hsc in Hopen. case_decide as Hc; [done|].
      apply on_close_keeps; [|done]. exact (Hin Hopen).
Qed.

(** X23. In the keyed draft every admitted socket closes over a set of
    the server, and an admitted socket that is open is a member of that
    set: a connection leaves its set only when the server supersedes it
    or when it closes.  (The set itself may have lost its entry in the
    map, see [late_close_drops_a_live_set].) *)
Theorem open_connection_is_in_its_set events c q :
  let st := run Keyed events in
  queryOf st c = Some q →
  ∃ r, closureOf st c = Some r ∧ (r < length (sets st))%nat
    ∧ (stateOf st c = Some OPEN → c ∈ members r st).
Proof.
  intros st Hq.
  assert (in_own_set st) as Hown.
  { subst st. apply (run_ind in_own_set Keyed).
    - intros c' q' H. by unfold queryOf in H.
    - apply in_own_set_step. }
  destruct (Hown c q Hq) as (r & Hk & Hin). exists r.
  split_and!; [done| |done].
  pose proof (invariant_run Keyed events) as (_ & _ & Hreg).
  by apply (reg_closure _ Hreg c).
Qed.

End Extras.

(** ** The properties at work on concrete histories *)

#[local] Existing Instance sample_runtime.

(** The seller and the buyer of gig A are connected, and the buyer has a
    second connection for gig B; the buyer writes on the first. *)
Lemma message_reaches_both_parties_witness :
  let events :=
    [Connection (Some gigA) (Some seller) (Some seller);
     Connection (Some gigA) (Some seller) (Some buyer);
     Connection (Some gigB) (Some seller) (Some buyer)] in
  let m := chat gigA (Some "hi") (Some 1700000000000) in
  let saved :=
    note 0 gigA "hi" 1700000000000 in
  let st := run Keyed events in
  let st' := run Keyed (events ++ [Incoming 1 (Some m) 1700000000500]) in
  (queryOf st 1 = Some (Query.mk gigA seller buyer)
   ∧ queryOf st 0 = Some (Query.mk gigA seller seller)
   ∧ stateOf st 1 = Some OPEN ∧ stateOf st 0 = Some OPEN
   ∧ parties (Query.mk gigA seller buyer) (Query.mk gigA seller seller)
   ∧ Message st' = Message st ++ [saved])
  ∧ outbox st' 1 = outbox st 1 ++ [frame_of saved]
  ∧ outbox st' 0 = outbox st 0 ++ [frame_of saved]
  ∧ ∀ c qc, queryOf st c = Some qc → Query.gigId qc ≠ gigA →
      outbox st' c = outbox st c.
Proof.
  intros events m saved st st'.
  assert (queryOf st 1 = Some (Query.mk gigA seller buyer)) as H1
    by (vm_compute; reflexivity).
  assert (queryOf st 0 = Some (Query.mk gigA seller seller)) as H2
    by (vm_compute; reflexivity).
  assert (stateOf st 1 = Some OPEN) as H3 by (vm_compute; reflexivity).
  assert (stateOf st 0 = Some OPEN) as H4 by (vm_compute; reflexivity).
  assert (parties (Query.mk gigA seller buyer) (Query.mk gigA seller seller))
    as H5 by (split; [reflexivity|right; reflexivity]).
  assert (Message st' = Message st ++ [saved]) as H6 by (vm_compute; reflexivity).
  split; [by split_and!|].
  exact (message_reaches_both_parties Keyed events 1 0
           (Query.mk gigA seller buyer) (Query.mk gigA seller seller)
           m 1700000000500 saved H1 H2 H3 H4 H5 H6).
Defined.

(** The buyer writes about gig A on its connection for gig B: the document
    is stored under gig A and goes to the audience of the connection for
    gig B, that is to that connection alone. *)
Lemma audience_from_admission_only_witness :
  let events :=
    [Connection (Some gigA) (Some seller) (Some seller);
     Connection (Some gigA) (Some seller) (Some buyer);
     Connection (Some gigB) (Some seller) (Some buyer)] in
  let m := chat gigA (Some "hi") (Some 1700000000000) in
  let saved :=
    note 0 gigA "hi" 1700000000000 in
  let st := run Keyed events in
  let st' := run Keyed (events ++ [Incoming 2 (Some m) 1700000000500]) in
  (queryOf st 2 = Some (Query.mk gigB seller buyer)
   ∧ Message st' = Message st ++ [saved])
  ∧ Stored.gigId saved = gigA
  ∧ outbox st' 2 = [frame_of saved]
  ∧ outbox st' 1 = [] ∧ outbox st' 0 = [].
Proof.
  intros events m saved st st'.
  assert (queryOf st 2 = Some (Query.mk gigB seller buyer)) as H1
    by (vm_compute; reflexivity).
  assert (Message st' = Message st ++ [saved]) as H2 by (vm_compute; reflexivity).
  split; [by split|].
  destruct (audience_from_admission_only Keyed events 2
              (Query.mk gigB seller buyer) m 1700000000500 saved H1 H2)
    as [_ Hall].
  split; [reflexivity|]. split_and!.
  - apply (proj1 (Hall 2%nat)). split_and!.
    + apply list_elem_of_In. vm_compute. tauto.
    + vm_compute. reflexivity.
    + exists (Query.mk gigB seller buyer).
      split_and!; [vm_compute; reflexivity|reflexivity|right; reflexivity].
  - apply (proj2 (Hall 1%nat)). intros (_ & _ & cq & Hcq & Hg & _).
    vm_compute in Hcq. injection Hcq as <-. vm_compute in Hg. discriminate Hg.
  - apply (proj2 (Hall 0%nat)). intros (_ & _ & cq & Hcq & Hg & _).
    vm_compute in Hcq. injection Hcq as <-. vm_compute in Hg. discriminate Hg.
Defined.

(** A connection without [gigId]. *)
Lemma invalid_connection_is_turned_away_witness :
  let st := run ESM [] in
  let st' := run ESM ([] ++ [Connection None (Some seller) (Some buyer)]) in
  acceptable None (Some seller) (Some buyer) = false
  ∧ (∃ error, outbox st' 0 = [ErrorFrame error])
  ∧ (∃ reason, closeCallOf st' 0 = Some (1008, reason))
  ∧ stateOf st' 0 = Some CLOSING
  ∧ queryOf st' 0 = None
  ∧ sets st' = sets st
  ∧ activeConnections st' = activeConnections st
  ∧ ¬ registered st' 0.
Proof.
  split; [reflexivity|].
  exact (invalid_connection_is_turned_away ESM [] None (Some seller) (Some buyer)
           eq_refl).
Defined.

(** A message without [text]. *)
Lemma missing_text_is_rejected_witness :
  let events := [Connection (Some gigA) (Some seller) (Some buyer)] in
  let m := chat gigA None (Some 1700000000000) in
  let st := run Windowed events in
  let st' := run Windowed (events ++ [Incoming 0 (Some m) 1700000000500]) in
  (queryOf st 0 = Some (Query.mk gigA seller buyer)
   ∧ stateOf st 0 = Some OPEN ∧ Inbound.text m = None)
  ∧ outbox st' 0 = outbox st 0 ++ [ErrorFrame "Invalid message format"]
  ∧ Message st' = Message st.
Proof.
  intros events m st st'.
  assert (queryOf st 0 = Some (Query.mk gigA seller buyer)) as H1
    by (vm_compute; reflexivity).
  assert (stateOf st 0 = Some OPEN) as H2 by (vm_compute; reflexivity).
  split; [by split_and!|].
  destruct (missing_text_is_rejected Windowed events 0
              (Query.mk gigA seller buyer) m 1700000000500 H1 H2 eq_refl)
    as (Ho & HM & _).
  by split.
Defined.

(** A message whose [gigId] is no identifier. *)
Lemma invalid_gigId_is_rejected_witness :
  let events := [Connection (Some gigA) (Some seller) (Some buyer)] in
  let m := chat "gig-17" (Some "hi") (Some 1700000000000) in
  let st := run Keyed events in
  let st' := run Keyed (events ++ [Incoming 0 (Some m) 1700000000500]) in
  (queryOf st 0 = Some (Query.mk gigA seller buyer)
   ∧ stateOf st 0 = Some OPEN
   ∧ isValid (val (Inbound.gigId m)) = false)
  ∧ (∃ error, outbox st' 0 = outbox st 0 ++ [ErrorFrame error])
  ∧ Message st' = Message st.
Proof.
  intros events m st st'.
  assert (queryOf st 0 = Some (Query.mk gigA seller buyer)) as H1
    by (vm_compute; reflexivity).
  assert (stateOf st 0 = Some OPEN) as H2 by (vm_compute; reflexivity).
  split; [by split_and!|].
  destruct (invalid_gigId_is_rejected Keyed events 0
              (Query.mk gigA seller buyer) m 1700000000500 H1 H2 eq_refl)
    as (Ho & HM & _).
  by split.
Defined.

(** A message with a timestamp, stored by the ESM draft. *)
Lemma stored_timestamp_witness :
  let events := [Connection (Some gigA) (Some seller) (Some buyer)] in
  let m := chat gigA (Some "hi") (Some 1700000000000) in
  let saved := note 0 gigA "hi" 1700000000000 in
  let st := run ESM events in
  let st' := run ESM (events ++ [Incoming 0 (Some m) 1700000000500]) in
  Message st' = Message st ++ [saved]
  ∧ (∀ t, Inbound.timestamp m = Some t → t ≠ 0 → Stored.timestamp saved = t)
  ∧ (ESM ≠ Windowed →
     Inbound.timestamp m = None ∨ Inbound.timestamp m = Some 0 →
     Stored.timestamp saved = 1700000000500)
  ∧ (ESM = Windowed → Inbound.timestamp m = Some (Stored.timestamp saved)).
Proof.
  intros events m saved st st'.
  assert (Message st' = Message st ++ [saved]) as H by (vm_compute; reflexivity).
  split; [exact H|].
  exact (stored_timestamp ESM events 0 m 1700000000500 saved H).
Defined.

(** C8, a message the claim as stated fails on: the timestamp 0 is present
    in the message, and the ESM draft stores the server's time instead. *)
Lemma zero_timestamp_is_replaced :
  let events := [Connection (Some gigA) (Some seller) (Some buyer)] in
  let m := chat gigA (Some "hi") (Some 0) in
  let st' := run ESM (events ++ [Incoming 0 (Some m) 1700000000500]) in
  Inbound.timestamp m = Some 0
  ∧ Stored.timestamp <$> Message st' = [1700000000500]
  ∧ ¬ (∀ saved, saved ∈ Message st' → Stored.timestamp saved = 0).
Proof.
  intros events m st'. split; [reflexivity|].
  assert (Stored.timestamp <$> Message st' = [1700000000500]) as H
    by (vm_compute; reflexivity).
  split; [exact H|]. intros Hall.
  assert (∀ t, t ∈ Stored.timestamp <$> Message st' → t = 0) as Hzero.
  { intros t (saved & -> & Hin)%list_elem_of_fmap. by apply Hall. }
  rewrite H in Hzero. specialize (Hzero 1700000000500). discriminate Hzero.
  set_solver.
Qed.

(** Two messages of one sender with one timestamp and two texts: they get
    the same key, and both are stored and delivered. *)
Lemma keyed_same_key_is_stored_again_witness :
  let events := [Connection (Some gigA) (Some seller) (Some buyer)] in
  let q := Query.mk gigA seller buyer in
  let m1 := chat gigA (Some "hi") (Some 1700000000000) in
  let m2 := chat gigA (Some "something else") (Some 1700000000000) in
  let saved := note 0 gigA "hi" 1700000000000 in
  let saved2 := note 1 gigA "something else" 1700000000000 in
  let st := run Keyed events in
  let first := events ++ [Incoming 0 (Some m1) 1700000000500] in
  let st1 := run Keyed first in
  let st2 := run Keyed (first ++ [Incoming 0 (Some m2) 1700000009000]) in
  (queryOf st 0 = Some q ∧ Message st1 = Message st ++ [saved])
  ∧ make_messageId m2 1700000009000 = make_messageId m1 1700000000500
  ∧ make_messageId m1 1700000000500 = buyer +:+ ":1700000000000"
  ∧ (∃ saved2, Message st2 = Message st ++ [saved; saved2]
       ∧ Stored.text saved2 = val (Inbound.text m2)
       ∧ broadcast_to q (frame_of saved2) st1 st2)
  ∧ Message st2 = [saved; saved2]
  ∧ outbox st2 0 = [frame_of saved; frame_of saved2].
Proof.
  intros events q m1 m2 saved saved2 st first st1 st2.
  assert (queryOf st 0 = Some q) as H1 by (vm_compute; reflexivity).
  assert (Message st1 = Message st ++ [saved]) as H2 by (vm_compute; reflexivity).
  destruct (keyed_same_key_is_stored_again events 0 q m1 m2
              1700000000500 1700000009000 1700000000000 saved
              H1 eq_refl eq_refl eq_refl eq_refl eq_refl eq_refl eq_refl
              ltac:(discriminate) eq_refl H2)
    as (Hkey & Hstored).
  split; [by split|].
  split_and!; [exact Hkey| |exact Hstored| |]; vm_compute; reflexivity.
Defined.

(** Two equal messages, the second 3 s after the first. *)
Lemma windowed_duplicates_witness :
  let events := [Connection (Some gigA) (Some seller) (Some buyer)] in
  let m1 := chat gigA (Some "hi") (Some 1700000000000) in
  let m2 := chat gigA (Some "hi") (Some 1700000003000) in
  let saved := note 0 gigA "hi" 1700000000000 in
  let st := run Windowed events in
  let first := events ++ [Incoming 0 (Some m1) 1700000000500] in
  let st1 := run Windowed first in
  let st2 := run Windowed (first ++ [Incoming 0 (Some m2) 1700000003500]) in
  (cast_agrees
   ∧ queryOf st 0 = Some (Query.mk gigA seller buyer)
   ∧ stateOf st 0 = Some OPEN
   ∧ Message st1 = Message st ++ [saved])
  ∧ Message st2 = Message st1
  ∧ outbox st2 0 = outbox st1 0 ++ [ErrorFrame "Duplicate message detected"].
Proof.
  intros events m1 m2 saved st first st1 st2.
  assert (cast_agrees) as H0 by (intros s o H; exact H).
  assert (queryOf st 0 = Some (Query.mk gigA seller buyer)) as H1
    by (vm_compute; reflexivity).
  assert (stateOf st 0 = Some OPEN) as H2 by (vm_compute; reflexivity).
  assert (Message st1 = Message st ++ [saved]) as H3 by (vm_compute; reflexivity).
  split; [by split_and!|].
  destruct (windowed_duplicates events 0 (Query.mk gigA seller buyer) m1 m2
              1700000000500 1700000003500 1700000000000 1700000003000 saved
              H0 H1 H2 eq_refl eq_refl eq_refl eq_refl eq_refl eq_refl H3)
    as (_ & Hdup & _).
  destruct Hdup as (HM & _ & error & Ho & Herror); [lia|].
  rewrite Herror in Ho by (unfold maxTime; lia).
  split; [exact HM|exact Ho].
Defined.

(** C3, two messages the claim as stated fails on: the same gigId,
    senderId and text, the timestamps 10 s apart, the earlier one sent
    second.  The filter has no upper bound, so the second message is
    refused as a duplicate: one document and one broadcast, not two. *)
Lemma windowed_earlier_timestamp_is_refused :
  let events := [Connection (Some gigA) (Some seller) (Some buyer)] in
  let m1 := chat gigA (Some "hi") (Some 1700000010000) in
  let m2 := chat gigA (Some "hi") (Some 1700000000000) in
  let st1 := run Windowed (events ++ [Incoming 0 (Some m1) 1700000010500]) in
  let st2 :=
    run Windowed (events ++ [Incoming 0 (Some m1) 1700000010500;
                             Incoming 0 (Some m2) 1700000011000]) in
  5000 < Z.abs (1700000000000 - 1700000010000)
  ∧ Message st1 = [note 0 gigA "hi" 1700000010000]
  ∧ Message st2 = Message st1
  ∧ outbox st2 0
    = [frame_of (note 0 gigA "hi" 1700000010000);
       ErrorFrame "Duplicate message detected"].
Proof. vm_compute. by split_and!. Qed.

(** A second connection of the buyer for gig A. *)
Lemma one_connection_per_user_and_gig_witness :
  let events := [Connection (Some gigA) (Some seller) (Some buyer)] in
  let st := run Keyed events in
  let st' :=
    run Keyed (events ++ [Connection (Some gigA) (Some seller) (Some buyer)]) in
  (acceptable (Some gigA) (Some seller) (Some buyer) = true
   ∧ registered st 0
   ∧ queryOf st 0 = Some (Query.mk gigA seller buyer)
   ∧ stateOf st 0 = Some OPEN)
  ∧ registered st' 1
  ∧ ¬ registered st' 0
  ∧ stateOf st' 0 = Some CLOSING
  ∧ closeCallOf st' 0 = Some (1008, "Duplicate connection").
Proof.
  intros events st st'.
  assert (acceptable (Some gigA) (Some seller) (Some buyer) = true) as H0
    by reflexivity.
  assert (registered st 0) as H1.
  { exists buyer, 0%nat. split; [vm_compute; reflexivity|].
    apply list_elem_of_In. vm_compute. tauto. }
  assert (queryOf st 0 = Some (Query.mk gigA seller buyer)) as H2
    by (vm_compute; reflexivity).
  assert (stateOf st 0 = Some OPEN) as H3 by (vm_compute; reflexivity).
  split; [by split_and!|].
  destruct (one_connection_per_user_and_gig events) as [_ Hnewcomer].
  destruct (Hnewcomer (Some gigA) (Some seller) (Some buyer) H0) as [Hnew Hold].
  destruct (Hold 0%nat (Query.mk gigA seller buyer) H1 H2 eq_refl eq_refl)
    as (Hout & _ & Hclose).
  destruct (Hclose H3) as [Hs Hk].
  split_and!; [exact Hnew|exact Hout|exact Hs|exact Hk].
Defined.


(** A connection keeps its parameters through a message of its own, the
    closing handshake and the close. *)
Lemma query_is_fixed_witness :
  let events := [Connection (Some gigA) (Some seller) (Some buyer)] in
  let later :=
    [Incoming 0 (Some (chat gigA (Some "hi") (Some 1700000000000))) 1700000000500;
     PeerClosing 0; Closed 0] in
  (0 < length (heap (run ESM events)))%nat
  ∧ queryOf (run ESM (events ++ later)) 0 = queryOf (run ESM events) 0.
Proof.
  intros events later.
  assert (0 < length (heap (run ESM events)))%nat as H by (vm_compute; lia).
  split; [exact H|].
  exact (query_is_fixed ESM events later 0 H).
Defined.

(** A connection without [gigId] sends a message after the buyer has
    connected. *)
Lemma turned_away_connection_is_not_heard_witness :
  let first := [] ++ [Connection None (Some seller) (Some buyer)] in
  let later := [Connection (Some gigA) (Some seller) (Some buyer)] in
  let data := Some (chat gigA (Some "hi") (Some 1700000000000)) in
  acceptable None (Some seller) (Some buyer) = false
  ∧ run ESM ((first ++ later) ++ [Incoming 0 data 1700000000500])
    = run ESM (first ++ later).
Proof.
  intros first later data. split; [reflexivity|].
  exact (turned_away_connection_is_not_heard ESM [] None (Some seller)
           (Some buyer) later data 1700000000500 eq_refl).
Defined.

(** The buyer starts the closing handshake, then a message arrives from it
    and the seller connects. *)
Lemma socket_not_open_is_left_alone_witness :
  let events :=
    [Connection (Some gigA) (Some seller) (Some buyer); PeerClosing 0] in
  let later :=
    [Incoming 0 (Some (chat gigA (Some "hi") (Some 1700000000000))) 1700000000500;
     Connection (Some gigA) (Some seller) (Some seller)] in
  let st := run Windowed events in
  let st' := run Windowed (events ++ later) in
  (stateOf st 0 = Some CLOSING ∧ CLOSING ≠ OPEN)
  ∧ stateOf st' 0 ≠ Some OPEN
  ∧ (CLOSING = CLOSED → stateOf st' 0 = Some CLOSED)
  ∧ outbox st' 0 = outbox st 0
  ∧ closeCallOf st' 0 = closeCallOf st 0.
Proof.
  intros events later st st'.
  assert (stateOf st 0 = Some CLOSING) as H1 by (vm_compute; reflexivity).
  assert (CLOSING ≠ OPEN) as H2 by discriminate.
  split; [by split|].
  exact (socket_not_open_is_left_alone Windowed events later 0 CLOSING H1 H2).
Defined.

(** The buyer connects twice for gig A: the first connection is closed as
    a duplicate. *)
Lemma server_close_calls_witness :
  let events :=
    [Connection (Some gigA) (Some seller) (Some buyer);
     Connection (Some gigA) (Some seller) (Some buyer)] in
  let st := run Keyed events in
  closeCallOf st 0 = Some (1008, "Duplicate connection")
  ∧ 1008 = 1008 ∧ stateOf st 0 ≠ Some OPEN
  ∧ (queryOf st 0 = None
     ∧ ("Duplicate connection" = "Missing gigId, sellerId, or userId"
        ∨ "Duplicate connection" = "Invalid gigId, sellerId, or userId")
     ∨ Keyed = Keyed ∧ is_Some (queryOf st 0)
       ∧ "Duplicate connection" = "Duplicate connection").
Proof.
  intros events st.
  assert (closeCallOf st 0 = Some (1008, "Duplicate connection")) as H
    by (vm_compute; reflexivity).
  split; [exact H|].
  exact (server_close_calls Keyed events 0 1008 "Duplicate connection" H).
Defined.

(** The first connection of a server. *)
Lemma valid_connection_is_admitted_witness :
  let st := run Windowed [] in
  let st' :=
    run Windowed ([] ++ [Connection (Some gigA) (Some seller) (Some buyer)]) in
  acceptable (Some gigA) (Some seller) (Some buyer) = true
  ∧ queryOf st' 0 = Some (Query.mk gigA seller buyer)
  ∧ stateOf st' 0 = Some OPEN
  ∧ outbox st' 0 = []
  ∧ closeCallOf st' 0 = None
  ∧ 0%nat ∈ clients st'
  ∧ Message st' = Message st.
Proof.
  intros st st'.
  assert (acceptable (Some gigA) (Some seller) (Some buyer) = true) as H
    by (vm_compute; reflexivity).
  split; [exact H|].
  exact (valid_connection_is_admitted Windowed [] (Some gigA) (Some seller)
           (Some buyer) H).
Defined.

(** An empty [gigId] next to a [sellerId] that is no identifier: the empty
    parameter is the one reported. *)
Lemma connection_rejection_reasons_witness :
  let st' := run ESM ([] ++ [Connection (Some "") (Some "me") (Some buyer)]) in
  acceptable (Some "") (Some "me") (Some buyer) = false
  ∧ outbox st' 0 = [ErrorFrame "Missing required query parameters"]
  ∧ closeCallOf st' 0 = Some (1008, "Missing gigId, sellerId, or userId").
Proof.
  intros st'.
  assert (acceptable (Some "") (Some "me") (Some buyer) = false) as H
    by (vm_compute; reflexivity).
  split; [exact H|].
  exact (proj1 (connection_rejection_reasons ESM [] (Some "") (Some "me")
                  (Some buyer) H)).
Defined.

(** In the ESM draft the buyer connects twice for gig A. *)
Lemma other_drafts_supersede_nothing_witness :
  let events := [Connection (Some gigA) (Some seller) (Some buyer)] in
  let st := run ESM events in
  let st' :=
    run ESM (events ++ [Connection (Some gigA) (Some seller) (Some buyer)]) in
  ESM ≠ Keyed
  ∧ sets st' = [] ∧ activeConnections st' = ∅
  ∧ ∀ c, c ≠ length (heap st) →
      untouched st st' c ∧ outbox st' c = outbox st c
      ∧ queryOf st' c = queryOf st c.
Proof.
  intros events st st'.
  assert (ESM ≠ Keyed) as H by discriminate.
  split; [exact H|].
  exact (other_drafts_supersede_nothing ESM events (Some gigA) (Some seller)
           (Some buyer) H).
Defined.

(** The buyer is connected for gig A and connects for gig B. *)
Lemma eviction_is_scoped_witness :
  let events := [Connection (Some gigA) (Some seller) (Some buyer)] in
  let qc := Query.mk gigA seller buyer in
  let st := run Keyed events in
  let st' :=
    run Keyed (events ++ [Connection (Some gigB) (Some seller) (Some buyer)]) in
  (queryOf st 0 = Some qc
   ∧ (Query.userId qc ≠ val (Some buyer) ∨ Query.gigId qc ≠ val (Some gigB)))
  ∧ untouched st st' 0
  ∧ outbox st' 0 = outbox st 0
  ∧ queryOf st' 0 = Some qc
  ∧ (registered st 0 → registered st' 0).
Proof.
  intros events qc st st'.
  assert (queryOf st 0 = Some qc) as H1 by (vm_compute; reflexivity).
  assert (Query.userId qc ≠ val (Some buyer) ∨ Query.gigId qc ≠ val (Some gigB))
    as H2 by (right; discriminate).
  split; [by split|].
  exact (eviction_is_scoped events (Some gigB) (Some seller) (Some buyer) 0 qc
           H1 H2).
Defined.

(** The one connection of the buyer. *)
Lemma registered_connection_is_live_witness :
  let events := [Connection (Some gigA) (Some seller) (Some buyer)] in
  let st := run Keyed events in
  (activeConnections st !! buyer = Some 0%nat ∧ 0%nat ∈ members 0 st)
  ∧ (∃ q, queryOf st 0 = Some q ∧ Query.userId q = buyer)
  ∧ closureOf st 0 = Some 0%nat
  ∧ is_closed 0 st = false
  ∧ 0%nat ∈ clients st
  ∧ closeCallOf st 0 = None.
Proof.
  intros events st.
  assert (activeConnections st !! buyer = Some 0%nat) as H1
    by (vm_compute; reflexivity).
  assert (0%nat ∈ members 0 st) as H2
    by (apply list_elem_of_In; vm_compute; tauto).
  split; [by split|].
  exact (registered_connection_is_live events 0 buyer 0 H1 H2).
Defined.

(** The buyer's connection closes; a message in its name comes after. *)
Lemma closed_socket_is_out_witness :
  let events := [Connection (Some gigA) (Some seller) (Some buyer)] in
  let later :=
    [Incoming 0 (Some (chat gigA (Some "hi") (Some 1700000000000))) 1700000000500] in
  let st0 := run ESM events in
  let st := run ESM ((events ++ [Closed 0]) ++ later) in
  is_closed 0 st0 = false
  ∧ stateOf st 0 = Some CLOSED
  ∧ (0%nat ∉ clients st)
  ∧ (∀ key, 0%nat ∉ matching key st)
  ∧ ¬ registered st 0
  ∧ outbox st 0 = outbox st0 0.
Proof.
  intros events later st0 st.
  assert (is_closed 0 st0 = false) as H by (vm_compute; reflexivity).
  split; [exact H|].
  exact (closed_socket_is_out ESM events 0 later H).
Defined.

(** The answer to data that does not parse. *)
Lemma frames_on_the_wire_witness :
  let events :=
    [Connection (Some gigA) (Some seller) (Some buyer);
     Incoming 0 None 1700000000500] in
  let st := run ESM events in
  ErrorFrame "Server error" ∈ outbox st 0
  ∧ "Server error" ∈ connection_errors ++ message_errors ESM.
Proof.
  intros events st.
  assert (ErrorFrame "Server error" ∈ outbox st 0) as H
    by (apply list_elem_of_In; vm_compute; tauto).
  split; [exact H|].
  exact (frames_on_the_wire ESM events 0 (ErrorFrame "Server error") H).
Defined.

(** The buyer's connection sends a message in the name of the seller. *)
Lemma stored_document_fields_witness :
  let events := [Connection (Some gigA) (Some seller) (Some buyer)] in
  let m :=
    Inbound.mk (Some gigA) (Some seller) (Some "hi") (Some "")
      (Some 1700000000000) None in
  let saved := Stored.mk 0 gigA seller None "hi" 1700000000000 in
  let st := run Keyed events in
  let st' := run Keyed (events ++ [Incoming 0 (Some m) 1700000000500]) in
  Message st' = Message st ++ [saved]
  ∧ createFromHexString (val (Inbound.senderId m)) = Some seller
  ∧ Stored.text saved = "hi"
  ∧ Stored.recipientId saved = None
  ∧ Stored._id saved = length (Message st).
Proof.
  intros events m saved st st'.
  assert (Message st' = Message st ++ [saved]) as H by (vm_compute; reflexivity).
  split; [exact H|].
  exact (stored_document_fields Keyed events 0 m 1700000000500 saved H).
Defined.

(** Data that is no JSON. *)
Lemma unparseable_data_is_answered_witness :
  let events := [Connection (Some gigA) (Some seller) (Some buyer)] in
  let q := Query.mk gigA seller buyer in
  let st := run Keyed events in
  let st' := run Keyed (events ++ [Incoming 0 None 1700000000500]) in
  (queryOf st 0 = Some q ∧ stateOf st 0 = Some OPEN)
  ∧ outbox st' 0 = outbox st 0 ++ [ErrorFrame "Server error"]
  ∧ Message st' = Message st
  ∧ (∀ c, c ≠ 0%nat → outbox st' c = outbox st c)
  ∧ same_skeleton st st'.
Proof.
  intros events q st st'.
  assert (queryOf st 0 = Some q) as H1 by (vm_compute; reflexivity).
  assert (stateOf st 0 = Some OPEN) as H2 by (vm_compute; reflexivity).
  split; [by split|].
  exact (unparseable_data_is_answered Keyed events 0 q 1700000000500 H1 H2).
Defined.

(** A message with a [recipientId] that is no identifier. *)
Lemma ill_formed_message_reason_witness :
  let events := [Connection (Some gigA) (Some seller) (Some buyer)] in
  let q := Query.mk gigA seller buyer in
  let m :=
    Inbound.mk (Some gigA) (Some buyer) (Some "hi") (Some "nobody")
      (Some 1700000000000) None in
  let st := run ESM events in
  let st' := run ESM (events ++ [Incoming 0 (Some m) 1700000000500]) in
  (queryOf st 0 = Some q ∧ stateOf st 0 = Some OPEN ∧ well_formed m = false)
  ∧ outbox st' 0 = outbox st 0 ++ [ErrorFrame "Invalid message IDs"]
  ∧ Message st' = Message st.
Proof.
  intros events q m st st'.
  assert (queryOf st 0 = Some q) as H1 by (vm_compute; reflexivity).
  assert (stateOf st 0 = Some OPEN) as H2 by (vm_compute; reflexivity).
  assert (well_formed m = false) as H3 by (vm_compute; reflexivity).
  split; [by split_and!|].
  destruct (ill_formed_message_reason ESM events 0 q m 1700000000500 H1 H2 H3)
    as (Ho & HM & _).
  split; [exact Ho|exact HM].
Defined.

(** A message without a timestamp. *)
Lemma windowed_needs_a_timestamp_witness :
  let events := [Connection (Some gigA) (Some seller) (Some buyer)] in
  let q := Query.mk gigA seller buyer in
  let m := chat gigA (Some "hi") None in
  let st := run Windowed events in
  let st' := run Windowed (events ++ [Incoming 0 (Some m) 1700000000500]) in
  (queryOf st 0 = Some q ∧ stateOf st 0 = Some OPEN
   ∧ well_formed m = true ∧ Inbound.timestamp m = None)
  ∧ outbox st' 0 = outbox st 0 ++ [ErrorFrame "Server error"]
  ∧ Message st' = Message st
  ∧ (∀ c, c ≠ 0%nat → outbox st' c = outbox st c).
Proof.
  intros events q m st st'.
  assert (queryOf st 0 = Some q) as H1 by (vm_compute; reflexivity).
  assert (stateOf st 0 = Some OPEN) as H2 by (vm_compute; reflexivity).
  assert (well_formed m = true) as H3 by (vm_compute; reflexivity).
  assert (Inbound.timestamp m = None) as H4 by reflexivity.
  split; [by split_and!|].
  exact (windowed_needs_a_timestamp events 0 q m 1700000000500 H1 H2 H3 H4).
Defined.

(** The same message six seconds apart. *)
Lemma windowed_copies_are_spaced_witness :
  let events :=
    [Connection (Some gigA) (Some seller) (Some buyer);
     Incoming 0 (Some (chat gigA (Some "hi") (Some 1700000000000))) 1700000000500;
     Incoming 0 (Some (chat gigA (Some "hi") (Some 1700000006000))) 1700000006500] in
  let d1 := note 0 gigA "hi" 1700000000000 in
  let d2 := note 1 gigA "hi" 1700000006000 in
  let st := run Windowed events in
  (cast_agrees
   ∧ Message st !! 0%nat = Some d1 ∧ Message st !! 1%nat = Some d2
   ∧ (0 < 1)%nat ∧ same_content d1 d2)
  ∧ Stored.timestamp d1 + 5000 < Stored.timestamp d2.
Proof.
  intros events d1 d2 st.
  assert (cast_agrees) as H0 by (intros s o H; exact H).
  assert (Message st !! 0%nat = Some d1) as H1 by (vm_compute; reflexivity).
  assert (Message st !! 1%nat = Some d2) as H2 by (vm_compute; reflexivity).
  assert (0 < 1)%nat as H3 by lia.
  assert (same_content d1 d2) as H4 by (by split_and!).
  split; [by split_and!|].
  exact (windowed_copies_are_spaced events 0 1 d1 d2 H0 H1 H2 H3 H4).
Defined.

(** The same message twice. *)
Lemma esm_stores_every_copy_witness :
  let events := [Connection (Some gigA) (Some seller) (Some buyer)] in
  let q := Query.mk gigA seller buyer in
  let m := chat gigA (Some "hi") (Some 1700000000000) in
  let saved := note 0 gigA "hi" 1700000000000 in
  let st := run ESM events in
  let first := events ++ [Incoming 0 (Some m) 1700000000500] in
  let st1 := run ESM first in
  let st2 := run ESM (first ++ [Incoming 0 (Some m) 1700000000900]) in
  (queryOf st 0 = Some q ∧ Message st1 = Message st ++ [saved]
   ∧ Z.abs 1700000000900 ≤ maxTime)
  ∧ ∃ saved', Message st2 = Message st ++ [saved; saved']
      ∧ same_content saved saved'
      ∧ Stored._id saved' = S (Stored._id saved)
      ∧ broadcast_to q (frame_of saved') st1 st2.
Proof.
  intros events q m saved st first st1 st2.
  assert (queryOf st 0 = Some q) as H1 by (vm_compute; reflexivity).
  assert (Message st1 = Message st ++ [saved]) as H2 by (vm_compute; reflexivity).
  assert (Z.abs 1700000000900 ≤ maxTime) as H3 by (vm_compute; discriminate).
  split; [by split_and!|].
  exact (esm_stores_every_copy events 0 q m 1700000000500 1700000000900 saved
           H1 H2 H3).
Defined.

(** The one connection of the buyer, open. *)
Lemma open_connection_is_in_its_set_witness :
  let events := [Connection (Some gigA) (Some seller) (Some buyer)] in
  let q := Query.mk gigA seller buyer in
  let st := run Keyed events in
  queryOf st 0 = Some q
  ∧ ∃ r, closureOf st 0 = Some r ∧ (r < length (sets st))%nat
      ∧ (stateOf st 0 = Some OPEN → 0%nat ∈ members r st).
Proof.
  intros events q st.
  assert (queryOf st 0 = Some q) as H by (vm_compute; reflexivity).
  split; [exact H|].
  exact (open_connection_is_in_its_set events 0 q H).
Defined.

(** ** Where the drafts part from the specification *)

(** C1, a pair the claim as stated fails on.  The seller of gig A is
    admitted with itself as [sellerId], the buyer with that seller: they
    are the two parties of the conversation, both open, and the messages
    of the buyer reach the seller.  A message of the seller is accepted
    and written to the seller, and nothing is written to the buyer: the
    loop tests the clients against the parameters of the sender, and the
    user of the buyer is neither the user nor the seller the sender was
    admitted with. *)
Lemma seller_named_as_seller_does_not_reach_buyer :
  let events :=
    [Connection (Some gigA) (Some seller) (Some seller);
     Connection (Some gigA) (Some seller) (Some buyer)] in
  let m :=
    Inbound.mk (Some gigA) (Some seller) (Some "hello") None
      (Some 1700000000000) None in
  let saved := Stored.mk 0 gigA seller None "hello" 1700000000000 in
  let st := run ESM events in
  let st' := run ESM (events ++ [Incoming 0 (Some m) 1700000000500]) in
  queryOf st 0 = Some (Query.mk gigA seller seller)
  ∧ queryOf st 1 = Some (Query.mk gigA seller buyer)
  ∧ stateOf st 0 = Some OPEN ∧ stateOf st 1 = Some OPEN
  ∧ Message st' = Message st ++ [saved]
  ∧ outbox st' 0 = outbox st 0 ++ [frame_of saved]
  ∧ outbox st' 1 = outbox st 1
  ∧ outbox st' 1 ≠ outbox st 1 ++ [frame_of saved].
Proof. vm_compute. split_and!; try reflexivity. discriminate. Qed.

(** The ["close"] listener deletes the entry of its userId whenever the set
    it closed over is empty, also when the map holds a newer set by then.
    Socket 0 is evicted by socket 1, socket 1 closes (the entry goes),
    socket 2 is admitted under a new set, and only then the close of
    socket 0 arrives: it deletes the entry of socket 2.  Socket 3, for the
    same user and gig, is then admitted without socket 2 being closed:
    both are open and in the audience, and the map knows socket 3 alone. *)
Lemma late_close_drops_a_live_set :
  let hello := Connection (Some gigA) (Some seller) (Some buyer) in
  let st := run Keyed [hello; hello; Closed 1; hello; Closed 0; hello] in
  stateOf st 2 = Some OPEN ∧ stateOf st 3 = Some OPEN
  ∧ queryOf st 2 = queryOf st 3
  ∧ map_to_list (activeConnections st) = [(buyer, 2%nat)]
  ∧ members 2 st = [3%nat]
  ∧ matching (Query.mk gigA seller buyer) st = [2%nat; 3%nat].
Proof. vm_compute. by split_and!. Qed.

(** C2, a history the keyed draft fails on.  One user connects for one gig
    four times.  The first connection is superseded by the second, the
    second closes, the third is admitted, and then the close of the first
    arrives: its listener finds the set it closed over empty and deletes
    the entry of the user, which by then points to the set of the third.
    When the fourth connection is admitted the map has no entry for the
    user, a new set is made, and the loop that is to "close older
    connections for the same userId and gigId" meets no other member: the
    third connection, admitted and open for the same user and gig, is
    given no close and stays open, and both are in the audience. *)
Lemma late_close_keeps_an_older_connection_open :
  let hello := Connection (Some gigA) (Some seller) (Some buyer) in
  let events := [hello; hello; Closed 1; hello; Closed 0] in
  let st := run Keyed events in
  let st' := run Keyed (events ++ [hello]) in
  queryOf st 2 = Some (Query.mk gigA seller buyer)
  ∧ stateOf st 2 = Some OPEN
  ∧ map_to_list (activeConnections st) = []
  ∧ queryOf st' 3 = Some (Query.mk gigA seller buyer)
  ∧ stateOf st' 3 = Some OPEN
  ∧ stateOf st' 2 = Some OPEN
  ∧ closeCallOf st' 2 = None
  ∧ matching (Query.mk gigA seller buyer) st' = [2%nat; 3%nat].
Proof. vm_compute. by split_and!. Qed.
